(** * Warranty resolution engine of the Lenovo warranty checker

    A shallow embedding of [LenovoWarrantyService] (services/warranty-service.ts)
    and of the record types of [types.ts].

    The service is asynchronous JavaScript.  Its methods are embedded as
    programs of a small free monad [prog] over the operations the code
    performs on the outside: the node-cache instance, the clock, [axios.post],
    the puppeteer session and [setTimeout].  Two interpreters give the
    programs a meaning against an explicit [World]: [run] executes one call
    to the end (an awaited call, as in two consecutive lookups), and
    [promise_all] executes the calls of [Promise.all(chunk.map(...))], which
    all start before any of them is resumed and are then resumed in an
    arbitrary order, named by a schedule. *)

From stdpp Require Import gmap strings list.

Set Default Proof Using "Type".
Set Warnings "-register-all".

(** ** JavaScript values *)

(** The payload of the structured endpoint is whatever JSON the server sent:
    the interface [LenovoApiResponse] is erased at run time, so the payload is
    modelled as an untyped JavaScript value.  Numbers are integers here: the
    code only tests them for truthiness or hands them to [Date]. *)
Inductive jsval : Type :=
| VUndefined
| VNull
| VBool (b : bool)
| VNum (n : Z)
| VStr (s : string)
| VArr (items : list jsval)
| VObj (props : list (string * jsval)).

(** What [if (v)], [!v] and [a && b] test. *)
Definition truthy (v : jsval) : bool :=
  match v with
  | VUndefined | VNull => false
  | VBool b => b
  | VNum n => negb (n =? 0)%Z
  | VStr s => negb (String.eqb s "")
  | VArr _ | VObj _ => true
  end.

(** [v === 'text'] *)
Definition strict_eq_str (v : jsval) (text : string) : bool :=
  match v with
  | VStr s => String.eqb s text
  | _ => false
  end.

(** Own property of a parsed JSON object; [undefined] when it is missing. *)
Fixpoint assoc (name : string) (props : list (string * jsval)) : jsval :=
  match props with
  | [] => VUndefined
  | (k, v) :: rest => if String.eqb k name then v else assoc name rest
  end.

(** [s || undefined] on a string. *)
Definition or_undefined (s : string) : jsval :=
  if String.eqb s "" then VUndefined else VStr s.

(** A JavaScript number that is an integer or [NaN]: the result of
    [Math.ceil] on a difference of time values.  Time values are integral
    milliseconds below 8.64e15 in magnitude, so the subtraction and the
    division by 86400000 lose nothing that [Math.ceil] could see, and the
    integer arithmetic of [ceil_days] is what the doubles compute. *)
Inductive number : Type :=
| NaN
| Num (z : Z).

Definition num_lt (n : number) (k : Z) : bool :=
  match n with NaN => false | Num z => (z <? k)%Z end.

Definition num_le (n : number) (k : Z) : bool :=
  match n with NaN => false | Num z => (z <=? k)%Z end.

(** [Math.ceil(ms / (1000 * 60 * 60 * 24))] *)
Definition ceil_days (ms : Z) : Z := (- ((- ms) / (1000 * 60 * 60 * 24)))%Z.

(** [Math.ceil((endDate.getTime() - today.getTime()) / (1000 * 60 * 60 * 24))];
    [None] is the time value [NaN] of an invalid [Date]. *)
Definition days_between (endDate : option Z) (today : Z) : number :=
  match endDate with
  | Some e => Num (ceil_days (e - today))
  | None => NaN
  end.

(** What a [throw] carries: an [Error] with its message, or anything else. *)
Inductive thrown : Type :=
| JsError (message : string)
| NonError (v : jsval).

(** ** types.ts *)

Inductive WarrantyStatus : Type :=
| Active
| Expired
| ExpiringSoon
| Error
| NotFound.

(** [WarrantyInfo].  An optional member holds [VUndefined] when it is absent;
    on the structured path the members are copied from the payload unchecked. *)
Record WarrantyInfo : Type := mkWarrantyInfo {
  serialNumber : string;
  productName : jsval;
  productType : jsval;
  warrantyStartDate : jsval;
  warrantyEndDate : jsval;
  daysRemaining : option number;
  warrantyStatus : WarrantyStatus;
  warrantyType : jsval;
  errorMessage : jsval
}.

(** The object [page.evaluate] returns in [scrapeWarrantyInfo]: seven strings,
    empty when the selector or the date pattern found nothing. *)
Record WarrantyData : Type := mkWarrantyData {
  wd_productName : string;
  wd_productType : string;
  wd_warrantyStartDate : string;
  wd_warrantyEndDate : string;
  wd_warrantyType : string;
  wd_warrantyStatus : string;
  wd_errorMessage : string
}.

(** ** The outside world *)

(** How [await axios.post(...)] settles: it rejects on a network failure, a
    timeout or a status outside 2xx, and otherwise resolves with
    [response.data]. *)
Inductive axios_result : Type :=
| AxiosRejected (e : thrown)
| AxiosResolved (data : jsval).

(** What happens on the page once it is open, up to [page.evaluate]. *)
Inductive page_steps : Type :=
| PageRejected (e : thrown)     (* an awaited puppeteer call rejects (timeouts included) *)
| SerialInputMissing            (* the three [page.$] lookups all return null *)
| SubmitButtonMissing           (* both submit lookups return null *)
| Extracted (warrantyData : WarrantyData).

(** How the browser part of [scrapeWarrantyInfo] goes: [initBrowser()]
    (which launches a browser only when [this.browser] is still null),
    [newPage()] and the awaited steps on the page up to [page.evaluate],
    the fixed [page.waitForTimeout(3000)] among them.  The model takes this
    part as one call of the world; what it shows of it is its outcome. *)
Inductive browser_result : Type :=
| LaunchRejected (e : thrown)   (* [initBrowser()] or [browser.newPage()] rejects *)
| BrowserMissing                (* [this.browser] is still null after [initBrowser()] *)
| PageOpened (steps : page_steps).

(** The awaited calls, as they appear in the trace.  [CBrowser] is the
    browser part of one scrape as a whole, the waits on the page included;
    [CTimeout] is a timer of [delay]. *)
Inductive call : Type :=
| CAxiosPost (serial : string)
| CBrowser (serial : string)
| CPageClose (serial : string)
| CTimeout (ms : Z).

Inductive event : Type :=
| EvIssue (c : call)             (* the call is made and the caller suspends *)
| EvSettle (c : call)            (* its promise settles and the caller resumes *)
| EvConsoleError (serial : string).

#[global] Instance call_eq_dec : EqDecision call.
Proof. solve_decision. Defined.

#[global] Instance event_eq_dec : EqDecision event.
Proof. solve_decision. Defined.

(** The world answers as a function of the history so far, so that a source
    may answer differently each time it is asked. *)
Record World : Type := mkWorld {
  Date_now : list event -> Z;                       (* [Date.now()], [new Date().getTime()] *)
  Date_parse : jsval -> option Z;                   (* [new Date(v).getTime()], [None] for NaN *)
  axios_post : list event -> string -> axios_result;
  browser_run : list event -> string -> browser_result;
  page_close : list event -> string -> option thrown  (* [Some e]: [page.close()] rejects *)
}.

(** ** The service state: the node-cache instance and the history *)

Record State : Type := mkState {
  cache : gmap string (WarrantyInfo * Z);  (* key to (value, expiry time in ms) *)
  trace : list event
}.

Definition CACHE_TTL : Z := 3600.

(** node-cache with [stdTTL]: [get] hands out the stored value unless its
    expiry time lies before the current time; an expired entry stays in the
    map and is treated as absent. *)
Definition cache_get (w : World) (key : string) (st : State) : option WarrantyInfo :=
  match cache st !! key with
  | Some (v, expires) => if (expires <? Date_now w (trace st))%Z then None else Some v
  | None => None
  end.

Definition cache_set (w : World) (key : string) (v : WarrantyInfo) (st : State) : State :=
  {| cache := <[key := (v, (Date_now w (trace st) + CACHE_TTL * 1000)%Z)]> (cache st);
     trace := trace st |}.

Definition emit (e : event) (st : State) : State :=
  {| cache := cache st; trace := trace st ++ [e] |}.

(** ** Programs *)

Inductive op : Type -> Type :=
| CacheGet (key : string) : op (option WarrantyInfo)
| CacheSet (key : string) (v : WarrantyInfo) : op unit
| DateNow : op Z
| DateParse (v : jsval) : op (option Z)
| ConsoleError (serial : string) : op unit
| AxiosPost (serial : string) : op axios_result
| BrowserRun (serial : string) : op browser_result
| PageClose (serial : string) : op (option thrown)
| SetTimeout (ms : Z) : op unit.

Inductive prog (A : Type) : Type :=
| Ret (a : A)
| Throw (e : thrown)
| Do {X : Type} (o : op X) (k : X -> prog A).

Arguments Ret {A} a.
Arguments Throw {A} e.
Arguments Do {A X} o k.

Fixpoint bind {A B : Type} (p : prog A) (f : A -> prog B) : prog B :=
  match p with
  | Ret a => f a
  | Throw e => Throw e
  | Do o k => Do o (fun x => bind (k x) f)
  end.

Notation "'let*' x <- p 'in' q" := (bind p (fun x => q))
  (at level 10, x name, p at level 100, q at level 200).
Notation "'exec' p 'in' q" := (bind p (fun _ => q))
  (at level 10, p at level 100, q at level 200).

Definition eff {X : Type} (o : op X) : prog X := Do o Ret.

(** [try { p } catch (error) { handler error }] *)
Fixpoint try_catch {A : Type} (p : prog A) (handler : thrown -> prog A) : prog A :=
  match p with
  | Ret a => Ret a
  | Throw e => handler e
  | Do o k => Do o (fun x => try_catch (k x) handler)
  end.

(** [try { p } finally { f }]: [f] runs on both exits, and an exception of
    [f] replaces the completion of [p]. *)
Fixpoint finally {A : Type} (p : prog A) (f : prog unit) : prog A :=
  match p with
  | Ret a => exec f in Ret a
  | Throw e => exec f in Throw e
  | Do o k => Do o (fun x => finally (k x) f)
  end.

(** ** Interpretation *)

Inductive outcome (A : Type) : Type :=
| Returned (a : A)
| Threw (e : thrown).

Arguments Returned {A} a.
Arguments Threw {A} e.

(** The call an awaited operation makes; [None] for a synchronous one. *)
Definition call_of {X : Type} (o : op X) : option call :=
  match o with
  | AxiosPost s => Some (CAxiosPost s)
  | BrowserRun s => Some (CBrowser s)
  | PageClose s => Some (CPageClose s)
  | SetTimeout ms => Some (CTimeout ms)
  | _ => None
  end.

(** Making the call: it is recorded, the caller suspends. *)
Definition issue {X : Type} (o : op X) (st : State) : State :=
  match call_of o with
  | Some c => emit (EvIssue c) st
  | None => st
  end.

(** The effect of a synchronous operation, or the settling of an awaited
    one: the world decides the answer from the history. *)
Definition perform (w : World) {X : Type} (o : op X) (st : State) : X * State :=
  match o in op X return X * State with
  | CacheGet key => (cache_get w key st, st)
  | CacheSet key v => (tt, cache_set w key v st)
  | DateNow => (Date_now w (trace st), st)
  | DateParse v => (Date_parse w v, st)
  | ConsoleError s => (tt, emit (EvConsoleError s) st)
  | AxiosPost s => (axios_post w (trace st) s, emit (EvSettle (CAxiosPost s)) st)
  | BrowserRun s => (browser_run w (trace st) s, emit (EvSettle (CBrowser s)) st)
  | PageClose s => (page_close w (trace st) s, emit (EvSettle (CPageClose s)) st)
  | SetTimeout ms => (tt, emit (EvSettle (CTimeout ms)) st)
  end.

(** One call run to its end with nothing else in between: every awaited
    operation is issued and settles at once. *)
Fixpoint run (w : World) {A : Type} (p : prog A) (st : State) : outcome A * State :=
  match p with
  | Ret a => (Returned a, st)
  | Throw e => (Threw e, st)
  | Do o k => let '(x, st') := perform w o (issue o st) in run w (k x) st'
  end.

(** A call runs synchronously up to its first [await]: there it makes the
    awaited call and suspends. *)
Fixpoint run_sync (w : World) {A : Type} (p : prog A) (st : State) : prog A * State :=
  match p with
  | Ret a => (Ret a, st)
  | Throw e => (Throw e, st)
  | Do o k =>
      match call_of o with
      | Some c => (Do o k, emit (EvIssue c) st)
      | None => let '(x, st') := perform w o st in run_sync w (k x) st'
      end
  end.

(** A suspended call is resumed when its awaited call settles, and runs on to
    its next [await]. *)
Definition resume (w : World) {A : Type} (p : prog A) (st : State) : prog A * State :=
  match p with
  | Do o k => let '(x, st') := perform w o st in run_sync w (k x) st'
  | _ => (p, st)
  end.

(** A suspended call taken to its end: its awaited call settles, and the
    rest runs as in [run]. *)
Definition finish (w : World) {A : Type} (p : prog A) (st : State) : outcome A * State :=
  match p with
  | Ret a => (Returned a, st)
  | Throw e => (Threw e, st)
  | Do o k => let '(x, st') := perform w o st in run w (k x) st'
  end.

(** [tasks.map(f)]: the calls start one after the other, each up to its
    first [await]. *)
Fixpoint start_all (w : World) {A : Type} (ps : list (prog A)) (st : State)
  : list (prog A) * State :=
  match ps with
  | [] => ([], st)
  | p :: rest =>
      let '(p', st1) := run_sync w p st in
      let '(rest', st2) := start_all w rest st1 in
      (p' :: rest', st2)
  end.

(** The event loop resumes the suspended calls in the order in which their
    awaited calls settle: [sched] names that order by task index. *)
Fixpoint run_schedule (w : World) {A : Type} (sched : list nat) (pool : list (prog A))
  (st : State) : list (prog A) * State :=
  match sched with
  | [] => (pool, st)
  | i :: sched' =>
      match pool !! i with
      | Some p =>
          let '(p', st') := resume w p st in
          run_schedule w sched' (<[i := p']> pool) st'
      | None => run_schedule w sched' pool st
      end
  end.

(** Every pending promise settles in the end: what the schedule left
    suspended is finished, in index order. *)
Fixpoint finish_all (w : World) {A : Type} (pool : list (prog A)) (st : State)
  : list (outcome A) * State :=
  match pool with
  | [] => ([], st)
  | p :: rest =>
      let '(r, st1) := finish w p st in
      let '(rs, st2) := finish_all w rest st1 in
      (r :: rs, st2)
  end.

(** [await Promise.all(ps)]: the outcomes, in the order of [ps]. *)
Definition promise_all (w : World) {A : Type} (ps : list (prog A)) (sched : list nat)
  (st : State) : list (outcome A) * State :=
  let '(pool, st1) := start_all w ps st in
  let '(pool', st2) := run_schedule w sched pool st1 in
  finish_all w pool' st2.

(** The values of a list of outcomes, or the first rejection. *)
Fixpoint fulfilled {A : Type} (rs : list (outcome A)) : outcome (list A) :=
  match rs with
  | [] => Returned []
  | Returned a :: rest =>
      match fulfilled rest with
      | Returned l => Returned (a :: l)
      | Threw e => Threw e
      end
  | Threw e :: _ => Threw e
  end.

(** ** The service: services/warranty-service.ts *)

(** [v.name]: reading a property of [undefined] or [null] throws a TypeError;
    numbers, booleans, strings and arrays have none of the names read here. *)
Definition get (v : jsval) (name : string) : prog jsval :=
  match v with
  | VUndefined | VNull => Throw (JsError "Cannot read properties of undefined")
  | VObj props => Ret (assoc name props)
  | _ => Ret VUndefined
  end.

Definition cacheKey (serialNumber : string) : string := "warranty_" +:+ serialNumber.

(** The two object literals that carry nothing but a serial and a status. *)
Definition bare_record (serialNumber : string) (status : WarrantyStatus) (message : jsval)
  : WarrantyInfo :=
  {| serialNumber := serialNumber;
     productName := VUndefined;
     productType := VUndefined;
     warrantyStartDate := VUndefined;
     warrantyEndDate := VUndefined;
     daysRemaining := None;
     warrantyStatus := status;
     warrantyType := VUndefined;
     errorMessage := message |}.

Definition parseApiResponse (serialNumber : string) (data : jsval) : prog WarrantyInfo :=
  let* d <- get data "data" in
  let* no_warranty <-
    (if negb (truthy d) then Ret true
     else let* d' <- get data "data" in
          let* wty <- get d' "warranty" in
          Ret (negb (truthy wty))) in
  if no_warranty : bool then
    Ret (bare_record serialNumber NotFound VUndefined)
  else
    let* d1 <- get data "data" in
    let* warranty <- get d1 "warranty" in
    let* endDateText <- get warranty "endDate" in
    let* endDate <- eff (DateParse endDateText) in
    let* today <- eff DateNow in
    let daysRemaining := days_between endDate today in
    let status :=
      if num_lt daysRemaining 0 then Expired
      else if num_le daysRemaining 30 then ExpiringSoon
      else Active in
    let* d2 <- get data "data" in
    let* product <- get d2 "product" in
    let* startDate <- get warranty "startDate" in
    let* endDate' <- get warranty "endDate" in
    let* type <- get warranty "type" in
    Ret {| serialNumber := serialNumber;
           productName := product;
           productType := VUndefined;
           warrantyStartDate := startDate;
           warrantyEndDate := endDate';
           daysRemaining := Some daysRemaining;
           warrantyStatus := status;
           warrantyType := type;
           errorMessage := VUndefined |}.

(** [null] is [None]. *)
Definition tryApiMethod (serialNumber : string) : prog (option WarrantyInfo) :=
  try_catch
    (let* response <- eff (AxiosPost serialNumber) in
     match response with
     | AxiosRejected e => Throw e
     | AxiosResolved data =>
         let* status <- get data "status" in
         let* ok <-
           (if strict_eq_str status "success"
            then let* d <- get data "data" in Ret (truthy d)
            else Ret false) in
         if ok : bool then
           let* r <- parseApiResponse serialNumber data in
           Ret (Some r)
         else Ret None
     end)
    (fun _ => Ret None).

(** The statements of [scrapeWarrantyInfo] after [page.evaluate]. *)
Definition scraped_record (serialNumber : string) (warrantyData : WarrantyData)
  : prog WarrantyInfo :=
  let* classified <-
    (if truthy (VStr (wd_warrantyEndDate warrantyData)) then
       let* endDate <- eff (DateParse (VStr (wd_warrantyEndDate warrantyData))) in
       let* today <- eff DateNow in
       let daysRemaining := days_between endDate today in
       Ret (Some daysRemaining,
            if num_lt daysRemaining 0 then Expired
            else if num_le daysRemaining 30 then ExpiringSoon
            else Active)
     else if truthy (VStr (wd_errorMessage warrantyData)) then
       Ret (None, Error)
     else Ret (None, NotFound)) in
  Ret {| serialNumber := serialNumber;
         productName := or_undefined (wd_productName warrantyData);
         productType := or_undefined (wd_productType warrantyData);
         warrantyStartDate := or_undefined (wd_warrantyStartDate warrantyData);
         warrantyEndDate := or_undefined (wd_warrantyEndDate warrantyData);
         daysRemaining := fst classified;
         warrantyStatus := snd classified;
         warrantyType := or_undefined (wd_warrantyType warrantyData);
         errorMessage := or_undefined (wd_errorMessage warrantyData) |}.

(** What the [try] block of [scrapeWarrantyInfo] does on the open page. *)
Definition on_page (serialNumber : string) (steps : page_steps) : prog WarrantyInfo :=
  match steps with
  | PageRejected e => Throw e
  | SerialInputMissing => Throw (JsError "Serial number input field not found")
  | SubmitButtonMissing => Throw (JsError "Submit button not found")
  | Extracted warrantyData => scraped_record serialNumber warrantyData
  end.

(** [await page.close()] *)
Definition close_page (serialNumber : string) : prog unit :=
  let* closed <- eff (PageClose serialNumber) in
  match closed with
  | Some e => Throw e
  | None => Ret tt
  end.

Definition scrapeWarrantyInfo (serialNumber : string) : prog WarrantyInfo :=
  let* session <- eff (BrowserRun serialNumber) in
  match session with
  | LaunchRejected e => Throw e
  | BrowserMissing => Throw (JsError "Failed to initialize browser")
  | PageOpened steps => finally (on_page serialNumber steps) (close_page serialNumber)
  end.

(** [error instanceof Error ? error.message : 'Unknown error'] *)
Definition message_of (error : thrown) : string :=
  match error with
  | JsError message => message
  | NonError _ => "Unknown error"
  end.

(** The [try] block of [checkSingleWarranty]. *)
Definition checkSingleWarranty_try (serialNumber : string) : prog WarrantyInfo :=
  let* apiResult <- tryApiMethod serialNumber in
  match apiResult with
  | Some apiResult =>
      exec eff (CacheSet (cacheKey serialNumber) apiResult) in
      Ret apiResult
  | None =>
      let* scrapingResult <- scrapeWarrantyInfo serialNumber in
      exec eff (CacheSet (cacheKey serialNumber) scrapingResult) in
      Ret scrapingResult
  end.

(** Its [catch] block. *)
Definition checkSingleWarranty_catch (serialNumber : string) (error : thrown)
  : prog WarrantyInfo :=
  exec eff (ConsoleError serialNumber) in
  Ret (bare_record serialNumber Error (VStr (message_of error))).

Definition checkSingleWarranty (serialNumber : string) : prog WarrantyInfo :=
  let* cached <- eff (CacheGet (cacheKey serialNumber)) in
  match cached with
  | Some cached => Ret cached
  | None =>
      try_catch (checkSingleWarranty_try serialNumber)
                (checkSingleWarranty_catch serialNumber)
  end.

(** [array.slice(i, j)] for [0 <= i <= j] *)
Definition slice {T : Type} (array : list T) (i j : nat) : list T :=
  take (j - i) (drop i array).

(** The loop of [chunkArray].  [fuel] bounds the iterations; [None] is a loop
    that has not ended within them (with [size = 0] it never ends). *)
Fixpoint chunkArray_loop {T : Type} (fuel : nat) (array : list T) (size i : nat)
  (chunks : list (list T)) : option (list (list T)) :=
  if i <? length array then
    match fuel with
    | O => None
    | S fuel' =>
        chunkArray_loop fuel' array size (i + size) (chunks ++ [slice array i (i + size)])
    end
  else Some chunks.

Definition chunkArray {T : Type} (array : list T) (size : nat) : option (list (list T)) :=
  chunkArray_loop (length array) array size 0 [].

(** [delay(ms)]: a promise that [setTimeout] resolves. *)
Definition delay (ms : Z) : prog unit := eff (SetTimeout ms).

(** The [for ... of] loop of [checkWarrantyBatch].  [scheds] gives, chunk by
    chunk, the order in which the event loop resumes the lookups. *)
Fixpoint checkWarrantyBatch_loop (w : World) (chunks : list (list string))
  (scheds : list (list nat)) (results : list WarrantyInfo) (st : State)
  : outcome (list WarrantyInfo) * State :=
  match chunks with
  | [] => (Returned results, st)
  | chunk :: chunks' =>
      let '(settled, st1) :=
        promise_all w (map checkSingleWarranty chunk) (hd [] scheds) st in
      match fulfilled settled with
      | Threw e => (Threw e, st1)
      | Returned chunkResults =>
          match run w (delay 2000) st1 with
          | (Threw e, st2) => (Threw e, st2)
          | (Returned _, st2) =>
              checkWarrantyBatch_loop w chunks' (tl scheds) (results ++ chunkResults) st2
          end
      end
  end.

(** [None]: [chunkArray] did not return. *)
Definition checkWarrantyBatch (w : World) (serialNumbers : list string)
  (scheds : list (list nat)) (st : State)
  : option (outcome (list WarrantyInfo) * State) :=
  match chunkArray serialNumbers 10 with
  | Some chunks => Some (checkWarrantyBatch_loop w chunks scheds [] st)
  | None => None
  end.

(** ** Vocabulary of the statements *)

(** [v.name] where the read cannot throw: [undefined] for a missing property
    and for every value that is not an object. *)
Definition member (v : jsval) (name : string) : jsval :=
  match v with
  | VObj props => assoc name props
  | _ => VUndefined
  end.

(** The state after an awaited call was made and has settled. *)
Definition after_call (c : call) (st : State) : State :=
  emit (EvSettle c) (emit (EvIssue c) st).

(** The status the two [if] chains give to a number of days. *)
Definition status_of_days (daysRemaining : number) : WarrantyStatus :=
  if num_lt daysRemaining 0 then Expired
  else if num_le daysRemaining 30 then ExpiringSoon
  else Active.

(** The least number of whole days that covers [endDate - today], classified
    by the thresholds of the specification. *)
Definition classified_by (endDate today : Z) (r : WarrantyInfo) : Prop :=
  exists days : Z,
    daysRemaining r = Some (Num days) /\
    ((days - 1) * 86400000 < endDate - today <= days * 86400000)%Z /\
    ((days < 0)%Z -> warrantyStatus r = Expired) /\
    ((0 <= days <= 30)%Z -> warrantyStatus r = ExpiringSoon) /\
    ((30 < days)%Z -> warrantyStatus r = Active).

(** The payload the specification calls well formed: [status] is 'success'
    and [data.warranty] is an object with its four string members. *)
Definition is_string (v : jsval) : bool :=
  match v with VStr _ => true | _ => false end.

Definition complete_warranty (v : jsval) : bool :=
  match v with
  | VObj _ =>
      is_string (member v "startDate") && is_string (member v "endDate") &&
      is_string (member v "type") && is_string (member v "status")
  | _ => false
  end.

Definition well_formed_payload (data : jsval) : bool :=
  strict_eq_str (member data "status") "success" &&
  complete_warranty (member (member data "data") "warranty").

(** The cache invariant of the service: what is stored under the key of a
    serial is a record of that serial. *)
Definition cache_ok (st : State) : Prop :=
  forall (s : string) (r : WarrantyInfo) (expires : Z),
    cache st !! cacheKey s = Some (r, expires) -> serialNumber r = s.

(** The same service at another moment: the cache as it is, the history [h]. *)
Definition at_history (st : State) (h : list event) : State :=
  {| cache := cache st; trace := h |}.

(** Invocations of the two source clients. *)
Definition is_scrape_call (e : event) : bool :=
  match e with EvIssue (CBrowser _) => true | _ => false end.


(** A program is safe for [Q] when, whatever the operations answer within
    [post], it only performs operations allowed by [pre] and ends in an
    outcome of [Q].  The answers are no function of a state here, so the
    judgement holds through every interleaving with other calls. *)
Fixpoint safe (pre : forall X, op X -> Prop) (post : forall X, op X -> X -> Prop)
  {A : Type} (Q : outcome A -> Prop) (p : prog A) : Prop :=
  match p with
  | Ret a => Q (Returned a)
  | Throw e => Q (Threw e)
  | Do o k => pre _ o /\ forall x, post _ o x -> safe pre post Q (k x)
  end.

(** Whether the structured source answers with a payload that passes the
    test of [tryApiMethod]. *)
Definition answers (response : axios_result) : bool :=
  match response with
  | AxiosRejected _ => false
  | AxiosResolved data =>
      strict_eq_str (member data "status") "success" && truthy (member data "data")
  end.

(** The exception [scrapeWarrantyInfo] ends with, from what the browser did
    and how [page.close()] settled; [None] when it returns a record. *)
Definition scrape_exception (session : browser_result) (closed : option thrown)
  : option thrown :=
  match session with
  | LaunchRejected e => Some e
  | BrowserMissing => Some (JsError "Failed to initialize browser")
  | PageOpened steps =>
      match closed with
      | Some e' => Some e'
      | None =>
          match steps with
          | PageRejected e => Some e
          | SerialInputMissing => Some (JsError "Serial number input field not found")
          | SubmitButtonMissing => Some (JsError "Submit button not found")
          | Extracted _ => None
          end
      end
  end.

(** A record the [try] block of a lookup of [s] can return: built by
    [parseApiResponse] from a payload the structured source answered with,
    or built from a page the scrape source read and closed. *)
Definition resolved_normally (w : World) (s : string) (r : WarrantyInfo) : Prop :=
  (exists h data st,
     axios_post w h s = AxiosResolved data /\
     answers (AxiosResolved data) = true /\
     run w (parseApiResponse s data) st = (Returned r, st)) \/
  (exists h h' d st,
     browser_run w h s = PageOpened (Extracted d) /\
     page_close w h' s = None /\
     run w (scraped_record s d) st = (Returned r, st)).

(** The record of the [catch] block, for an exception of the scrape source. *)
Definition resolved_as_error (w : World) (s : string) (r : WarrantyInfo) : Prop :=
  exists h h' e,
    scrape_exception (browser_run w h s) (page_close w h' s) = Some e /\
    r = bare_record s Error (VStr (message_of e)).

(** The serial an event is about; a timer is about none. *)
Definition event_serial (e : event) : option string :=
  match e with
  | EvIssue c | EvSettle c =>
      match c with
      | CAxiosPost s | CBrowser s | CPageClose s => Some s
      | CTimeout _ => None
      end
  | EvConsoleError s => Some s
  end.

(** An event of a lookup of one of the serials of [chunk]. *)
Definition lookup_event_of (chunk : list string) (e : event) : Prop :=
  exists s, s ∈ chunk /\ event_serial e = Some s.

(** The two events of [await this.delay(2000)]. *)
Definition pacing_delay : list event :=
  [EvIssue (CTimeout 2000); EvSettle (CTimeout 2000)].

(** The instance of the safety logic for the lookups of one chunk that start
    at history [h0]: the cache holds records within [J], the history since
    [h0] holds events of lookups of the chunk, and the world answers as some
    history makes it answer. *)
Definition cache_within (J : string -> WarrantyInfo -> Prop) (st : State) : Prop :=
  forall key v expires, cache st !! key = Some (v, expires) -> J key v.

Definition service_inv (J : string -> WarrantyInfo -> Prop) (chunk : list string)
  (h0 : list event) (st : State) : Prop :=
  cache_within J st /\
  exists evs, trace st = h0 ++ evs /\ Forall (lookup_event_of chunk) evs.

Definition service_pre (J : string -> WarrantyInfo -> Prop) (chunk : list string)
  (X : Type) (o : op X) : Prop :=
  match o with
  | CacheSet key v => J key v
  | ConsoleError s | AxiosPost s | BrowserRun s | PageClose s => s ∈ chunk
  | SetTimeout _ => False
  | CacheGet _ | DateNow | DateParse _ => True
  end.

Definition service_post (w : World) (J : string -> WarrantyInfo -> Prop)
  (X : Type) (o : op X) : X -> Prop :=
  match o in op X return X -> Prop with
  | CacheGet key => fun x => forall v, x = Some v -> J key v
  | DateNow => fun x => exists h, x = Date_now w h
  | DateParse v => fun x => x = Date_parse w v
  | AxiosPost s => fun x => exists h, x = axios_post w h s
  | BrowserRun s => fun x => exists h, x = browser_run w h s
  | PageClose s => fun x => exists h, x = page_close w h s
  | CacheSet _ _ | ConsoleError _ | SetTimeout _ => fun _ => True
  end.

(** What a lookup of [s] ends in: a record within [J] for the key of [s], or
    the record of the [catch] block. *)
Definition lookup_post (w : World) (J : string -> WarrantyInfo -> Prop) (s : string)
  (o : outcome WarrantyInfo) : Prop :=
  exists r, o = Returned r /\ (J (cacheKey s) r \/ resolved_as_error w s r).

(** What the entry of a batch result for the serial [s] is. *)
Definition entry_for (w : World) (J : string -> WarrantyInfo -> Prop) (s : string)
  (r : WarrantyInfo) : Prop :=
  J (cacheKey s) r \/ resolved_as_error w s r.

(** The history of a batch: the events of each chunk, each followed by the
    pacing delay. *)
Definition paced (segs : list (list event)) : list event :=
  concat (map (fun seg => seg ++ pacing_delay) segs).

(** How often a call was made, and how often it settled, in a history. *)
Definition issued (c : call) (evs : list event) : nat :=
  count_occ event_eq_dec evs (EvIssue c).

Definition settled (c : call) (evs : list event) : nat :=
  count_occ event_eq_dec evs (EvSettle c).

(** Whether a suspended task waits for the call [c] (1) or not (0), and how
    many tasks of a pool do. *)
Definition awaits (c : call) {A : Type} (p : prog A) : nat :=
  match p with
  | Do o _ => if decide (call_of o = Some c) then 1 else 0
  | _ => 0
  end.

Definition pending (c : call) {A : Type} (pool : list (prog A)) : nat :=
  sum_list (map (awaits c) pool).

(** The events of the lookups of one chunk: each is an event of a lookup of
    a serial of the chunk, and every call that was made has settled. *)
Definition chunk_segment (chunk : list string) (seg : list event) : Prop :=
  Forall (lookup_event_of chunk) seg /\ forall c, issued c seg = settled c seg.

(** The cache holds, under the key of a serial, records that the [try] block
    of a lookup of that serial can return: so it is from the empty cache on,
    since only the [try] block writes the cache. *)
Definition cache_resolved (w : World) (st : State) : Prop :=
  forall s r expires,
    cache st !! cacheKey s = Some (r, expires) -> resolved_normally w s r.

(** ** Sample worlds *)

Definition initial_state : State := {| cache := ∅; trace := [] |}.

(** A clock that starts at 2023-11-14T22:13:20Z and advances by one second
    with every event. *)
Definition sample_clock (h : list event) : Z :=
  (1700000000000 + 1000 * Z.of_nat (length h))%Z.

(** A [Date] that knows three ISO dates and takes a number as a time value. *)
Definition sample_date (v : jsval) : option Z :=
  match v with
  | VNum n => Some n
  | VStr s =>
      if String.eqb s "2030-01-01" then Some 1893456000000%Z
      else if String.eqb s "2023-11-20" then Some 1700438400000%Z
      else if String.eqb s "2020-01-01" then Some 1577836800000%Z
      else None
  | _ => None
  end.

Definition sample_world (api : string -> axios_result) (page : string -> browser_result)
  : World :=
  {| Date_now := sample_clock;
     Date_parse := sample_date;
     axios_post := fun _ => api;
     browser_run := fun _ => page;
     page_close := fun _ _ => None |}.

(** The endpoint does not exist: every request is rejected. *)
Definition api_down (serial : string) : axios_result :=
  AxiosRejected (JsError "getaddrinfo ENOTFOUND api.lenovo.com").

(** The endpoint answers with a product but no warranty. *)
Definition payload_without_warranty : jsval :=
  VObj [("status", VStr "success"); ("data", VObj [("product", VStr "ThinkPad X1")])].

Definition payload_complete : jsval :=
  VObj [("status", VStr "success");
        ("data", VObj [("product", VStr "ThinkPad X1");
                       ("warranty", VObj [("startDate", VStr "2027-01-01");
                                          ("endDate", VStr "2030-01-01");
                                          ("type", VStr "Depot");
                                          ("status", VStr "In warranty")])])].

(** The endpoint answers with a warranty whose end date is the empty string. *)
Definition payload_without_end_date : jsval :=
  VObj [("status", VStr "success");
        ("data", VObj [("product", VStr "ThinkPad X1");
                       ("warranty", VObj [("startDate", VStr "2027-01-01");
                                          ("endDate", VStr "");
                                          ("type", VStr "Depot");
                                          ("status", VStr "In warranty")])])].

(** The page shows a warranty that ends on 2023-11-20, except for the serial
    [PF0BROKEN], on which the navigation times out. *)
Definition sample_page (serial : string) : browser_result :=
  if String.eqb serial "PF0BROKEN"
  then PageOpened (PageRejected (JsError "Navigation timeout of 30000 ms exceeded"))
  else PageOpened (Extracted
         {| wd_productName := "ThinkPad T14";
            wd_productType := "Laptop";
            wd_warrantyStartDate := "2020-11-20";
            wd_warrantyEndDate := "2023-11-20";
            wd_warrantyType := "Depot";
            wd_warrantyStatus := "";
            wd_errorMessage := "" |}).

Definition scraping_world : World := sample_world api_down sample_page.

(** The service after a first lookup of [PF0BROKEN] from the empty cache. *)
Definition after_failed_lookup : State :=
  snd (run scraping_world (checkSingleWarranty "PF0BROKEN") initial_state).



(** A batch of twelve serials, the third of which breaks the scrape, and an
    order in which the lookups of its two chunks are resumed. *)
Definition sample_batch : list string :=
  ["PF2ABCDE"; "PF2ABCDF"; "PF0BROKEN"; "PF2ABCDG"; "PF2ABCDH"; "PF2ABCDJ";
   "PF2ABCDK"; "PF2ABCDL"; "PF2ABCDM"; "PF2ABCDN"; "PF2ABCDP"; "PF2ABCDE"].

Definition sample_schedule : list (list nat) :=
  [[9; 2; 0; 2; 5; 5; 1]; [1; 0]].

(** * The routes and the parsers: routes/upload.ts, routes/warranty.ts *)

(** ** Text *)

(** A JavaScript string is modelled by a Rocq string, character for code
    unit, so the text covered has code units below 256.  [toUpperCase] and
    [toLowerCase] are modelled on ASCII text only (elsewhere they can change
    the number of code units); the statements that go through them assume
    [ascii_text]. *)
Definition chars (s : string) : list Ascii.ascii := String.list_ascii_of_string s.
Definition text (l : list Ascii.ascii) : string := String.string_of_list_ascii l.

Definition ascii_text (s : string) : Prop :=
  Forall (fun c => Ascii.nat_of_ascii c < 128) (chars s).

Definition in_range (lo hi : nat) (c : Ascii.ascii) : bool :=
  (lo <=? Ascii.nat_of_ascii c) && (Ascii.nat_of_ascii c <=? hi).

Definition is_digit (c : Ascii.ascii) : bool := in_range 48 57 c.
Definition is_upper (c : Ascii.ascii) : bool := in_range 65 90 c.
Definition is_lower (c : Ascii.ascii) : bool := in_range 97 122 c.

(** The white space and the line terminators that [trim] removes: TAB, LF,
    VT, FF, CR, SP and NBSP. *)
Definition is_space (c : Ascii.ascii) : bool :=
  in_range 9 13 c || in_range 32 32 c || in_range 160 160 c.

Fixpoint trim_start (l : list Ascii.ascii) : list Ascii.ascii :=
  match l with
  | [] => []
  | c :: l' => if is_space c then trim_start l' else l
  end.

Definition trim_chars (l : list Ascii.ascii) : list Ascii.ascii :=
  rev (trim_start (rev (trim_start l))).

(** [s.trim()] *)
Definition trim (s : string) : string := text (trim_chars (chars s)).

Definition upper_char (c : Ascii.ascii) : Ascii.ascii :=
  if is_lower c then Ascii.ascii_of_nat (Ascii.nat_of_ascii c - 32) else c.

Definition lower_char (c : Ascii.ascii) : Ascii.ascii :=
  if is_upper c then Ascii.ascii_of_nat (Ascii.nat_of_ascii c + 32) else c.

(** [s.toUpperCase()] and [s.toLowerCase()], on ASCII text *)
Definition toUpperCase (s : string) : string := text (map upper_char (chars s)).
Definition toLowerCase (s : string) : string := text (map lower_char (chars s)).

(** [/^[A-Z0-9]{6,15}$/i.test(s)]: without the [u] flag, ignoring case adds
    only the ASCII lower-case letters to the class, and without the [m] flag
    [$] is the end of the input. *)
Definition test_serial (s : string) : bool :=
  (6 <=? length (chars s)) && (length (chars s) <=? 15) &&
  forallb (fun c => is_digit c || is_upper c || is_lower c) (chars s).

(** [if (s)] on a string *)
Definition nonempty (s : string) : bool := negb (String.eqb s "").

(** [s.split(/[...]+/)] for a class of separators: the pieces between the
    maximal runs of separators, an empty piece before a leading run and after
    a trailing one, and the whole string when there is none. *)
Fixpoint split_go (sep : Ascii.ascii -> bool) (l cur : list Ascii.ascii) (after_sep : bool)
  : list (list Ascii.ascii) :=
  match l with
  | [] => [cur]
  | c :: l' =>
      if sep c then
        if after_sep then split_go sep l' [] true
        else cur :: split_go sep l' [] true
      else split_go sep l' (cur ++ [c]) false
  end.

Definition split (sep : Ascii.ascii -> bool) (s : string) : list string :=
  map text (split_go sep (chars s) [] false).

(** [s.endsWith(suffix)] *)
Definition endsWith (s suffix : string) : bool :=
  bool_decide (drop (length (chars s) - length (chars suffix)) (chars s) = chars suffix).

(** [[...new Set(xs)]]: the first occurrence of every string, in order. *)
Fixpoint unique_from (seen xs : list string) : list string :=
  match xs with
  | [] => []
  | x :: xs' =>
      if bool_decide (x ∈ seen) then unique_from seen xs'
      else x :: unique_from (x :: seen) xs'
  end.

Definition unique (xs : list string) : list string := unique_from [] xs.

(** ** Responses *)

(** The JSON bodies the routes send.  Console output is not part of the
    model of the routes. *)
Inductive http_body : Type :=
| Failure (error message : string) (errors : list string)
| WarrantyResponse (results : list WarrantyInfo) (totalProcessed errors : nat)
    (batchId : jsval) (processingTime : Z)
| SingleResult (result : WarrantyInfo)
| FileUploadResponse (serialNumbers : list string) (totalFound : nat)
    (errors : list string).

Record http_response : Type := mkResponse {
  http_status : nat;
  http_body_of : http_body
}.

(** [error instanceof Error ? error.message : 'Unknown error occurred'] *)
Definition route_message (error : thrown) : string :=
  match error with
  | JsError message => message
  | NonError _ => "Unknown error occurred"
  end.

(** ** routes/warranty.ts *)

(** The callback of [serialNumbers.filter] in [POST /check]. *)
Definition keeps (serial : jsval) : bool :=
  match serial with
  | VStr s => (0 <? length (chars (trim s))) && test_serial (trim s)
  | _ => false
  end.

(** A string element of the request as the string it is. *)
Definition string_of (v : jsval) : string :=
  match v with VStr s => s | _ => "" end.

(** [r.warrantyStatus === 'Error'] *)
Definition is_error (r : WarrantyInfo) : bool :=
  match warrantyStatus r with Error => true | _ => false end.

(** [POST /check].  [body] is [req.body], [uuid] what [uuidv4()] would
    return; [None]: [chunkArray] did not return. *)
Definition check_route (w : World) (uuid : string) (body : jsval)
  (scheds : list (list nat)) (st : State) : option (http_response * State) :=
  match body with
  | VUndefined | VNull =>
      (* the destructuring of [req.body] throws *)
      Some (mkResponse 500
              (Failure "Internal server error"
                 (route_message (JsError "Cannot destructure property of req.body")) []),
            st)
  | _ =>
      let serialNumbers := member body "serialNumbers" in
      let batchId := member body "batchId" in
      let startTime := Date_now w (trace st) in
      match serialNumbers with
      | VArr items =>
          if length items =? 0 then
            Some (mkResponse 400
                    (Failure "Invalid request"
                       "Serial numbers array is required and must not be empty" []), st)
          else if 50 <? length items then
            Some (mkResponse 400
                    (Failure "Too many serial numbers"
                       "Maximum 50 serial numbers allowed per request" []), st)
          else
            let validSerialNumbers := List.filter keeps items in
            if length validSerialNumbers =? 0 then
              Some (mkResponse 400
                      (Failure "No valid serial numbers"
                         "Serial numbers must be 6-15 alphanumeric characters" []), st)
            else
              match checkWarrantyBatch w (map string_of validSerialNumbers) scheds st with
              | None => None
              | Some (Threw e, st') =>
                  Some (mkResponse 500
                          (Failure "Internal server error" (route_message e) []), st')
              | Some (Returned results, st') =>
                  let processingTime := (Date_now w (trace st') - startTime)%Z in
                  let errors := length (List.filter is_error results) in
                  Some (mkResponse 200
                          (WarrantyResponse results (length validSerialNumbers) errors
                             (if truthy batchId then batchId else VStr uuid)
                             processingTime),
                        st')
              end
      | _ =>
          Some (mkResponse 400
                  (Failure "Invalid request"
                     "Serial numbers array is required and must not be empty" []), st)
      end
  end.

(** [GET /check/:serialNumber] *)
Definition check_single_route (w : World) (serialNumber : string) (st : State)
  : http_response * State :=
  if negb (nonempty serialNumber) || negb (test_serial serialNumber) then
    (mkResponse 400
       (Failure "Invalid serial number"
          "Serial number must be 6-15 alphanumeric characters" []), st)
  else
    match run w (checkSingleWarranty serialNumber) st with
    | (Returned result, st') => (mkResponse 200 (SingleResult result), st')
    | (Threw e, st') =>
        (mkResponse 500 (Failure "Internal server error" (route_message e) []), st')
    end.

(** ** routes/upload.ts *)

Definition is_line_break (c : Ascii.ascii) : bool := in_range 10 10 c || in_range 13 13 c.

(** [,], [;] and TAB *)
Definition is_value_separator (c : Ascii.ascii) : bool :=
  in_range 44 44 c || in_range 59 59 c || in_range 9 9 c.

(** The trimmed, non-empty values of a list of strings, in order. *)
Definition trimmed_values (values : list string) : list string :=
  List.filter nonempty (map trim values).

(** [parseTXTFile]: it returns the serial numbers and leaves [errors] alone. *)
Definition parseTXTFile (content : string) (errors : list string)
  : list string * list string :=
  (flat_map (fun line => trimmed_values (split is_value_separator line))
     (split is_line_break content),
   errors).

(** What the csv-parser stream delivers for a content: the rows of its
    ['data'] events (the values of each row object), and then ['end'], or
    ['error'] with a message. *)
Record csv_stream : Type := mkCsvStream {
  csv_rows : list (list jsval);
  csv_error : option string
}.

(** The values a ['data'] handler of [parseCSVFile] pushes for a row. *)
Definition row_values (row : list jsval) : list string :=
  flat_map (fun value =>
              match value with
              | VStr v => if truthy value && nonempty (trim v) then [trim v] else []
              | _ => []
              end) row.

(** [parseCSVFile]: the promise it returns, and [errors] afterwards. *)
Definition parseCSVFile (stream : csv_stream) (errors : list string)
  : outcome (list string) * list string :=
  match csv_error stream with
  | None => (Returned (flat_map row_values (csv_rows stream)), errors)
  | Some message =>
      (Threw (JsError message), errors ++ ["CSV parsing error: " +:+ message])
  end.

(** [req.file]: its name and its buffer read as UTF-8. *)
Record upload_file : Type := mkUpload {
  originalname : string;
  fileContent : string
}.

(** [serial.trim().toUpperCase()] *)
Definition normalize (serial : string) : string := toUpperCase (trim serial).

(** The handler of [POST /parse], on the [req.file] that [upload.single]
    left ([None]: no file).  [csv] is the csv-parser library.  The route with
    its middleware is [upload_route]. *)
Definition parse_route (csv : string -> csv_stream) (file : option upload_file)
  : http_response :=
  match file with
  | None =>
      mkResponse 400
        (Failure "No file uploaded"
           "Please upload a CSV or TXT file containing serial numbers" [])
  | Some file =>
      let '(parsed, errors) :=
        if endsWith (toLowerCase (originalname file)) ".csv"
        then parseCSVFile (csv (fileContent file)) []
        else (Returned (parseTXTFile (fileContent file) []).1,
              (parseTXTFile (fileContent file) []).2) in
      match parsed with
      | Threw e => mkResponse 500 (Failure "File parsing error" (route_message e) [])
      | Returned serialNumbers =>
          let cleaned := map normalize serialNumbers in
          let validSerialNumbers :=
            List.filter (fun serial => nonempty serial && test_serial serial) cleaned in
          let errors :=
            errors ++
            map (fun serial => "Invalid serial number format: " +:+ serial)
              (List.filter (fun serial => nonempty serial && negb (test_serial serial))
                 cleaned) in
          let uniqueSerialNumbers := unique validSerialNumbers in
          if length uniqueSerialNumbers =? 0 then
            mkResponse 400
              (Failure "No valid serial numbers found"
                 "The file must contain valid serial numbers (6-15 alphanumeric characters)"
                 errors)
          else
            mkResponse 200
              (FileUploadResponse uniqueSerialNumbers (length uniqueSerialNumbers)
                 (take 10 errors))
      end
  end.

(** ** The middleware of [POST /parse]: [upload.single('file')] *)

(** The file part of a multipart request as multer sees it: the MIME type
    the part declares, the number of bytes of its content, and the file the
    handler finds in [req.file] once multer has stored it. *)
Record file_part : Type := mkPart {
  mimetype : string;
  byteLength : Z;
  part_file : upload_file
}.

(** [fileFilter]: [None] for [cb(null, true)], [Some e] for [cb(e)]. *)
Definition fileFilter (mimetype originalname : string) : option thrown :=
  let allowedTypes := ["text/csv"; "text/plain"; "application/csv"] in
  let allowedExtensions := [".csv"; ".txt"] in
  let hasValidType := existsb (String.eqb mimetype) allowedTypes in
  let hasValidExtension :=
    existsb (fun ext => endsWith (toLowerCase originalname) ext) allowedExtensions in
  if hasValidType || hasValidExtension then None
  else Some (JsError "Only CSV and TXT files are allowed").

(** [limits.fileSize] *)
Definition limits_fileSize : Z := 5 * 1024 * 1024.

(** What the middleware passes to [next] instead of the file. *)
Inductive upload_error : Type :=
| FilterError (e : thrown)       (* the error [fileFilter] gave to [cb] *)
| LimitFileSize.                 (* multer's error with code [LIMIT_FILE_SIZE] *)

Inductive multer_outcome : Type :=
| NextError (e : upload_error)         (* [next(err)] *)
| Next (file : option upload_file).    (* [next()], with [req.file] *)

(** [upload.single('file')] on a request with at most one file part, that
    of the field [file].  multer skips a part without a file name; it asks
    [fileFilter] before it reads the content, and gives up with
    [LIMIT_FILE_SIZE] when the content is larger than [limits.fileSize].  A
    content of exactly that size is stored by some versions of multer's
    parser and refused by others: both are outcomes here. *)
Inductive upload_single : option file_part -> multer_outcome -> Prop :=
| single_no_file :
    upload_single None (Next None)
| single_unnamed (p : file_part) :
    originalname (part_file p) = "" ->
    upload_single (Some p) (Next None)
| single_refused (p : file_part) (e : thrown) :
    originalname (part_file p) <> "" ->
    fileFilter (mimetype p) (originalname (part_file p)) = Some e ->
    upload_single (Some p) (NextError (FilterError e))
| single_too_large (p : file_part) :
    originalname (part_file p) <> "" ->
    fileFilter (mimetype p) (originalname (part_file p)) = None ->
    (limits_fileSize <= byteLength p)%Z ->
    upload_single (Some p) (NextError LimitFileSize)
| single_stored (p : file_part) :
    originalname (part_file p) <> "" ->
    fileFilter (mimetype p) (originalname (part_file p)) = None ->
    (byteLength p <= limits_fileSize)%Z ->
    upload_single (Some p) (Next (Some (part_file p))).

(** [router.post('/parse', upload.single('file'), handler)]: an error of the
    middleware goes to the error handling of the application and the
    handler does not run; otherwise the handler answers. *)
Inductive route_outcome : Type :=
| PassedOn (e : upload_error)
| Responded (response : http_response).

Inductive upload_route (csv : string -> csv_stream)
  : option file_part -> route_outcome -> Prop :=
| route_passes_on (part : option file_part) (e : upload_error) :
    upload_single part (NextError e) ->
    upload_route csv part (PassedOn e)
| route_responds (part : option file_part) (file : option upload_file) :
    upload_single part (Next file) ->
    upload_route csv part (Responded (parse_route csv file)).

(** ** Vocabulary of the statements about the routes *)

(** A token as [parseTXTFile] returns it: not empty, without white space at
    either end, without line breaks and value separators. *)
Definition clean_token (t : string) : Prop :=
  t <> "" /\ trim t = t /\
  Forall (fun c => is_line_break c = false /\ is_value_separator c = false) (chars t).

(** The line feed. *)
Definition LF : string := String (Ascii.ascii_of_nat 10) "".

(** Whether [POST /parse] reads the file as CSV. *)
Definition csv_named (file : upload_file) : bool :=
  endsWith (toLowerCase (originalname file)) ".csv".

(** The values the parser of the file's kind delivers when it does not fail. *)
Definition file_tokens (csv : string -> csv_stream) (file : upload_file) : list string :=
  if csv_named file
  then flat_map row_values (csv_rows (csv (fileContent file)))
  else (parseTXTFile (fileContent file) []).1.

(** The file is ASCII text: its name, its content, and the values the CSV
    parser reads from it. *)
Definition ascii_file (csv : string -> csv_stream) (file : upload_file) : Prop :=
  ascii_text (originalname file) /\
  ascii_text (fileContent file) /\
  Forall (Forall (fun v => ascii_text (string_of v))) (csv_rows (csv (fileContent file))).

(** The serial numbers [POST /parse] finds in a list of values, before it
    removes duplicates, and the error messages it collects. *)
Definition valid_serials (tokens : list string) : list string :=
  List.filter (fun serial => nonempty serial && test_serial serial) (map normalize tokens).

Definition format_errors (tokens : list string) : list string :=
  map (fun serial => "Invalid serial number format: " +:+ serial)
    (List.filter (fun serial => nonempty serial && negb (test_serial serial))
       (map normalize tokens)).

(** * The page: WarrantyLookupApp *)

(** [\n], [,] and [;] *)
Definition is_entry_separator (c : Ascii.ascii) : bool :=
  in_range 10 10 c || in_range 44 44 c || in_range 59 59 c.

(** [arr.indexOf(x)]; [None] for [-1]. *)
Fixpoint indexOf (arr : list string) (x : string) : option nat :=
  match arr with
  | [] => None
  | y :: arr' => if String.eqb y x then Some 0 else option_map S (indexOf arr' x)
  end.

(** [arr.filter((x, index) => f(x, index))] on the part of the array that
    starts at [index]. *)
Fixpoint filter_indexed {A : Type} (f : A -> nat -> bool) (index : nat) (l : list A)
  : list A :=
  match l with
  | [] => []
  | x :: l' =>
      if f x index then x :: filter_indexed f (S index) l'
      else filter_indexed f (S index) l'
  end.

Definition parseSerialNumbers (text : string) : list string :=
  let arr :=
    List.filter (fun serial => nonempty serial && test_serial serial)
      (map (fun serial => toUpperCase (trim serial)) (split is_entry_separator text)) in
  filter_indexed (fun serial index => bool_decide (indexOf arr serial = Some index)) 0 arr.

(** [checkManualWarranty] on the value of the text area: the list it passes
    to [performWarrantyCheck], [None] when it shows a toast and returns. *)
Definition checkManualWarranty (value : string) : option (list string) :=
  let text := trim value in
  if negb (nonempty text) then None
  else
    let serialNumbers := parseSerialNumbers text in
    if length serialNumbers =? 0 then None
    else if 50 <? length serialNumbers then None
    else Some serialNumbers.

(** The body [performWarrantyCheck] posts, [JSON.stringify({ serialNumbers })],
    as the server reads it. *)
Definition check_request (serialNumbers : list string) : jsval :=
  VObj [("serialNumbers", VArr (map VStr serialNumbers))].

(** What [processFile] writes into the text area after a successful upload:
    [result.serialNumbers.join('\n')]. *)
Definition uploaded_text (serialNumbers : list string) : string :=
  String.concat LF serialNumbers.

(** The numbers [updateSummaryCards] writes into the four cards and the
    count line. *)
Record summary_cards : Type := mkCards {
  activeCount : nat;
  expiringCount : nat;
  expiredCount : nat;
  errorCount : nat;
  resultsCount : nat
}.

Definition updateSummaryCards (currentResults : list WarrantyInfo) : summary_cards :=
  let active :=
    length (List.filter (fun r => match warrantyStatus r with Active => true | _ => false end)
              currentResults) in
  let expiring :=
    length (List.filter (fun r => match warrantyStatus r with ExpiringSoon => true | _ => false end)
              currentResults) in
  let expired :=
    length (List.filter (fun r => match warrantyStatus r with Expired => true | _ => false end)
              currentResults) in
  let errors :=
    length (List.filter (fun r => match warrantyStatus r with
                                  | Error | NotFound => true
                                  | _ => false
                                  end)
              currentResults) in
  mkCards active expiring expired errors (length currentResults).

(** Text as a text area holds it and a keyboard enters it: no carriage
    return and no tabulator. *)
Definition typed_text (s : string) : Prop :=
  Forall (fun c => in_range 13 13 c = false /\ in_range 9 9 c = false) (chars s).

(** ** Samples for the routes *)

(** A browser whose pages cannot be closed. *)
Definition stuck_page_world : World :=
  {| Date_now := sample_clock;
     Date_parse := sample_date;
     axios_post := fun _ => api_down;
     browser_run := fun _ => sample_page;
     page_close := fun _ _ => Some (JsError "Protocol error: Target closed") |}.

(** Text of four lines with five values, one of them twice, and a text file
    that holds it. *)
Definition sample_text : string :=
  " pf2abcde, PF2ABCDF;bad!" +:+ LF +:+ LF +:+ "PF2ABCDE ,," +:+ LF +:+ "PF0BROKEN".

Definition sample_upload : upload_file := mkUpload "serials.TXT" sample_text.

(** A CSV file of two rows, and a parser that reads it. *)
Definition sample_sheet : upload_file :=
  mkUpload "Inventory.CSV" ("pf2abcde,T14 " +:+ LF +:+ " PF0BROKEN,").

Definition sample_csv (content : string) : csv_stream :=
  mkCsvStream [[VStr "pf2abcde"; VStr "T14 "]; [VStr " PF0BROKEN"; VStr ""]] None.

(** The sample text uploaded as a file of unknown type under a [.txt] name,
    and the same text sent as a PDF. *)
Definition sample_part : file_part :=
  mkPart "application/octet-stream" 47 (mkUpload "typed.txt" sample_text).

Definition refused_part : file_part :=
  mkPart "application/pdf" 47 (mkUpload "notes.pdf" sample_text).

(** A parser that gives up on every content. *)
Definition failing_csv (content : string) : csv_stream :=
  mkCsvStream [] (Some "Invalid Record Length").

(** A request of five entries, three of which the filter keeps. *)
Definition sample_request : jsval :=
  VObj [("serialNumbers",
         VArr [VStr "PF2ABCDE"; VStr " pf2abcdf "; VNum 7; VStr "bad!"; VStr "PF0BROKEN"]);
        ("batchId", VStr "inventory-2023-11")].

(** * Verification *)

(** ** chunkArray *)

Section ChunkArray.
Context {T : Type}.
Implicit Types (array : list T) (chunks : list (list T)).

Lemma slice_length array i size :
  length (slice array i (i + size)) = Nat.min size (length array - i).
Proof.
  unfold slice. replace (i + size - i) with size by lia.
  by rewrite length_take, length_drop.
Qed.

Lemma slice_drop array i size :
  slice array i (i + size) ++ drop (i + size) array = drop i array.
Proof.
  unfold slice. replace (i + size - i) with size by lia.
  rewrite <- drop_drop. apply take_drop.
Qed.

(** The loop invariant: with fuel for the elements that are left, the loop
    ends and appends the slices of the rest of the array. *)
Lemma chunkArray_loop_spec fuel array size i chunks :
  0 < size ->
  length array <= i + fuel * size ->
  exists rest,
    chunkArray_loop fuel array size i chunks = Some (chunks ++ rest) /\
    concat rest = drop i array /\
    (length array <= i -> rest = []) /\
    Forall (fun c => 0 < length c <= size) rest /\
    (forall j c, rest !! j = Some c -> S j < length rest -> length c = size).
Proof.
  intros Hsize. revert i chunks.
  induction fuel as [|fuel IH]; intros i chunks Hfuel; simpl.
  - destruct (Nat.ltb_spec i (length array)); [lia|].
    exists []. rewrite app_nil_r, drop_ge by lia.
    split_and!; [done | done | done | constructor |].
    intros ? ? Hj. by rewrite lookup_nil in Hj.
  - destruct (Nat.ltb_spec i (length array)) as [Hlt|Hge].
    + destruct (IH (i + size) (chunks ++ [slice array i (i + size)]))
        as (rest & Hloop & Hcat & Hnil & Hall & Hfull); [lia|].
      exists (slice array i (i + size) :: rest).
      rewrite Hloop, <- app_assoc. simpl.
      split_and!.
      * done.
      * by rewrite Hcat, slice_drop.
      * lia.
      * constructor; [rewrite slice_length; lia | done].
      * intros [|j] c Hc Hj; simpl in *.
        -- injection Hc as <-. rewrite slice_length.
           destruct (decide (length array <= i + size)) as [Hle|Hgt]; [|lia].
           rewrite (Hnil Hle) in Hj. simpl in Hj. lia.
        -- apply (Hfull j c Hc). lia.
    + exists []. rewrite app_nil_r, drop_ge by lia.
      split_and!; [done | done | done | constructor |].
      intros ? ? Hj. by rewrite lookup_nil in Hj.
Qed.

Lemma chunkArray_spec array size :
  0 < size ->
  exists chunks,
    chunkArray array size = Some chunks /\
    concat chunks = array /\
    Forall (fun c => 0 < length c <= size) chunks /\
    (forall j c, chunks !! j = Some c -> S j < length chunks -> length c = size).
Proof.
  intros Hsize. unfold chunkArray.
  destruct (chunkArray_loop_spec (length array) array size 0 [] Hsize)
    as (rest & Hloop & Hcat & _ & Hall & Hfull); [nia|].
  exists rest. by rewrite Hloop.
Qed.
End ChunkArray.

(** C7. [chunkArray(serialNumbers, 10)] returns, and what it returns are the
    chunks of the input in order: their concatenation is the input, every
    chunk but the last holds exactly 10 elements (the last between 1 and 10),
    and 25 elements give three chunks of 10, 10 and 5. *)
Theorem chunkArray_10 {T : Type} (array : list T) :
  exists chunks,
    chunkArray array 10 = Some chunks /\
    concat chunks = array /\
    (forall j c, chunks !! j = Some c -> S j < length chunks -> length c = 10) /\
    Forall (fun c => 1 <= length c <= 10) chunks /\
    (length array = 25 -> map length chunks = [10; 10; 5]).
Proof.
  destruct (chunkArray_spec array 10) as (chunks & Hrun & Hcat & Hall & Hfull); [lia|].
  exists chunks. split_and!; [done | done | done | exact Hall |].
  intros Hlen.
  do 25 (destruct array as [|? array]; [discriminate Hlen|]).
  destruct array; [|discriminate Hlen].
  vm_compute in Hrun. by injection Hrun as <-.
Qed.

(** ** One call at a time: laws of [run] *)

Section RunLaws.
Context (w : World).

Lemma run_bind {A B : Type} (p : prog A) (f : A -> prog B) st :
  run w (bind p f) st =
  match run w p st with
  | (Returned a, st') => run w (f a) st'
  | (Threw e, st') => (Threw e, st')
  end.
Proof.
  revert st. induction p as [a|e|X o k IH]; intros st; simpl; try done.
  destruct (perform w o (issue o st)) as [x st']. apply IH.
Qed.

Lemma run_try_catch {A : Type} (p : prog A) (handler : thrown -> prog A) st :
  run w (try_catch p handler) st =
  match run w p st with
  | (Returned a, st') => (Returned a, st')
  | (Threw e, st') => run w (handler e) st'
  end.
Proof.
  revert st. induction p as [a|e|X o k IH]; intros st; simpl; try done.
  destruct (perform w o (issue o st)) as [x st']. apply IH.
Qed.

Lemma run_finally {A : Type} (p : prog A) (f : prog unit) st :
  run w (finally p f) st =
  match run w p st with
  | (Returned a, st') =>
      match run w f st' with
      | (Returned _, st'') => (Returned a, st'')
      | (Threw e, st'') => (Threw e, st'')
      end
  | (Threw e, st') =>
      match run w f st' with
      | (Returned _, st'') => (Threw e, st'')
      | (Threw e', st'') => (Threw e', st'')
      end
  end.
Proof.
  revert st. induction p as [a|e|X o k IH]; intros st; simpl.
  - rewrite run_bind. by destruct (run w f st) as [[?|?] ?].
  - rewrite run_bind. by destruct (run w f st) as [[?|?] ?].
  - destruct (perform w o (issue o st)) as [x st']. apply IH.
Qed.
End RunLaws.

(** ** The status classification *)

Lemma ceil_days_spec (ms : Z) :
  ((ceil_days ms - 1) * 86400000 < ms <= ceil_days ms * 86400000)%Z.
Proof.
  unfold ceil_days. replace (1000 * 60 * 60 * 24)%Z with 86400000%Z by reflexivity.
  pose proof (Z.div_mod (- ms) 86400000 ltac:(lia)).
  pose proof (Z.mod_pos_bound (- ms) 86400000 ltac:(lia)).
  lia.
Qed.

Lemma status_of_days_cases (days : Z) :
  ((days < 0)%Z -> status_of_days (Num days) = Expired) /\
  ((0 <= days <= 30)%Z -> status_of_days (Num days) = ExpiringSoon) /\
  ((30 < days)%Z -> status_of_days (Num days) = Active).
Proof.
  unfold status_of_days, num_lt, num_le.
  destruct (Z.ltb_spec days 0), (Z.leb_spec days 30); split_and!; intros; (done || lia).
Qed.

Lemma classified_record (endDate today : Z) (r : WarrantyInfo) :
  daysRemaining r = Some (days_between (Some endDate) today) ->
  warrantyStatus r = status_of_days (days_between (Some endDate) today) ->
  classified_by endDate today r.
Proof.
  intros Hdays Hstatus. exists (ceil_days (endDate - today)).
  rewrite Hstatus. split; [exact Hdays|]. split; [apply ceil_days_spec|].
  apply status_of_days_cases.
Qed.

(** ** The structured source *)

Section Structured.
Context (w : World).

Lemma get_defined v name :
  v <> VUndefined -> v <> VNull -> get v name = Ret (member v name).
Proof. by destruct v. Qed.

Lemma get_truthy v name : truthy v = true -> get v name = Ret (member v name).
Proof. by destruct v. Qed.

Lemma truthy_defined v : truthy v = true -> v <> VUndefined /\ v <> VNull.
Proof. by destruct v. Qed.

(** [parseApiResponse] on a payload that is not [undefined] or [null]: it
    never throws, touches nothing, and answers for the serial it was given. *)
Lemma parseApiResponse_run s data st :
  data <> VUndefined -> data <> VNull ->
  exists r,
    run w (parseApiResponse s data) st = (Returned r, st) /\
    serialNumber r = s /\
    let d := member data "data" in
    let warranty := member d "warranty" in
    if truthy d && truthy warranty then
      let days := days_between (Date_parse w (member warranty "endDate"))
                               (Date_now w (trace st)) in
      r = {| serialNumber := s;
             productName := member d "product";
             productType := VUndefined;
             warrantyStartDate := member warranty "startDate";
             warrantyEndDate := member warranty "endDate";
             daysRemaining := Some days;
             warrantyStatus := status_of_days days;
             warrantyType := member warranty "type";
             errorMessage := VUndefined |}
    else r = bare_record s NotFound VUndefined.
Proof.
  intros Hu Hn. unfold parseApiResponse.
  rewrite (get_defined data "data" Hu Hn). cbn [bind].
  destruct (truthy (member data "data")) eqn:Hd; cbn [negb andb bind].
  - rewrite (get_truthy _ "warranty" Hd). cbn [bind].
    destruct (truthy (member (member data "data") "warranty")) eqn:Hw; cbn [negb bind].
    + rewrite !(get_truthy _ _ Hw). cbn [bind].
      rewrite (get_truthy _ "product" Hd). cbn [bind eff run issue call_of perform].
      eexists. split; [reflexivity|]. split; [reflexivity|]. reflexivity.
    + cbn [run]. eexists. split; [reflexivity|]. by split.
  - cbn [run]. eexists. split; [reflexivity|]. by split.
Qed.

Lemma run_axios_post s st :
  run w (eff (AxiosPost s)) st =
  (Returned (axios_post w (trace st ++ [EvIssue (CAxiosPost s)]) s),
   after_call (CAxiosPost s) st).
Proof. reflexivity. Qed.

(** [tryApiMethod] never throws: it answers [null] or a record, after one
    request.  The case analysis is the one of the code: a rejected request,
    a payload whose [status] or [data] member fails the test (reading
    [status] of [null] throws, which the [catch] turns into [null] too), a
    payload without a [warranty] member, and a payload with one. *)
Lemma tryApiMethod_run s st :
  exists res,
    run w (tryApiMethod s) st = (Returned res, after_call (CAxiosPost s) st) /\
    match axios_post w (trace st ++ [EvIssue (CAxiosPost s)]) s with
    | AxiosRejected _ => res = None
    | AxiosResolved data =>
        let d := member data "data" in
        let warranty := member d "warranty" in
        if strict_eq_str (member data "status") "success" && truthy d then
          exists r,
            res = Some r /\ serialNumber r = s /\
            if truthy warranty then
              let days := days_between (Date_parse w (member warranty "endDate"))
                            (Date_now w (trace (after_call (CAxiosPost s) st))) in
              r = {| serialNumber := s;
                     productName := member d "product";
                     productType := VUndefined;
                     warrantyStartDate := member warranty "startDate";
                     warrantyEndDate := member warranty "endDate";
                     daysRemaining := Some days;
                     warrantyStatus := status_of_days days;
                     warrantyType := member warranty "type";
                     errorMessage := VUndefined |}
            else r = bare_record s NotFound VUndefined
        else res = None
    end.
Proof.
  unfold tryApiMethod. rewrite run_try_catch, run_bind, run_axios_post.
  destruct (axios_post w _ s) as [e|data].
  { eexists. by split. }
  assert (data = VUndefined \/ data = VNull \/ (data <> VUndefined /\ data <> VNull))
    as [->|[->|[Hu Hn]]] by (destruct data; auto).
  { eexists. by split. }
  { eexists. by split. }
  rewrite run_bind, (get_defined data "status" Hu Hn). cbn [run].
  destruct (strict_eq_str (member data "status") "success"); cbn [andb].
  - rewrite run_bind, run_bind, (get_defined data "data" Hu Hn). cbn [run].
    destruct (truthy (member data "data")) eqn:Hd.
    + rewrite run_bind.
      destruct (parseApiResponse_run s data (after_call (CAxiosPost s) st) Hu Hn)
        as (r & -> & Hs & Hr).
      cbn [run]. eexists. split; [reflexivity|]. exists r.
      split; [done|]. split; [done|].
      cbn zeta in Hr. rewrite Hd in Hr. exact Hr.
    + cbn [run]. eexists. by split.
  - rewrite run_bind. cbn [run]. eexists. by split.
Qed.
End Structured.

(** C1, as the code has it.  [tryApiMethod] makes one request and never
    throws.  It answers [null] when the request is rejected and when the
    payload's [status] is not 'success' or its [data] member is missing or
    falsy (a [null] payload included).  A payload with status 'success' and a
    [data] member yields a record for the serial: the bare 'Not Found' record
    when [data.warranty] is missing, and otherwise a record classified from
    [warranty.endDate] whenever that is a date. *)
Theorem tryApiMethod_unavailable_or_record (w : World) (s : string) (st : State) :
  exists res,
    run w (tryApiMethod s) st = (Returned res, after_call (CAxiosPost s) st) /\
    match axios_post w (trace st ++ [EvIssue (CAxiosPost s)]) s with
    | AxiosRejected _ => res = None
    | AxiosResolved data =>
        let d := member data "data" in
        let warranty := member d "warranty" in
        (strict_eq_str (member data "status") "success" = false -> res = None) /\
        (truthy d = false -> res = None) /\
        (strict_eq_str (member data "status") "success" = true -> truthy d = true ->
           truthy warranty = false ->
           res = Some (bare_record s NotFound VUndefined)) /\
        (strict_eq_str (member data "status") "success" = true -> truthy d = true ->
           truthy warranty = true ->
           exists r,
             res = Some r /\ serialNumber r = s /\
             productName r = member d "product" /\
             warrantyStartDate r = member warranty "startDate" /\
             warrantyEndDate r = member warranty "endDate" /\
             warrantyType r = member warranty "type" /\
             forall endDate,
               Date_parse w (member warranty "endDate") = Some endDate ->
               classified_by endDate (Date_now w (trace (after_call (CAxiosPost s) st))) r)
    end.
Proof.
  destruct (tryApiMethod_run w s st) as (res & Hrun & Hres).
  exists res. split; [exact Hrun|].
  destruct (axios_post w _ s) as [e|data]; [exact Hres|].
  cbn zeta in *.
  destruct (strict_eq_str (member data "status") "success");
    destruct (truthy (member data "data")); cbn [andb] in Hres;
    split_and!; try done.
  - destruct Hres as (r & -> & _ & Hr). intros _ _ Hw. rewrite Hw in Hr. by subst r.
  - destruct Hres as (r & -> & Hs & Hr). intros _ _ Hw. rewrite Hw in Hr.
    exists r. split; [done|]. split; [done|]. subst r. cbn.
    split_and!; try done.
    intros endDate Hdate. rewrite Hdate. by apply classified_record.
Qed.

(** C1 as stated fails: a payload with status 'success' and a [data] member
    but no warranty object is not well formed, and yet [tryApiMethod] answers
    with a record (status 'Not Found') instead of [null]. *)
Lemma tryApiMethod_record_without_warranty :
  well_formed_payload payload_without_warranty = false /\
  fst (run (sample_world (fun _ => AxiosResolved payload_without_warranty) sample_page)
           (tryApiMethod "PF2ABCDE") initial_state)
  = Returned (Some (bare_record "PF2ABCDE" NotFound VUndefined)).
Proof. split; reflexivity. Qed.

(** ** The scrape source *)

Section Scrape.
Context (w : World).

Lemma truthy_string (text : string) : truthy (VStr text) = false <-> text = "".
Proof.
  simpl. destruct (String.eqb_spec text ""); simpl; split; intros; congruence.
Qed.

(** The statements after [page.evaluate] never throw and touch nothing. *)
Lemma scraped_record_run s d st :
  exists r,
    run w (scraped_record s d) st = (Returned r, st) /\
    serialNumber r = s /\
    if truthy (VStr (wd_warrantyEndDate d)) then
      let days := days_between (Date_parse w (VStr (wd_warrantyEndDate d)))
                               (Date_now w (trace st)) in
      daysRemaining r = Some days /\ warrantyStatus r = status_of_days days
    else
      daysRemaining r = None /\
      warrantyStatus r = if truthy (VStr (wd_errorMessage d)) then Error else NotFound.
Proof.
  unfold scraped_record.
  destruct (truthy (VStr (wd_warrantyEndDate d))).
  - cbn [bind eff run issue call_of perform]. eexists. by split_and!.
  - destruct (truthy (VStr (wd_errorMessage d)));
      cbn [bind run]; eexists; by split_and!.
Qed.
End Scrape.

(** The status classification where the code has it.  After
    [page.evaluate]: without an end date the status is 'Error' when the page
    showed an error message and 'Not Found' when it did not; with an end
    date that [Date] reads as [endDate], [daysRemaining] is the ceiling of
    [(endDate - today)] in days, and the status is 'Expired' below 0,
    'Expiring Soon' from 0 to 30 and 'Active' above 30.  [parseApiResponse]
    classifies an end date that [Date] reads the same way; it has no case
    for a warranty without one (see [parseApiResponse_without_end_date]). *)
Lemma status_classification (w : World) (s : string) (st : State) :
  (forall d : WarrantyData,
     exists r,
       run w (scraped_record s d) st = (Returned r, st) /\
       (wd_warrantyEndDate d = "" -> wd_errorMessage d <> "" ->
          daysRemaining r = None /\ warrantyStatus r = Error) /\
       (wd_warrantyEndDate d = "" -> wd_errorMessage d = "" ->
          daysRemaining r = None /\ warrantyStatus r = NotFound) /\
       (wd_warrantyEndDate d <> "" ->
          forall endDate,
            Date_parse w (VStr (wd_warrantyEndDate d)) = Some endDate ->
            classified_by endDate (Date_now w (trace st)) r)) /\
  (forall data : jsval,
     let warranty := member (member data "data") "warranty" in
     truthy warranty = true ->
     forall endDate,
       Date_parse w (member warranty "endDate") = Some endDate ->
       exists r,
         run w (parseApiResponse s data) st = (Returned r, st) /\
         classified_by endDate (Date_now w (trace st)) r).
Proof.
  split.
  - intros d. destruct (scraped_record_run w s d st) as (r & Hrun & _ & Hr).
    exists r. split; [exact Hrun|].
    destruct (truthy (VStr (wd_warrantyEndDate d))) eqn:Hend.
    + assert (wd_warrantyEndDate d <> "") as Hne.
      { intros Heq. apply truthy_string in Heq. congruence. }
      split_and!; [done | done |].
      intros _ endDate Hdate. destruct Hr as [Hdays Hstatus].
      rewrite Hdate in *. by apply classified_record.
    + apply truthy_string in Hend. destruct Hr as [Hdays Hstatus].
      split_and!; [| | done].
      * intros _ Herr. split; [done|]. rewrite Hstatus.
        destruct (truthy (VStr (wd_errorMessage d))) eqn:He; [done|].
        by apply truthy_string in He.
      * intros _ Herr. split; [done|]. rewrite Hstatus.
        apply truthy_string in Herr. by rewrite Herr.
  - intros data warranty Hw endDate Hdate. subst warranty.
    assert (data <> VUndefined /\ data <> VNull) as [Hu Hn] by (by destruct data).
    destruct (parseApiResponse_run w s data st Hu Hn) as (r & Hrun & _ & Hr).
    exists r. split; [exact Hrun|].
    cbn zeta in Hr. rewrite Hw, Hdate in Hr.
    assert (truthy (member data "data") = true) as Hd.
    { destruct (member data "data"); try done. }
    rewrite Hd in Hr. cbn [andb] in Hr. subst r. by apply classified_record.
Qed.

(** C2.  [parseApiResponse] does not test whether the warranty has an end
    date.  When [Date] cannot read [warranty.endDate] (it is missing, or the
    empty string), the time value is [NaN], [daysRemaining] is [NaN], both
    comparisons of the [if] chain are false, and the record is classified
    'Active': not 'Not Found', as the classification without an end date
    and without an error indicator asks and as [scrapeWarrantyInfo] answers
    for the same end date. *)
Theorem parseApiResponse_without_end_date (w : World) (s : string) (data : jsval)
  (st : State) :
  let warranty := member (member data "data") "warranty" in
  truthy warranty = true ->
  Date_parse w (member warranty "endDate") = None ->
  exists r,
    run w (parseApiResponse s data) st = (Returned r, st) /\
    daysRemaining r = Some NaN /\
    warrantyStatus r = Active /\
    warrantyStatus r <> NotFound.
Proof.
  intros warranty Hw Hdate. subst warranty.
  assert (data <> VUndefined /\ data <> VNull) as [Hu Hn] by (by destruct data).
  destruct (parseApiResponse_run w s data st Hu Hn) as (r & Hrun & _ & Hr).
  exists r. split; [exact Hrun|].
  cbn zeta in Hr. rewrite Hw, Hdate in Hr.
  assert (truthy (member data "data") = true) as Hd.
  { destruct (member data "data"); try done. }
  rewrite Hd in Hr. cbn [andb] in Hr. subst r. by split_and!.
Qed.

(** The failing input: the structured source answers for [PF2ABCDE] with a
    warranty whose end date is the empty string.  [tryApiMethod] returns an
    'Active' record with [NaN] days; the statements after [page.evaluate]
    classify the same empty end date as 'Not Found'. *)
Lemma parseApiResponse_without_end_date_witness :
  let w := sample_world (fun _ => AxiosResolved payload_without_end_date) sample_page in
  let warranty := member (member payload_without_end_date "data") "warranty" in
  truthy warranty = true /\
  member warranty "endDate" = VStr "" /\
  Date_parse w (member warranty "endDate") = None /\
  (exists r,
     run w (parseApiResponse "PF2ABCDE" payload_without_end_date) initial_state
     = (Returned r, initial_state) /\
     daysRemaining r = Some NaN /\
     warrantyStatus r = Active /\
     warrantyStatus r <> NotFound) /\
  fst (run w (tryApiMethod "PF2ABCDE") initial_state)
  = Returned (Some {| serialNumber := "PF2ABCDE";
                      productName := VStr "ThinkPad X1";
                      productType := VUndefined;
                      warrantyStartDate := VStr "2027-01-01";
                      warrantyEndDate := VStr "";
                      daysRemaining := Some NaN;
                      warrantyStatus := Active;
                      warrantyType := VStr "Depot";
                      errorMessage := VUndefined |}) /\
  (exists r,
     fst (run w (scraped_record "PF2ABCDE"
                   {| wd_productName := "ThinkPad X1";
                      wd_productType := "";
                      wd_warrantyStartDate := "2027-01-01";
                      wd_warrantyEndDate := "";
                      wd_warrantyType := "Depot";
                      wd_warrantyStatus := "";
                      wd_errorMessage := "" |}) initial_state) = Returned r /\
     daysRemaining r = None /\ warrantyStatus r = NotFound).
Proof.
  cbn zeta. split; [reflexivity|]. split; [reflexivity|]. split; [reflexivity|].
  split.
  - apply (parseApiResponse_without_end_date
             (sample_world (fun _ => AxiosResolved payload_without_end_date) sample_page)
             "PF2ABCDE" payload_without_end_date initial_state); reflexivity.
  - split; [reflexivity|]. eexists. split; [reflexivity|]. by split.
Defined.

(** The vectors of the specification, for a clock at [today]: an end date 45
    days ahead is 'Active', 10 days ahead 'Expiring Soon', one day back
    'Expired'. *)
Example status_vectors (today : Z) :
  status_of_days (days_between (Some (today + 45 * 86400000)%Z) today) = Active /\
  status_of_days (days_between (Some (today + 10 * 86400000)%Z) today) = ExpiringSoon /\
  status_of_days (days_between (Some (today - 86400000)%Z) today) = Expired.
Proof.
  unfold days_between, ceil_days.
  replace (today + 45 * 86400000 - today)%Z with (45 * 86400000)%Z by lia.
  replace (today + 10 * 86400000 - today)%Z with (10 * 86400000)%Z by lia.
  replace (today - 86400000 - today)%Z with (- 86400000)%Z by lia.
  by split_and!.
Qed.

(** An end date that [Date] cannot read has the time value [NaN]; both
    comparisons of the [if] chain are false on it, and the status is
    'Active'. *)
Lemma unreadable_end_date (w : World) (s : string) (d : WarrantyData) (st : State) :
  wd_warrantyEndDate d <> "" ->
  Date_parse w (VStr (wd_warrantyEndDate d)) = None ->
  exists r,
    run w (scraped_record s d) st = (Returned r, st) /\
    daysRemaining r = Some NaN /\
    warrantyStatus r = Active.
Proof.
  intros Hne Hdate. destruct (scraped_record_run w s d st) as (r & Hrun & _ & Hr).
  exists r. split; [exact Hrun|].
  destruct (truthy (VStr (wd_warrantyEndDate d))) eqn:Hend.
  - by rewrite Hdate in Hr.
  - by apply truthy_string in Hend.
Qed.

(** The complete payload, read two seconds after the start of the sample
    clock: the warranty ends in 2240 days. *)
Example tryApiMethod_complete_payload :
  well_formed_payload payload_complete = true /\
  fst (run (sample_world (fun _ => AxiosResolved payload_complete) sample_page)
           (tryApiMethod "PF2ABCDE") initial_state)
  = Returned (Some {| serialNumber := "PF2ABCDE";
                      productName := VStr "ThinkPad X1";
                      productType := VUndefined;
                      warrantyStartDate := VStr "2027-01-01";
                      warrantyEndDate := VStr "2030-01-01";
                      daysRemaining := Some (Num 2240);
                      warrantyStatus := Active;
                      warrantyType := VStr "Depot";
                      errorMessage := VUndefined |}).
Proof. split; reflexivity. Qed.

(** ** One lookup *)

Section Lookup.
Context (w : World).

Lemma cacheKey_inj s s' : cacheKey s = cacheKey s' -> s = s'.
Proof. unfold cacheKey. simpl. by intros [=]. Qed.

Lemma after_call_eq c st :
  after_call c st = {| cache := cache st; trace := trace st ++ [EvIssue c; EvSettle c] |}.
Proof. unfold after_call, emit. simpl. by rewrite <- app_assoc. Qed.

Lemma tryApiMethod_serial s st res st1 r :
  run w (tryApiMethod s) st = (Returned res, st1) -> res = Some r -> serialNumber r = s.
Proof.
  destruct (tryApiMethod_run w s st) as (res' & Hrun & Hres). rewrite Hrun.
  intros [= <- <-] ->.
  destruct (axios_post w _ s) as [e|data]; [done|]. cbn zeta in Hres.
  destruct (_ && _); [|done].
  by destruct Hres as (r' & [= <-] & Hs & _).
Qed.

(** [await page.close()] in the [finally] block. *)
Lemma close_page_run s st :
  exists closed : outcome unit,
    run w (close_page s) st = (closed, after_call (CPageClose s) st).
Proof.
  unfold close_page. rewrite run_bind. cbn [eff run issue call_of perform].
  fold (after_call (CPageClose s) st).
  destruct (page_close w _ s); eexists; reflexivity.
Qed.

(** [scrapeWarrantyInfo] drives the browser once, closes the page it
    opened, leaves the cache alone, and answers for its serial when it
    returns. *)
Lemma scrapeWarrantyInfo_run s st :
  exists (o : outcome WarrantyInfo) (closing : list event),
    run w (scrapeWarrantyInfo s) st =
      (o, {| cache := cache st;
             trace := trace st ++ [EvIssue (CBrowser s); EvSettle (CBrowser s)] ++ closing |}) /\
    (closing = [] \/ closing = [EvIssue (CPageClose s); EvSettle (CPageClose s)]) /\
    (forall r, o = Returned r -> serialNumber r = s).
Proof.
  unfold scrapeWarrantyInfo. rewrite run_bind.
  cbn [eff run issue call_of perform]. fold (after_call (CBrowser s) st).
  set (st1 := after_call (CBrowser s) st).
  assert (st1 = {| cache := cache st;
                   trace := trace st ++ [EvIssue (CBrowser s); EvSettle (CBrowser s)] ++ [] |})
    as Hst1 by (subst st1; by rewrite after_call_eq, app_nil_r).
  destruct (browser_run w _ s) as [e| |steps]; cbn [run].
  - exists (Threw e), []. by split_and!; [rewrite Hst1 | left |].
  - eexists (Threw _), []. by split_and!; [rewrite Hst1 | left |].
  - rewrite run_finally.
    destruct (close_page_run s st1) as (closed & Hclose).
    assert (after_call (CPageClose s) st1 =
            {| cache := cache st;
               trace := trace st ++ [EvIssue (CBrowser s); EvSettle (CBrowser s)] ++
                        [EvIssue (CPageClose s); EvSettle (CPageClose s)] |}) as Hst2.
    { rewrite after_call_eq. subst st1. rewrite after_call_eq. simpl.
      by rewrite <- app_assoc. }
    assert (exists o1, run w (on_page s steps) st1 = (o1, st1) /\
                       forall r, o1 = Returned r -> serialNumber r = s) as (o1 & -> & Ho1).
    { destruct steps as [e| | |d]; cbn [on_page run]; try (eexists; by split).
      destruct (scraped_record_run w s d st1) as (r & -> & Hs & _).
      eexists. split; [done|]. by intros ? [= <-]. }
    rewrite Hclose, Hst2.
    destruct o1 as [r|e], closed as [[]|e'];
      eexists _, _; (split_and!; [reflexivity | by right |]); try done.
Qed.

Lemma checkSingleWarranty_try_run s st :
  run w (checkSingleWarranty_try s) st =
  match run w (tryApiMethod s) st with
  | (Returned (Some apiResult), st1) =>
      (Returned apiResult, cache_set w (cacheKey s) apiResult st1)
  | (Returned None, st1) =>
      match run w (scrapeWarrantyInfo s) st1 with
      | (Returned scrapingResult, st2) =>
          (Returned scrapingResult, cache_set w (cacheKey s) scrapingResult st2)
      | (Threw e, st2) => (Threw e, st2)
      end
  | (Threw e, st1) => (Threw e, st1)
  end.
Proof.
  unfold checkSingleWarranty_try. rewrite run_bind.
  destruct (run w (tryApiMethod s) st) as [[[r|]|e] st1]; try done.
  rewrite run_bind.
  by destruct (run w (scrapeWarrantyInfo s) st1) as [[r|e] st2].
Qed.

Lemma checkSingleWarranty_run s st :
  run w (checkSingleWarranty s) st =
  match cache_get w (cacheKey s) st with
  | Some cached => (Returned cached, st)
  | None =>
      match run w (checkSingleWarranty_try s) st with
      | (Returned r, st') => (Returned r, st')
      | (Threw e, st') =>
          (Returned (bare_record s Error (VStr (message_of e))),
           emit (EvConsoleError s) st')
      end
  end.
Proof.
  unfold checkSingleWarranty. rewrite run_bind.
  cbn [eff run issue call_of perform].
  destruct (cache_get w (cacheKey s) st); [done|].
  rewrite run_try_catch.
  by destruct (run w (checkSingleWarranty_try s) st) as [[r|e] st'].
Qed.
End Lookup.

Section LookupCases.
Context (w : World).

Lemma cache_ok_same_cache st st' : cache st' = cache st -> cache_ok st -> cache_ok st'.
Proof. unfold cache_ok. by intros ->. Qed.

Lemma cache_ok_set s r st :
  serialNumber r = s -> cache_ok st -> cache_ok (cache_set w (cacheKey s) r st).
Proof.
  intros Hs Hok s' r' expires. unfold cache_set. simpl.
  destruct (decide (cacheKey s = cacheKey s')) as [Heq|Hne].
  - rewrite Heq, lookup_insert_eq. intros [= <- _].
    by rewrite <- (cacheKey_inj _ _ Heq).
  - rewrite lookup_insert_ne by done. apply Hok.
Qed.

Lemma cache_ok_initial h : cache_ok {| cache := ∅; trace := h |}.
Proof. intros s r expires. simpl. by rewrite lookup_empty. Qed.

Lemma cache_get_Some key st v :
  cache_get w key st = Some v ->
  exists expires,
    cache st !! key = Some (v, expires) /\ (Date_now w (trace st) <= expires)%Z.
Proof.
  unfold cache_get. destruct (cache st !! key) as [[v' expires]|]; [|done].
  destruct (Z.ltb_spec expires (Date_now w (trace st))); [done|].
  intros [= ->]. by exists expires.
Qed.


(** A miss stays a miss while the cache is not written and the clock
    does not run backwards. *)
Lemma cache_get_None_later key st st' :
  cache st' = cache st ->
  (Date_now w (trace st) <= Date_now w (trace st'))%Z ->
  cache_get w key st = None -> cache_get w key st' = None.
Proof.
  unfold cache_get. intros -> Hle.
  destruct (cache st !! key) as [[v expires]|]; [|done].
  destruct (Z.ltb_spec expires (Date_now w (trace st))); [|done].
  by destruct (Z.ltb_spec expires (Date_now w (trace st'))); [|lia].
Qed.

(** The two ways through the [try] block of [checkSingleWarranty]: the
    structured source has a record, which is cached and returned; or it has
    none, and the scrape source is asked once, its record cached and
    returned, its exception passed on with the cache untouched. *)
Lemma checkSingleWarranty_try_cases s st :
  let st1 := after_call (CAxiosPost s) st in
  (exists r,
     run w (tryApiMethod s) st = (Returned (Some r), st1) /\
     serialNumber r = s /\
     run w (checkSingleWarranty_try s) st =
       (Returned r, cache_set w (cacheKey s) r st1)) \/
  (exists (o : outcome WarrantyInfo) (closing : list event),
     let st2 :=
       {| cache := cache st;
          trace := trace st ++ [EvIssue (CAxiosPost s); EvSettle (CAxiosPost s)] ++
                   [EvIssue (CBrowser s); EvSettle (CBrowser s)] ++ closing |} in
     run w (tryApiMethod s) st = (Returned None, st1) /\
     run w (scrapeWarrantyInfo s) st1 = (o, st2) /\
     (closing = [] \/ closing = [EvIssue (CPageClose s); EvSettle (CPageClose s)]) /\
     (forall r, o = Returned r -> serialNumber r = s) /\
     run w (checkSingleWarranty_try s) st =
       match o with
       | Returned r => (Returned r, cache_set w (cacheKey s) r st2)
       | Threw e => (Threw e, st2)
       end).
Proof.
  intros st1. rewrite checkSingleWarranty_try_run.
  destruct (tryApiMethod_run w s st) as (res & Hrun & _). fold st1 in Hrun.
  destruct res as [r|].
  - left. exists r. rewrite Hrun. split_and!; try done.
    by eapply tryApiMethod_serial.
  - right. rewrite Hrun.
    destruct (scrapeWarrantyInfo_run w s st1) as (o & closing & Hscrape & Hclosing & Hs).
    exists o, closing. cbn zeta.
    assert ({| cache := cache st1;
               trace := trace st1 ++ [EvIssue (CBrowser s); EvSettle (CBrowser s)] ++ closing |}
            = {| cache := cache st;
                 trace := trace st ++ [EvIssue (CAxiosPost s); EvSettle (CAxiosPost s)] ++
                          [EvIssue (CBrowser s); EvSettle (CBrowser s)] ++ closing |}) as Hst2.
    { subst st1. rewrite after_call_eq. simpl. by rewrite <- app_assoc. }
    rewrite Hst2 in Hscrape. rewrite Hscrape.
    by split_and!.
Qed.
End LookupCases.

(** C9.  In a service whose cache holds under each serial's key a record of
    that serial (as it does from the empty cache on), [checkSingleWarranty]
    returns a record whose [serialNumber] is the serial it was asked for,
    whichever path it takes, and leaves the cache that way. *)
Theorem checkSingleWarranty_serialNumber (w : World) (s : string) (st : State) :
  cache_ok st ->
  exists r st',
    run w (checkSingleWarranty s) st = (Returned r, st') /\
    serialNumber r = s /\
    cache_ok st'.
Proof.
  intros Hok. rewrite checkSingleWarranty_run.
  destruct (cache_get w (cacheKey s) st) as [cached|] eqn:Hget.
  - exists cached, st. split_and!; try done.
    apply cache_get_Some in Hget as (expires & Hl & _). by apply Hok in Hl.
  - destruct (checkSingleWarranty_try_cases w s st)
      as [(r & _ & Hs & ->)|(o & closing & _ & _ & _ & Hs & ->)].
    + eexists _, _. split_and!; [done | done |].
      apply cache_ok_set; [done|]. by eapply cache_ok_same_cache.
    + destruct o as [r|e].
      * eexists _, _. split_and!; [done | by apply Hs |].
        apply cache_ok_set; [by apply Hs|]. by eapply cache_ok_same_cache.
      * eexists _, _. split_and!; [done | done |]. by eapply cache_ok_same_cache.
Qed.

Lemma checkSingleWarranty_serialNumber_witness :
  cache_ok initial_state /\
  exists r st',
    run scraping_world (checkSingleWarranty "PF2ABCDE") initial_state = (Returned r, st') /\
    serialNumber r = "PF2ABCDE" /\
    cache_ok st'.
Proof.
  split; [apply cache_ok_initial|].
  apply (checkSingleWarranty_serialNumber scraping_world "PF2ABCDE" initial_state).
  apply cache_ok_initial.
Defined.

(** C6.  On a cache miss, when the structured client answers [null], the
    lookup returns after invoking the scrape client exactly once, for the
    serial that was asked. *)
Theorem fallback_scrapes_once (w : World) (s : string) (st : State) :
  cache_get w (cacheKey s) st = None ->
  fst (run w (tryApiMethod s) st) = Returned None ->
  exists r st' evs,
    run w (checkSingleWarranty s) st = (Returned r, st') /\
    trace st' = trace st ++ evs /\
    List.filter is_scrape_call evs = [EvIssue (CBrowser s)].
Proof.
  intros Hget Hapi. rewrite checkSingleWarranty_run, Hget.
  destruct (checkSingleWarranty_try_cases w s st)
    as [(r & Hrun & _)|(o & closing & _ & _ & Hclosing & _ & ->)].
  { rewrite Hrun in Hapi. discriminate Hapi. }
  destruct o as [r|e]; eexists _, _, _; (split; [reflexivity|]); cbn [trace cache_set emit].
  - split; [reflexivity|]. by destruct Hclosing as [->| ->].
  - rewrite <- app_assoc. split; [reflexivity|]. by destruct Hclosing as [->| ->].
Qed.

Lemma fallback_scrapes_once_witness :
  cache_get scraping_world (cacheKey "PF2ABCDE") initial_state = None /\
  fst (run scraping_world (tryApiMethod "PF2ABCDE") initial_state) = Returned None /\
  exists r st' evs,
    run scraping_world (checkSingleWarranty "PF2ABCDE") initial_state = (Returned r, st') /\
    trace st' = trace initial_state ++ evs /\
    List.filter is_scrape_call evs = [EvIssue (CBrowser "PF2ABCDE")].
Proof.
  split; [reflexivity|]. split; [reflexivity|].
  apply (fallback_scrapes_once scraping_world "PF2ABCDE" initial_state); reflexivity.
Defined.




(** C10.  When the [try] block of a lookup throws, the lookup returns the
    'Error' record with the exception's message and the cache is what it was
    before the lookup: the record is not stored.  A later lookup of the same
    serial therefore starts by asking the structured client again. *)
Theorem error_record_not_cached (w : World) (s : string) (st st1 : State) (e : thrown) :
  cache_get w (cacheKey s) st = None ->
  run w (checkSingleWarranty_try s) st = (Threw e, st1) ->
  run w (checkSingleWarranty s) st
  = (Returned (bare_record s Error (VStr (message_of e))), emit (EvConsoleError s) st1) /\
  cache (emit (EvConsoleError s) st1) = cache st /\
  forall h2 : list event,
    (Date_now w (trace st) <= Date_now w h2)%Z ->
    exists r2 st2 evs,
      run w (checkSingleWarranty s) (at_history (emit (EvConsoleError s) st1) h2)
      = (Returned r2, st2) /\
      trace st2 = h2 ++ EvIssue (CAxiosPost s) :: evs.
Proof.
  intros Hget Htry.
  assert (cache st1 = cache st) as Hcache.
  { destruct (checkSingleWarranty_try_cases w s st)
      as [(r & _ & _ & Hcase)|(o & closing & _ & _ & _ & _ & Hcase)];
      rewrite Hcase in Htry; [discriminate Htry|].
    destruct o as [r|e']; [discriminate Htry|]. by injection Htry as _ <-. }
  split_and!.
  - by rewrite checkSingleWarranty_run, Hget, Htry.
  - done.
  - intros h2 Hlater.
    set (st2 := at_history (emit (EvConsoleError s) st1) h2).
    assert (cache_get w (cacheKey s) st2 = None) as Hget2.
    { by apply (cache_get_None_later w _ st). }
    rewrite checkSingleWarranty_run, Hget2.
    destruct (checkSingleWarranty_try_cases w s st2)
      as [(r & _ & _ & ->)|(o & closing & _ & _ & _ & _ & ->)].
    + eexists _, _, _. split; [reflexivity|].
      cbn [trace cache_set]. rewrite after_call_eq. reflexivity.
    + destruct o as [r|e']; eexists _, _, _; (split; [reflexivity|]);
        cbn [trace cache_set emit]; [|rewrite <- app_assoc]; reflexivity.
Qed.

Lemma error_record_not_cached_witness :
  cache_get scraping_world (cacheKey "PF0BROKEN") initial_state = None /\
  run scraping_world (checkSingleWarranty_try "PF0BROKEN") initial_state
  = (Threw (JsError "Navigation timeout of 30000 ms exceeded"),
     snd (run scraping_world (checkSingleWarranty_try "PF0BROKEN") initial_state)) /\
  cache after_failed_lookup = cache initial_state /\
  exists r2 st2 evs,
    run scraping_world (checkSingleWarranty "PF0BROKEN")
      (at_history after_failed_lookup (trace after_failed_lookup))
    = (Returned r2, st2) /\
    trace st2 = trace after_failed_lookup ++ EvIssue (CAxiosPost "PF0BROKEN") :: evs.
Proof.
  split; [reflexivity|]. split; [reflexivity|].
  destruct (error_record_not_cached scraping_world "PF0BROKEN" initial_state
              (snd (run scraping_world (checkSingleWarranty_try "PF0BROKEN") initial_state))
              (JsError "Navigation timeout of 30000 ms exceeded")
              eq_refl eq_refl) as (_ & Hcache & Hagain).
  split; [exact Hcache|].
  apply (Hagain (trace after_failed_lookup)). vm_compute. discriminate.
Defined.

(** ** Calls that interleave: a safety logic for [promise_all] *)

Section Safety.
Context (w : World) (Inv : State -> Prop).
Context (pre : forall X, op X -> Prop) (post : forall X, op X -> X -> Prop).

(** An allowed operation keeps the invariant when its call is made and when
    it is performed, and answers within [post]. *)
Hypothesis issue_ok :
  forall X (o : op X) st, pre X o -> Inv st -> Inv (issue o st).
Hypothesis perform_ok :
  forall X (o : op X) st,
    pre X o -> Inv st -> post X o (perform w o st).1 /\ Inv (perform w o st).2.

Lemma safe_mono {A : Type} (Q Q' : outcome A -> Prop) (p : prog A) :
  (forall o, Q o -> Q' o) -> safe pre post Q p -> safe pre post Q' p.
Proof using Type.
  intros HQ. induction p as [a|e|X o k IH]; simpl; [auto | auto |].
  intros [Hpre Hk]. split; [done|]. intros x Hx. by apply IH, Hk.
Qed.

Lemma safe_bind {A B : Type} (Q : outcome B -> Prop) (p : prog A) (f : A -> prog B) :
  safe pre post
    (fun o => match o with
              | Returned a => safe pre post Q (f a)
              | Threw e => Q (Threw e)
              end) p ->
  safe pre post Q (bind p f).
Proof using Type.
  induction p as [a|e|X o k IH]; simpl; [done | done |].
  intros [Hpre Hk]. split; [done|]. intros x Hx. by apply IH, Hk.
Qed.

Lemma safe_try_catch {A : Type} (Q : outcome A -> Prop) (p : prog A)
  (handler : thrown -> prog A) :
  safe pre post
    (fun o => match o with
              | Returned a => Q (Returned a)
              | Threw e => safe pre post Q (handler e)
              end) p ->
  safe pre post Q (try_catch p handler).
Proof using Type.
  induction p as [a|e|X o k IH]; simpl; [done | done |].
  intros [Hpre Hk]. split; [done|]. intros x Hx. by apply IH, Hk.
Qed.

Lemma safe_finally {A : Type} (Q : outcome A -> Prop) (p : prog A) (f : prog unit) :
  safe pre post
    (fun o => safe pre post
                (fun o' => match o' with
                           | Returned _ => Q o
                           | Threw e' => Q (Threw e')
                           end) f) p ->
  safe pre post Q (finally p f).
Proof using Type.
  induction p as [a|e|X o k IH]; simpl.
  - intros Hf. apply safe_bind. eapply safe_mono; [|exact Hf]. by intros [[]|e'].
  - intros Hf. apply safe_bind. eapply safe_mono; [|exact Hf]. by intros [[]|e'].
  - intros [Hpre Hk]. split; [done|]. intros x Hx. by apply IH, Hk.
Qed.

Lemma run_safe {A : Type} (Q : outcome A -> Prop) (p : prog A) st :
  safe pre post Q p -> Inv st -> Q (run w p st).1 /\ Inv (run w p st).2.
Proof using issue_ok perform_ok.
  revert st. induction p as [a|e|X o k IH]; intros st; simpl; [done | done |].
  intros [Hpre Hk] Hinv.
  destruct (perform_ok X o (issue o st) Hpre (issue_ok X o st Hpre Hinv)) as [Hx Hinv'].
  destruct (perform w o (issue o st)) as [x st']. by apply IH; [apply Hk|].
Qed.

Lemma run_sync_safe {A : Type} (Q : outcome A -> Prop) (p : prog A) st :
  safe pre post Q p -> Inv st ->
  safe pre post Q (run_sync w p st).1 /\ Inv (run_sync w p st).2.
Proof using issue_ok perform_ok.
  revert st. induction p as [a|e|X o k IH]; intros st; simpl; [done | done |].
  intros [Hpre Hk] Hinv.
  destruct (call_of o) as [c|] eqn:Hc.
  - simpl. split; [done|].
    specialize (issue_ok X o st Hpre Hinv). unfold issue in issue_ok.
    by rewrite Hc in issue_ok.
  - destruct (perform_ok X o st Hpre Hinv) as [Hx Hinv'].
    destruct (perform w o st) as [x st']. by apply IH; [apply Hk|].
Qed.

Lemma resume_safe {A : Type} (Q : outcome A -> Prop) (p : prog A) st :
  safe pre post Q p -> Inv st ->
  safe pre post Q (resume w p st).1 /\ Inv (resume w p st).2.
Proof using issue_ok perform_ok.
  destruct p as [a|e|X o k]; simpl; [done | done |].
  intros [Hpre Hk] Hinv.
  destruct (perform_ok X o st Hpre Hinv) as [Hx Hinv'].
  destruct (perform w o st) as [x st']. by apply run_sync_safe; [apply Hk|].
Qed.

Lemma finish_safe {A : Type} (Q : outcome A -> Prop) (p : prog A) st :
  safe pre post Q p -> Inv st -> Q (finish w p st).1 /\ Inv (finish w p st).2.
Proof using issue_ok perform_ok.
  destruct p as [a|e|X o k]; simpl; [done | done |].
  intros [Hpre Hk] Hinv.
  destruct (perform_ok X o st Hpre Hinv) as [Hx Hinv'].
  destruct (perform w o st) as [x st']. by apply run_safe; [apply Hk|].
Qed.

(** Task by task: [xs] names what each task is for, [Q x] what the task of
    [x] must end in. *)
Context {I A : Type} (Q : I -> outcome A -> Prop).

Lemma start_all_safe (xs : list I) (ps : list (prog A)) st :
  Forall2 (fun x p => safe pre post (Q x) p) xs ps -> Inv st ->
  Forall2 (fun x p => safe pre post (Q x) p) xs (start_all w ps st).1 /\
  Inv (start_all w ps st).2.
Proof using issue_ok perform_ok.
  intros Hall. revert st.
  induction Hall as [|x p xs ps Hp Hall IH]; intros st Hinv; simpl; [by split|].
  destruct (run_sync_safe (Q x) p st Hp Hinv) as [Hp' Hinv1].
  destruct (run_sync w p st) as [p' st1].
  destruct (IH st1 Hinv1) as [Hrest Hinv2].
  destruct (start_all w ps st1) as [rest st2]. split; [by constructor|done].
Qed.

Lemma run_schedule_safe (sched : list nat) (xs : list I) (pool : list (prog A)) st :
  Forall2 (fun x p => safe pre post (Q x) p) xs pool -> Inv st ->
  Forall2 (fun x p => safe pre post (Q x) p) xs (run_schedule w sched pool st).1 /\
  Inv (run_schedule w sched pool st).2.
Proof using issue_ok perform_ok.
  revert pool st. induction sched as [|i sched IH]; intros pool st Hall Hinv; simpl;
    [by split|].
  destruct (pool !! i) as [p|] eqn:Hp; [|by apply IH].
  destruct (Forall2_lookup_r _ _ _ _ _ Hall Hp) as (x & Hx & Hsafe).
  destruct (resume_safe (Q x) p st Hsafe Hinv) as [Hp' Hinv'].
  destruct (resume w p st) as [p' st']. apply IH; [|done].
  rewrite <- (list_insert_id xs i x Hx). by apply Forall2_insert.
Qed.

Lemma finish_all_safe (xs : list I) (pool : list (prog A)) st :
  Forall2 (fun x p => safe pre post (Q x) p) xs pool -> Inv st ->
  Forall2 Q xs (finish_all w pool st).1 /\ Inv (finish_all w pool st).2.
Proof using issue_ok perform_ok.
  intros Hall. revert st.
  induction Hall as [|x p xs ps Hp Hall IH]; intros st Hinv; simpl; [by split|].
  destruct (finish_safe (Q x) p st Hp Hinv) as [Hr Hinv1].
  destruct (finish w p st) as [r st1].
  destruct (IH st1 Hinv1) as [Hrest Hinv2].
  destruct (finish_all w ps st1) as [rs st2]. split; [by constructor|done].
Qed.

(** Whatever the schedule, [Promise.all] of safe calls settles each call
    within its [Q], in the order of the calls, and keeps the invariant. *)
Lemma promise_all_safe (xs : list I) (ps : list (prog A)) (sched : list nat) st :
  Forall2 (fun x p => safe pre post (Q x) p) xs ps -> Inv st ->
  Forall2 Q xs (promise_all w ps sched st).1 /\ Inv (promise_all w ps sched st).2.
Proof using issue_ok perform_ok.
  intros Hall Hinv. unfold promise_all.
  destruct (start_all_safe xs ps st Hall Hinv) as [Hpool Hinv1].
  destruct (start_all w ps st) as [pool st1].
  destruct (run_schedule_safe sched xs pool st1 Hpool Hinv1) as [Hpool' Hinv2].
  destruct (run_schedule w sched pool st1) as [pool' st2].
  by apply finish_all_safe.
Qed.
End Safety.

(** ** The lookups of a chunk in the safety logic *)

Section ServiceLogic.
Context (w : World) (J : string -> WarrantyInfo -> Prop).
Context (chunk : list string) (h0 : list event).

(** Every record a [try] block can return may be stored under its key. *)
Hypothesis J_resolved : forall s r, resolved_normally w s r -> J (cacheKey s) r.

Local Abbreviation pre := (service_pre J chunk).
Local Abbreviation post := (service_post w J).
Local Abbreviation Inv := (service_inv J chunk h0).

Lemma service_inv_emit e st : lookup_event_of chunk e -> Inv st -> Inv (emit e st).
Proof using Type.
  intros He [Hcache (evs & Htrace & Hevs)]. split; [done|].
  exists (evs ++ [e]). simpl. rewrite Htrace, <- app_assoc. split; [done|].
  apply Forall_app. split; [done|]. by constructor.
Qed.

Lemma service_issue_ok X (o : op X) st : pre X o -> Inv st -> Inv (issue o st).
Proof using Type.
  unfold issue.
  destruct o; simpl; try done; intros Hs Hinv;
    apply service_inv_emit; try done; by exists serial.
Qed.

Lemma service_perform_ok X (o : op X) st :
  pre X o -> Inv st -> post X o (perform w o st).1 /\ Inv (perform w o st).2.
Proof using Type.
  destruct o; simpl; intros Hpre Hinv.
  - split; [|done]. intros v Hv.
    apply cache_get_Some in Hv as (expires & Hl & _). destruct Hinv as [Hcache _].
    by eapply Hcache.
  - split; [done|]. destruct Hinv as [Hcache Htrace]. split; [|done].
    intros key' v' expires'. simpl.
    destruct (decide (key = key')) as [<-|Hne].
    + rewrite lookup_insert_eq. by intros [= <- _].
    + rewrite lookup_insert_ne by done. apply Hcache.
  - split; [by eexists|done].
  - done.
  - split; [done|]. apply service_inv_emit; [by exists serial|done].
  - split; [by eexists|]. apply service_inv_emit; [by exists serial|done].
  - split; [by eexists|]. apply service_inv_emit; [by exists serial|done].
  - split; [by eexists|]. apply service_inv_emit; [by exists serial|done].
  - done.
Qed.

(** [parseApiResponse] on a payload that passed the test of [tryApiMethod]. *)
Lemma parseApiResponse_safe s data :
  data <> VUndefined -> data <> VNull ->
  safe pre post
    (fun o => exists r st, o = Returned r /\
                           run w (parseApiResponse s data) st = (Returned r, st))
    (parseApiResponse s data).
Proof using Type.
  intros Hu Hn. unfold parseApiResponse.
  rewrite (get_defined data "data" Hu Hn). cbn [bind].
  destruct (truthy (member data "data")) eqn:Hd; cbn [negb bind].
  - rewrite (get_truthy _ "warranty" Hd). cbn [bind].
    destruct (truthy (member (member data "data") "warranty")) eqn:Hw; cbn [negb bind].
    + rewrite !(get_truthy _ _ Hw). cbn [bind].
      rewrite (get_truthy _ "product" Hd). cbn [bind eff safe].
      split; [done|]. intros endDate ->. split; [done|].
      intros today [h ->].
      eexists _, {| cache := ∅; trace := h |}. split; reflexivity.
    + cbn [safe]. eexists _, initial_state. split; reflexivity.
  - cbn [safe]. eexists _, initial_state. split; reflexivity.
Qed.

Lemma tryApiMethod_safe s :
  s ∈ chunk ->
  safe pre post
    (fun o => exists res, o = Returned res /\
                          forall r, res = Some r -> resolved_normally w s r)
    (tryApiMethod s).
Proof using Type.
  intros Hs. unfold tryApiMethod. apply safe_try_catch.
  cbn [bind eff safe]. split; [done|]. intros response [h Hresponse].
  destruct response as [e|data]; cbn [safe]; [by exists None|].
  assert (data = VUndefined \/ data = VNull \/ (data <> VUndefined /\ data <> VNull))
    as [->|[->|[Hu Hn]]] by (destruct data; auto);
    [by exists None | by exists None |].
  rewrite (get_defined data "status" Hu Hn), (get_defined data "data" Hu Hn).
  cbn [bind].
  destruct (strict_eq_str (member data "status") "success") eqn:Hstatus;
    cbn [bind safe]; [|by exists None].
  destruct (truthy (member data "data")) eqn:Hd; cbn [safe]; [|by exists None].
  apply safe_bind. eapply safe_mono; [|by apply parseApiResponse_safe].
  intros o (r & st & -> & Hr). cbn [safe]. exists (Some r). split; [done|].
  intros r' [= <-]. left. exists h, data, st. split_and!; [done | | done].
  simpl. by rewrite Hstatus, Hd.
Qed.

Lemma scraped_record_safe s d :
  safe pre post
    (fun o => exists r st, o = Returned r /\
                           run w (scraped_record s d) st = (Returned r, st))
    (scraped_record s d).
Proof using Type.
  unfold scraped_record.
  destruct (truthy (VStr (wd_warrantyEndDate d))).
  - cbn [bind eff safe]. split; [done|]. intros endDate ->. split; [done|].
    intros today [h ->]. eexists _, {| cache := ∅; trace := h |}. split; reflexivity.
  - destruct (truthy (VStr (wd_errorMessage d))); cbn [bind safe];
      eexists _, initial_state; split; reflexivity.
Qed.

Lemma scrapeWarrantyInfo_safe s :
  s ∈ chunk ->
  safe pre post
    (fun o => match o with
              | Returned r => resolved_normally w s r
              | Threw e =>
                  exists h h',
                    scrape_exception (browser_run w h s) (page_close w h' s) = Some e
              end)
    (scrapeWarrantyInfo s).
Proof using Type.
  intros Hs. unfold scrapeWarrantyInfo. cbn [bind eff safe]. split; [done|].
  intros session [h Hsession].
  destruct session as [e| |steps]; cbn [safe].
  - exists h, []. by rewrite <- Hsession.
  - exists h, []. by rewrite <- Hsession.
  - apply safe_finally.
    assert (forall (o : outcome WarrantyInfo),
              match o with
              | Returned r =>
                  exists d st, steps = Extracted d /\
                               run w (scraped_record s d) st = (Returned r, st)
              | Threw e => scrape_exception (PageOpened steps) None = Some e
              end ->
              safe pre post
                (fun o' : outcome unit =>
                   match o' with
                   | Returned _ =>
                       match o with
                       | Returned r => resolved_normally w s r
                       | Threw e =>
                           exists h h',
                             scrape_exception (browser_run w h s) (page_close w h' s)
                             = Some e
                       end
                   | Threw e' =>
                       exists h h',
                         scrape_exception (browser_run w h s) (page_close w h' s)
                         = Some e'
                   end)
                (close_page s)) as Hclose.
    { intros o Ho. unfold close_page. cbn [bind eff safe]. split; [done|].
      intros closed [h' Hclosed]. destruct closed as [e'|]; cbn [safe].
      - exists h, h'. by rewrite <- Hsession, <- Hclosed.
      - destruct o as [r|e].
        + destruct Ho as (d & st & -> & Hr). right. by exists h, h', d, st.
        + exists h, h'. by rewrite <- Hsession, <- Hclosed. }
    destruct steps as [e| | |d]; cbn [on_page safe];
      [by apply (Hclose (Threw _)).. |].
    eapply safe_mono; [|apply scraped_record_safe].
    intros o (r & st & -> & Hr). apply (Hclose (Returned r)). by exists d, st.
Qed.

(** A lookup never throws: it ends in a record that may be stored under the
    key of its serial, or in the record of the [catch] block. *)
Lemma checkSingleWarranty_safe s :
  s ∈ chunk -> safe pre post (lookup_post w J s) (checkSingleWarranty s).
Proof using J_resolved.
  intros Hs. unfold checkSingleWarranty. cbn [bind eff safe]. split; [done|].
  intros cached Hcached. destruct cached as [cached|]; cbn [safe].
  { exists cached. split; [done|]. left. by apply Hcached. }
  apply safe_try_catch. unfold checkSingleWarranty_try. apply safe_bind.
  eapply safe_mono; [|by apply tryApiMethod_safe].
  intros o (res & -> & Hres). destruct res as [r|].
  - cbn [bind eff safe]. split; [by apply J_resolved, Hres|].
    intros _ _. exists r. split; [done|]. left. by apply J_resolved, Hres.
  - apply safe_bind. eapply safe_mono; [|by apply scrapeWarrantyInfo_safe].
    intros [r|e] Ho.
    + cbn [bind eff safe]. split; [by apply J_resolved|].
      intros _ _. exists r. split; [done|]. left. by apply J_resolved.
    + unfold checkSingleWarranty_catch. cbn [bind eff safe]. split; [done|].
      intros _ _. eexists. split; [done|]. right.
      destruct Ho as (h & h' & He). by exists h, h', e.
Qed.
End ServiceLogic.

(** ** Calls made and calls settled *)

Section Balance.
Context (w : World) (c : call).

Lemma issued_app evs evs' : issued c (evs ++ evs') = issued c evs + issued c evs'.
Proof. apply count_occ_app. Qed.

Lemma settled_app evs evs' : settled c (evs ++ evs') = settled c evs + settled c evs'.
Proof. apply count_occ_app. Qed.

Lemma issued_singleton e : issued c [e] = if decide (e = EvIssue c) then 1 else 0.
Proof.
  unfold issued. cbn [count_occ].
  destruct (event_eq_dec e (EvIssue c)); by case_decide.
Qed.

Lemma settled_singleton e : settled c [e] = if decide (e = EvSettle c) then 1 else 0.
Proof.
  unfold settled. cbn [count_occ].
  destruct (event_eq_dec e (EvSettle c)); by case_decide.
Qed.

(** Performing an operation adds no call, and settles the call of an awaited
    operation. *)
Lemma perform_events {X : Type} (o : op X) st :
  exists evs,
    trace (perform w o st).2 = trace st ++ evs /\
    issued c evs = 0 /\
    settled c evs = if decide (call_of o = Some c) then 1 else 0.
Proof.
  destruct o; cbn [perform call_of snd emit trace];
    first [ exists []; rewrite app_nil_r; split_and!; [reflexivity | |]
          | eexists [_]; split_and!; [reflexivity | |] ];
    rewrite ?issued_singleton, ?settled_singleton;
    repeat case_decide; (done || congruence).
Qed.

Lemma issue_events {X : Type} (o : op X) st :
  exists evs,
    trace (issue o st) = trace st ++ evs /\
    issued c evs = (if decide (call_of o = Some c) then 1 else 0) /\
    settled c evs = 0.
Proof.
  unfold issue. destruct (call_of o) as [c'|].
  - eexists [_]. split_and!; [done | |].
    + rewrite issued_singleton. repeat case_decide; congruence.
    + rewrite settled_singleton. by case_decide.
  - exists []. rewrite app_nil_r. split_and!; [done | | done]. by case_decide.
Qed.

Lemma run_events {A : Type} (p : prog A) st :
  exists evs, trace (run w p st).2 = trace st ++ evs /\ issued c evs = settled c evs.
Proof.
  revert st. induction p as [a|e|X o k IH]; intros st; simpl;
    [exists []; by rewrite app_nil_r.. |].
  destruct (issue_events o st) as (ev1 & Ht1 & Hi1 & Hs1).
  destruct (perform_events o (issue o st)) as (ev2 & Ht2 & Hi2 & Hs2).
  destruct (perform w o (issue o st)) as [x st']. simpl in *.
  destruct (IH x st') as (ev3 & Ht3 & Hbal).
  exists (ev1 ++ ev2 ++ ev3). rewrite Ht3, Ht2, Ht1, <- !app_assoc.
  split; [done|]. rewrite !issued_app, !settled_app. lia.
Qed.

Lemma run_sync_events {A : Type} (p : prog A) st :
  exists evs,
    trace (run_sync w p st).2 = trace st ++ evs /\
    issued c evs = awaits c (run_sync w p st).1 /\
    settled c evs = 0.
Proof.
  revert st. induction p as [a|e|X o k IH]; intros st; simpl;
    [exists []; by rewrite app_nil_r.. |].
  destruct (call_of o) as [c'|] eqn:Hcall.
  - eexists [_]. cbn [fst snd emit trace awaits]. rewrite Hcall. split_and!; [done | |].
    + rewrite issued_singleton. repeat case_decide; congruence.
    + rewrite settled_singleton. by case_decide.
  - destruct (perform_events o st) as (ev1 & Ht1 & Hi1 & Hs1).
    rewrite Hcall in Hs1. rewrite decide_False in Hs1 by done.
    destruct (perform w o st) as [x st']. simpl in *.
    destruct (IH x st') as (ev2 & Ht2 & Hi2 & Hs2).
    exists (ev1 ++ ev2). rewrite Ht2, Ht1, <- app_assoc.
    split; [done|]. rewrite issued_app, settled_app. lia.
Qed.

Lemma resume_events {A : Type} (p : prog A) st :
  exists evs,
    trace (resume w p st).2 = trace st ++ evs /\
    issued c evs + awaits c p = settled c evs + awaits c (resume w p st).1.
Proof.
  destruct p as [a|e|X o k]; simpl; [exists []; by rewrite app_nil_r.. |].
  destruct (perform_events o st) as (ev1 & Ht1 & Hi1 & Hs1).
  destruct (perform w o st) as [x st']. simpl in *.
  destruct (run_sync_events (k x) st') as (ev2 & Ht2 & Hi2 & Hs2).
  exists (ev1 ++ ev2). rewrite Ht2, Ht1, <- app_assoc.
  split; [done|]. rewrite issued_app, settled_app. lia.
Qed.

Lemma finish_events {A : Type} (p : prog A) st :
  exists evs,
    trace (finish w p st).2 = trace st ++ evs /\
    issued c evs + awaits c p = settled c evs.
Proof.
  destruct p as [a|e|X o k]; simpl; [exists []; by rewrite app_nil_r.. |].
  destruct (perform_events o st) as (ev1 & Ht1 & Hi1 & Hs1).
  destruct (perform w o st) as [x st']. simpl in *.
  destruct (run_events (k x) st') as (ev2 & Ht2 & Hbal).
  exists (ev1 ++ ev2). rewrite Ht2, Ht1, <- app_assoc.
  split; [done|]. rewrite issued_app, settled_app. lia.
Qed.

Lemma start_all_events {A : Type} (ps : list (prog A)) st :
  exists evs,
    trace (start_all w ps st).2 = trace st ++ evs /\
    issued c evs = pending c (start_all w ps st).1 /\
    settled c evs = 0.
Proof.
  revert st. induction ps as [|p ps IH]; intros st; simpl;
    [exists []; by rewrite app_nil_r|].
  destruct (run_sync_events p st) as (ev1 & Ht1 & Hi1 & Hs1).
  destruct (run_sync w p st) as [p' st1]. simpl in *.
  destruct (IH st1) as (ev2 & Ht2 & Hi2 & Hs2).
  destruct (start_all w ps st1) as [rest st2]. simpl in *.
  exists (ev1 ++ ev2). rewrite Ht2, Ht1, <- app_assoc.
  split; [done|]. unfold pending in *. simpl. rewrite issued_app, settled_app. lia.
Qed.

Lemma pending_insert {A : Type} (pool : list (prog A)) i (p p' : prog A) :
  pool !! i = Some p ->
  pending c (<[i := p']> pool) + awaits c p = pending c pool + awaits c p'.
Proof.
  unfold pending. revert i. induction pool as [|q pool IH]; intros [|i]; simpl; try done.
  - intros [= ->]. lia.
  - intros Hp. specialize (IH i Hp). lia.
Qed.

Lemma run_schedule_events {A : Type} (sched : list nat) (pool : list (prog A)) st :
  exists evs,
    trace (run_schedule w sched pool st).2 = trace st ++ evs /\
    issued c evs + pending c pool
    = settled c evs + pending c (run_schedule w sched pool st).1.
Proof.
  revert pool st. induction sched as [|i sched IH]; intros pool st; simpl;
    [exists []; by rewrite app_nil_r|].
  destruct (pool !! i) as [p|] eqn:Hp; [|apply IH].
  destruct (resume_events p st) as (ev1 & Ht1 & Hbal1).
  destruct (resume w p st) as [p' st']. simpl in *.
  destruct (IH (<[i := p']> pool) st') as (ev2 & Ht2 & Hbal2).
  exists (ev1 ++ ev2). rewrite Ht2, Ht1, <- app_assoc.
  split; [done|]. rewrite issued_app, settled_app.
  pose proof (pending_insert pool i p p' Hp). lia.
Qed.

Lemma finish_all_events {A : Type} (pool : list (prog A)) st :
  exists evs,
    trace (finish_all w pool st).2 = trace st ++ evs /\
    issued c evs + pending c pool = settled c evs.
Proof.
  revert st. induction pool as [|p pool IH]; intros st; simpl;
    [exists []; by rewrite app_nil_r|].
  destruct (finish_events p st) as (ev1 & Ht1 & Hbal1).
  destruct (finish w p st) as [r st1]. simpl in *.
  destruct (IH st1) as (ev2 & Ht2 & Hbal2).
  destruct (finish_all w pool st1) as [rs st2]. simpl in *.
  exists (ev1 ++ ev2). rewrite Ht2, Ht1, <- app_assoc.
  split; [done|]. unfold pending in *. simpl. rewrite issued_app, settled_app. lia.
Qed.

(** When [Promise.all] has settled, every call its tasks made has settled. *)
Lemma promise_all_events {A : Type} (ps : list (prog A)) (sched : list nat) st :
  exists evs,
    trace (promise_all w ps sched st).2 = trace st ++ evs /\
    issued c evs = settled c evs.
Proof.
  unfold promise_all.
  destruct (start_all_events ps st) as (ev1 & Ht1 & Hi1 & Hs1).
  destruct (start_all w ps st) as [pool st1]. simpl in *.
  destruct (run_schedule_events sched pool st1) as (ev2 & Ht2 & Hbal2).
  destruct (run_schedule w sched pool st1) as [pool' st2]. simpl in *.
  destruct (finish_all_events pool' st2) as (ev3 & Ht3 & Hbal3).
  exists (ev1 ++ ev2 ++ ev3). rewrite Ht3, Ht2, Ht1, <- !app_assoc.
  split; [done|]. rewrite !issued_app, !settled_app. lia.
Qed.
End Balance.

(** ** A batch *)

Section Batch.
Context (w : World) (J : string -> WarrantyInfo -> Prop).
Hypothesis J_resolved : forall s r, resolved_normally w s r -> J (cacheKey s) r.

Lemma fulfilled_returned {I A : Type} (P : I -> A -> Prop) (xs : list I)
  (rs : list (outcome A)) :
  Forall2 (fun x o => exists a, o = Returned a /\ P x a) xs rs ->
  exists l, fulfilled rs = Returned l /\ Forall2 P xs l.
Proof using Type.
  induction 1 as [|x o xs rs (a & -> & Ha) _ (l & IH & Hl)]; simpl.
  - by exists [].
  - rewrite IH. exists (a :: l). split; [done|]. by constructor.
Qed.

(** The lookups of one chunk, whatever the order in which they are resumed:
    all of them return, entry by entry in the order of the chunk, and what
    they add to the history are events of lookups of the chunk. *)
Lemma chunk_lookups (chunk : list string) (sched : list nat) (st : State) :
  cache_within J st ->
  exists chunkResults seg,
    fulfilled (promise_all w (map checkSingleWarranty chunk) sched st).1
    = Returned chunkResults /\
    Forall2 (entry_for w J) chunk chunkResults /\
    cache_within J (promise_all w (map checkSingleWarranty chunk) sched st).2 /\
    trace (promise_all w (map checkSingleWarranty chunk) sched st).2 = trace st ++ seg /\
    chunk_segment chunk seg.
Proof using J_resolved.
  intros Hcache.
  destruct (promise_all_safe w (service_inv J chunk (trace st))
              (service_pre J chunk) (service_post w J)
              (service_issue_ok J chunk (trace st))
              (service_perform_ok w J chunk (trace st))
              (lookup_post w J) chunk (map checkSingleWarranty chunk) sched st)
    as [Hsettled [Hcache' (seg & Htrace & Hseg)]].
  - apply Forall2_fmap_r, Forall_Forall2_diag, Forall_forall.
    intros s Hs. by apply checkSingleWarranty_safe.
  - split; [done|]. exists []. by rewrite app_nil_r.
  - destruct (fulfilled_returned (entry_for w J) chunk _ Hsettled) as (l & Hl & Hentries).
    exists l, seg. split_and!; try done. split; [done|]. intros c.
    destruct (promise_all_events w c (map checkSingleWarranty chunk) sched st)
      as (seg' & Htrace' & Hbalance).
    rewrite Htrace in Htrace'. by apply app_inv_head in Htrace' as ->.
Qed.

Lemma delay_run (ms : Z) (st : State) :
  run w (delay ms) st = (Returned tt, after_call (CTimeout ms) st).
Proof using Type. reflexivity. Qed.

(** The loop of [checkWarrantyBatch] returns, appends one entry per serial in
    order, and its history is paced chunk by chunk. *)
Lemma checkWarrantyBatch_loop_spec (chunks : list (list string)) (scheds : list (list nat))
  (results : list WarrantyInfo) (st : State) :
  cache_within J st ->
  exists results' st' segs,
    checkWarrantyBatch_loop w chunks scheds results st
    = (Returned (results ++ results'), st') /\
    Forall2 (entry_for w J) (concat chunks) results' /\
    cache_within J st' /\
    Forall2 chunk_segment chunks segs /\
    trace st' = trace st ++ paced segs.
Proof using J_resolved.
  revert scheds results st.
  induction chunks as [|chunk chunks IH]; intros scheds results st Hcache;
    cbn [checkWarrantyBatch_loop].
  { exists [], st, []. rewrite !app_nil_r. by split_and!. }
  destruct (chunk_lookups chunk (hd [] scheds) st Hcache)
    as (chunkResults & seg & Hfulfilled & Hentries & Hcache1 & Htrace1 & Hseg).
  destruct (promise_all w (map checkSingleWarranty chunk) (hd [] scheds) st)
    as [settled st1]. cbn [fst snd] in *.
  rewrite Hfulfilled, delay_run.
  destruct (IH (tl scheds) (results ++ chunkResults) (after_call (CTimeout 2000) st1))
    as (results' & st' & segs & Hloop & Hentries' & Hcache' & Hsegs & Htrace'); [done|].
  exists (chunkResults ++ results'), st', (seg :: segs).
  rewrite Hloop, <- app_assoc. split_and!; try done.
  - by apply Forall2_app.
  - by constructor.
  - rewrite Htrace', after_call_eq. cbn [trace]. rewrite Htrace1.
    unfold paced. simpl. by rewrite <- !app_assoc.
Qed.
End Batch.

Lemma answers_defined (data : jsval) :
  answers (AxiosResolved data) = true -> data <> VUndefined /\ data <> VNull.
Proof. by destruct data. Qed.

Lemma resolved_normally_serial (w : World) (s : string) (r : WarrantyInfo) :
  resolved_normally w s r -> serialNumber r = s.
Proof.
  intros [(h & data & st & _ & Hanswers & Hrun)|(h & h' & d & st & _ & _ & Hrun)].
  - apply answers_defined in Hanswers as [Hu Hn].
    destruct (parseApiResponse_run w s data st Hu Hn) as (r' & Hrun' & Hs & _).
    rewrite Hrun in Hrun'. by injection Hrun' as ->.
  - destruct (scraped_record_run w s d st) as (r' & Hrun' & Hs & _).
    rewrite Hrun in Hrun'. by injection Hrun' as ->.
Qed.

Lemma resolved_as_error_serial (w : World) (s : string) (r : WarrantyInfo) :
  resolved_as_error w s r -> serialNumber r = s.
Proof. by intros (h & h' & e & _ & ->). Qed.

(** C5.  In a service whose cache holds under each serial's key a record of
    that serial, [checkWarrantyBatch] returns, whatever the order in which
    the lookups of each chunk are resumed, a list as long as its input whose
    i-th record has the i-th serial. *)
Theorem checkWarrantyBatch_order (w : World) (serialNumbers : list string)
  (scheds : list (list nat)) (st : State) :
  cache_ok st ->
  exists results st',
    checkWarrantyBatch w serialNumbers scheds st = Some (Returned results, st') /\
    length results = length serialNumbers /\
    (forall i s, serialNumbers !! i = Some s ->
                 exists r, results !! i = Some r /\ serialNumber r = s) /\
    cache_ok st'.
Proof.
  intros Hok. unfold checkWarrantyBatch.
  destruct (chunkArray_spec serialNumbers 10) as (chunks & -> & Hcat & _); [lia|].
  set (J := fun (key : string) (v : WarrantyInfo) =>
              forall s, key = cacheKey s -> serialNumber v = s).
  assert (forall s r, resolved_normally w s r -> J (cacheKey s) r) as HJ.
  { intros s r Hr s' Hkey. apply cacheKey_inj in Hkey as <-.
    by apply resolved_normally_serial in Hr. }
  destruct (checkWarrantyBatch_loop_spec w J HJ chunks scheds [] st)
    as (results & st' & segs & Hloop & Hentries & Hcache & _).
  { intros key v expires Hl s ->. by apply Hok in Hl. }
  rewrite Hcat in Hentries. exists results, st'. split_and!.
  - by rewrite Hloop.
  - symmetry. by eapply Forall2_length.
  - intros i s Hi.
    destruct (Forall2_lookup_l _ _ _ _ _ Hentries Hi) as (r & Hr & [Hs|Hs]).
    + exists r. split; [done|]. by apply Hs.
    + exists r. split; [done|]. by apply resolved_as_error_serial in Hs.
  - intros s r expires Hl. by eapply Hcache.
Qed.

Lemma checkWarrantyBatch_order_witness :
  cache_ok initial_state /\
  exists results st',
    checkWarrantyBatch scraping_world sample_batch sample_schedule initial_state
    = Some (Returned results, st') /\
    length results = length sample_batch /\
    (forall i s, sample_batch !! i = Some s ->
                 exists r, results !! i = Some r /\ serialNumber r = s) /\
    cache_ok st'.
Proof.
  split; [apply cache_ok_initial|].
  apply (checkWarrantyBatch_order scraping_world sample_batch sample_schedule initial_state).
  apply cache_ok_initial.
Defined.

(** C4.  No exception leaves [checkSingleWarranty].  In a service whose cache
    holds records of [try] blocks, a batch returns one entry per serial,
    whatever the schedule: the entry of a serial for which the structured
    source never answers and the scrape source always throws [e] is the
    'Error' record with the message of [e], the entry of a serial for which
    the scrape source never throws is a record of a [try] block, every entry
    is one or the other, and the cache still holds records of [try] blocks. *)
Theorem checkWarrantyBatch_contains_failures (w : World) (serialNumbers : list string)
  (scheds : list (list nat)) (st : State) :
  cache_resolved w st ->
  (forall s st0, exists r st0', run w (checkSingleWarranty s) st0 = (Returned r, st0')) /\
  exists results st',
    checkWarrantyBatch w serialNumbers scheds st = Some (Returned results, st') /\
    length results = length serialNumbers /\
    (forall i s e,
       serialNumbers !! i = Some s ->
       (forall h, answers (axios_post w h s) = false) ->
       (forall h h', scrape_exception (browser_run w h s) (page_close w h' s) = Some e) ->
       results !! i = Some (bare_record s Error (VStr (message_of e)))) /\
    (forall i s,
       serialNumbers !! i = Some s ->
       (forall h h', scrape_exception (browser_run w h s) (page_close w h' s) = None) ->
       exists r, results !! i = Some r /\ resolved_normally w s r) /\
    (forall i s,
       serialNumbers !! i = Some s ->
       exists r, results !! i = Some r /\
                 (resolved_normally w s r \/ resolved_as_error w s r)) /\
    cache_resolved w st'.
Proof.
  intros Hok. split.
  { intros s st0. rewrite checkSingleWarranty_run.
    destruct (cache_get w (cacheKey s) st0); [by eexists _, _|].
    by destruct (run w (checkSingleWarranty_try s) st0) as [[r|e] st0']; eexists _, _. }
  unfold checkWarrantyBatch.
  destruct (chunkArray_spec serialNumbers 10) as (chunks & -> & Hcat & _); [lia|].
  set (J := fun (key : string) (v : WarrantyInfo) =>
              forall s, key = cacheKey s -> resolved_normally w s v).
  assert (forall s r, resolved_normally w s r -> J (cacheKey s) r) as HJ.
  { intros s r Hr s' Hkey. by apply cacheKey_inj in Hkey as <-. }
  destruct (checkWarrantyBatch_loop_spec w J HJ chunks scheds [] st)
    as (results & st' & segs & Hloop & Hentries & Hcache & _).
  { intros key v expires Hl s ->. by apply Hok in Hl. }
  rewrite Hcat in Hentries.
  assert (forall i s, serialNumbers !! i = Some s ->
            exists r, results !! i = Some r /\
                      (resolved_normally w s r \/ resolved_as_error w s r)) as Heach.
  { intros i s Hi.
    destruct (Forall2_lookup_l _ _ _ _ _ Hentries Hi) as (r & Hr & [Hn|He]).
    - exists r. split; [done|]. left. by apply Hn.
    - exists r. split; [done|]. by right. }
  exists results, st'. split_and!.
  - by rewrite Hloop.
  - symmetry. by eapply Forall2_length.
  - intros i s e Hi Hapi Hscrape. destruct (Heach i s Hi) as (r & Hr & [Hn|He]).
    + exfalso.
      destruct Hn as [(h & data & st0 & Hpost & Hanswers & _)
                     |(h & h' & d & st0 & Hrun & Hclose & _)].
      * specialize (Hapi h). rewrite Hpost in Hapi. congruence.
      * specialize (Hscrape h h'). rewrite Hrun, Hclose in Hscrape. discriminate Hscrape.
    + destruct He as (h & h' & e' & He' & ->). rewrite Hscrape in He'.
      by injection He' as <-.
  - intros i s Hi Hscrape. destruct (Heach i s Hi) as (r & Hr & [Hn|He]).
    + by exists r.
    + destruct He as (h & h' & e' & He' & _). by rewrite Hscrape in He'.
  - done.
  - intros s r expires Hl. by eapply Hcache.
Qed.

Lemma checkWarrantyBatch_contains_failures_witness :
  cache_resolved scraping_world initial_state /\
  sample_batch !! 2 = Some "PF0BROKEN" /\
  exists results st',
    checkWarrantyBatch scraping_world sample_batch sample_schedule initial_state
    = Some (Returned results, st') /\
    length results = length sample_batch /\
    results !! 2 = Some (bare_record "PF0BROKEN" Error
                           (VStr "Navigation timeout of 30000 ms exceeded")).
Proof.
  assert (cache_resolved scraping_world initial_state) as Hok.
  { intros s r expires. simpl. by rewrite lookup_empty. }
  split; [exact Hok|]. split; [reflexivity|].
  destruct (checkWarrantyBatch_contains_failures scraping_world sample_batch
              sample_schedule initial_state Hok)
    as (_ & results & st' & Hrun & Hlen & Herror & _).
  exists results, st'. split; [exact Hrun|]. split; [exact Hlen|].
  apply (Herror 2 "PF0BROKEN" (JsError "Navigation timeout of 30000 ms exceeded"));
    [reflexivity | reflexivity |].
  intros h h'. reflexivity.
Defined.

(** C8.  Whatever the schedule, the history of [checkWarrantyBatch] is, chunk
    by chunk, the events of the lookups of the chunk followed by the two
    events of [delay(2000)]: when the timer is set every call the lookups of
    the chunk made has settled, and no event of a lookup of the next chunk
    comes before the timer has fired. *)
Theorem checkWarrantyBatch_paced (w : World) (serialNumbers : list string)
  (scheds : list (list nat)) (st : State) :
  exists chunks results st' segs,
    chunkArray serialNumbers 10 = Some chunks /\
    checkWarrantyBatch w serialNumbers scheds st = Some (Returned results, st') /\
    Forall2 chunk_segment chunks segs /\
    trace st' = trace st ++ paced segs.
Proof.
  unfold checkWarrantyBatch.
  destruct (chunkArray_spec serialNumbers 10) as (chunks & Hchunks & _); [lia|].
  rewrite Hchunks.
  destruct (checkWarrantyBatch_loop_spec w (fun _ _ => True) (fun _ _ _ => I)
              chunks scheds [] st)
    as (results & st' & segs & Hloop & _ & _ & Hsegs & Htrace); [done|].
  exists chunks, results, st', segs. by rewrite Hloop.
Qed.

(** * Further properties of the service *)

(** ** The effect of one lookup on the cache *)

(** What the [try] block leaves behind: the history has grown by the request
    to the structured source at least, and the cache is what it was or holds
    the returned record under the key of the serial, for 3600 seconds from
    the moment of the write. *)
Lemma checkSingleWarranty_try_effect (w : World) (s : string) (st : State) :
  exists o st' evs,
    run w (checkSingleWarranty_try s) st = (o, st') /\
    trace st' = trace st ++ EvIssue (CAxiosPost s) :: evs /\
    match o with
    | Returned r =>
        cache st' =
        <[cacheKey s := (r, (Date_now w (trace st') + CACHE_TTL * 1000)%Z)]> (cache st)
    | Threw _ => cache st' = cache st
    end.
Proof.
  destruct (checkSingleWarranty_try_cases w s st)
    as [(r & _ & _ & ->)|(o & closing & _ & _ & _ & _ & ->)].
  - eexists _, _, _. split; [reflexivity|]. rewrite after_call_eq. by split.
  - destruct o as [r|e]; eexists _, _, _; (split; [reflexivity|]); by split.
Qed.

(** A lookup returns, and writes the cache at most once: under the key of
    its own serial, the record it returns, to expire 3600 seconds after the
    write.  Every other key is left as it was. *)
Theorem lookup_cache_effect (w : World) (s : string) (st : State) :
  exists r st',
    run w (checkSingleWarranty s) st = (Returned r, st') /\
    (cache st' = cache st \/
     cache st' =
     <[cacheKey s := (r, (Date_now w (trace st') + CACHE_TTL * 1000)%Z)]> (cache st)) /\
    forall key, key <> cacheKey s -> cache st' !! key = cache st !! key.
Proof.
  rewrite checkSingleWarranty_run.
  destruct (cache_get w (cacheKey s) st) as [cached|].
  { exists cached, st. split_and!; [done | by left | done]. }
  destruct (checkSingleWarranty_try_effect w s st) as (o & st' & evs & -> & _ & Hcache).
  destruct o as [r|e].
  - exists r, st'. split_and!; [done | by right |].
    intros key Hkey. by rewrite Hcache, lookup_insert_ne.
  - eexists _, _. split_and!; [done | by left |]. intros key _. simpl. by rewrite Hcache.
Qed.

(** A lookup leaves the service exactly as it was, history included, if and
    only if the cache holds an entry for the serial that has not expired: an
    entry is still served at its expiry time, and no longer after it. *)
Theorem lookup_untouched_iff_live_entry (w : World) (s : string) (st : State) :
  (exists r, run w (checkSingleWarranty s) st = (Returned r, st)) <->
  (exists r expires,
     cache st !! cacheKey s = Some (r, expires) /\ (Date_now w (trace st) <= expires)%Z).
Proof.
  rewrite checkSingleWarranty_run. split.
  - intros (r & Hrun).
    destruct (cache_get w (cacheKey s) st) as [cached|] eqn:Hget.
    { apply cache_get_Some in Hget as (expires & Hl & Hle). by exists cached, expires. }
    exfalso.
    destruct (checkSingleWarranty_try_effect w s st) as (o & st' & evs & Htry & Htrace & _).
    rewrite Htry in Hrun.
    assert (trace st = trace st ++ EvIssue (CAxiosPost s) :: evs \/
            trace st = (trace st ++ EvIssue (CAxiosPost s) :: evs) ++ [EvConsoleError s])
      as Habs.
    { destruct o as [r'|e]; injection Hrun as _ Hst; subst st.
      - by left.
      - right. simpl in *. by rewrite <- Htrace. }
    destruct Habs as [Habs|Habs]; apply (f_equal length) in Habs;
      rewrite ?length_app in Habs; simpl in Habs; lia.
  - intros (r & expires & Hl & Hle). exists r.
    unfold cache_get. rewrite Hl.
    by destruct (Z.ltb_spec expires (Date_now w (trace st))); [lia|].
Qed.

(** ** The page of a scrape *)

(** How a scrape ends, by what the browser did ([session]) and how
    [page.close()] settled ([closed]). *)
Lemma scrapeWarrantyInfo_outcome (w : World) (s : string) (st : State) :
  let st1 := after_call (CBrowser s) st in
  match browser_run w (trace st ++ [EvIssue (CBrowser s)]) s with
  | PageOpened steps =>
      let closed := page_close w (trace st1 ++ [EvIssue (CPageClose s)]) s in
      exists o,
        run w (scrapeWarrantyInfo s) st = (o, after_call (CPageClose s) st1) /\
        match scrape_exception (PageOpened steps) closed with
        | Some e => o = Threw e
        | None => exists r, o = Returned r /\ serialNumber r = s
        end
  | session =>
      exists e,
        scrape_exception session None = Some e /\
        run w (scrapeWarrantyInfo s) st = (Threw e, st1)
  end.
Proof.
  intros st1. unfold scrapeWarrantyInfo. rewrite run_bind.
  cbn [eff run issue call_of perform]. fold (after_call (CBrowser s) st). fold st1.
  cbn [emit trace].
  destruct (browser_run w (trace st ++ [EvIssue (CBrowser s)]) s) as [e| |steps];
    cbn [run]; [by eexists.. |].
  rewrite run_finally.
  assert (exists o1, run w (on_page s steps) st1 = (o1, st1) /\
                     match o1 with
                     | Returned r =>
                         serialNumber r = s /\
                         scrape_exception (PageOpened steps) None = None
                     | Threw e => scrape_exception (PageOpened steps) None = Some e
                     end) as (o1 & -> & Ho1).
  { destruct steps as [e| | |d]; cbn [on_page run]; try (eexists; by split).
    destruct (scraped_record_run w s d st1) as (r & -> & Hs & _). by exists (Returned r). }
  unfold close_page. rewrite run_bind. cbn [eff run issue call_of perform].
  fold (after_call (CPageClose s) st1). cbn [emit trace].
  destruct (page_close w (trace st1 ++ [EvIssue (CPageClose s)]) s) as [e'|]; cbn [run].
  - destruct o1; eexists; by split.
  - destruct o1 as [r|e]; eexists; (split; [reflexivity|]).
    + destruct Ho1 as [Hs Hnone]. rewrite Hnone. by exists r.
    + by rewrite Ho1.
Qed.

(** A scrape closes the page exactly when it opened one: [page.close()] is
    called once after [newPage()] produced a page, whether the steps on the
    page succeeded or threw, and never when no page was opened; the call is
    awaited to its end.  (How often a browser is launched is not part of the
    statement: [initBrowser] lies inside the browser call of the model.) *)
Theorem scrape_closes_the_page_it_opened (w : World) (s : string) (st : State) :
  exists o st' evs,
    run w (scrapeWarrantyInfo s) st = (o, st') /\
    trace st' = trace st ++ evs /\
    issued (CPageClose s) evs =
      match browser_run w (trace st ++ [EvIssue (CBrowser s)]) s with
      | PageOpened _ => 1
      | _ => 0
      end /\
    settled (CPageClose s) evs = issued (CPageClose s) evs.
Proof.
  pose proof (scrapeWarrantyInfo_outcome w s st) as Hout. cbn zeta in Hout.
  destruct (browser_run w (trace st ++ [EvIssue (CBrowser s)]) s) as [e| |steps].
  - destruct Hout as (e' & _ & ->). eexists _, _, _. split; [reflexivity|].
    rewrite after_call_eq. cbn [trace]. split; [reflexivity|].
    unfold issued, settled. simpl. by repeat case_decide.
  - destruct Hout as (e' & _ & ->). eexists _, _, _. split; [reflexivity|].
    rewrite after_call_eq. cbn [trace]. split; [reflexivity|].
    unfold issued, settled. simpl. by repeat case_decide.
  - destruct Hout as (o & -> & _). eexists _, _, _. split; [reflexivity|].
    rewrite !after_call_eq. cbn [trace]. rewrite <- app_assoc. split; [reflexivity|].
    unfold issued, settled. simpl. by repeat case_decide.
Qed.

(** An exception of [page.close()] replaces what the page gave: even when
    the page was read, the lookup ends in the 'Error' record with the message
    of that exception, and nothing is cached. *)
Theorem close_failure_loses_the_record (w : World) (s : string) (st : State)
  (steps : page_steps) (e' : thrown) :
  let st1 := after_call (CAxiosPost s) st in
  let st2 := after_call (CBrowser s) st1 in
  cache_get w (cacheKey s) st = None ->
  fst (run w (tryApiMethod s) st) = Returned None ->
  browser_run w (trace st1 ++ [EvIssue (CBrowser s)]) s = PageOpened steps ->
  page_close w (trace st2 ++ [EvIssue (CPageClose s)]) s = Some e' ->
  exists st',
    run w (checkSingleWarranty s) st
    = (Returned (bare_record s Error (VStr (message_of e'))), st') /\
    cache st' = cache st.
Proof.
  intros st1 st2 Hget Hapi Hsession Hclosed.
  rewrite checkSingleWarranty_run, Hget, checkSingleWarranty_try_run.
  destruct (tryApiMethod_run w s st) as (res & Hrun & _). rewrite Hrun in Hapi |- *.
  injection Hapi as ->. fold st1.
  pose proof (scrapeWarrantyInfo_outcome w s st1) as Hout. cbn zeta in Hout.
  rewrite Hsession in Hout. fold st2 in Hout. rewrite Hclosed in Hout.
  destruct Hout as (o & -> & ->). eexists. split; [reflexivity|].
  subst st2 st1. by rewrite !after_call_eq.
Qed.

Lemma close_failure_loses_the_record_witness :
  cache_get stuck_page_world (cacheKey "PF2ABCDE") initial_state = None /\
  fst (run stuck_page_world (tryApiMethod "PF2ABCDE") initial_state) = Returned None /\
  exists st',
    run stuck_page_world (checkSingleWarranty "PF2ABCDE") initial_state
    = (Returned (bare_record "PF2ABCDE" Error (VStr "Protocol error: Target closed")), st') /\
    cache st' = cache initial_state.
Proof.
  split; [reflexivity|]. split; [reflexivity|].
  apply (close_failure_loses_the_record stuck_page_world "PF2ABCDE" initial_state
           (Extracted
              {| wd_productName := "ThinkPad T14";
                 wd_productType := "Laptop";
                 wd_warrantyStartDate := "2020-11-20";
                 wd_warrantyEndDate := "2023-11-20";
                 wd_warrantyType := "Depot";
                 wd_warrantyStatus := "";
                 wd_errorMessage := "" |})
           (JsError "Protocol error: Target closed")); reflexivity.
Defined.

(** ** The lookups of a chunk start together *)

Lemma run_sync_uncached_lookup (w : World) (s : string) (st : State) :
  cache st !! cacheKey s = None ->
  (run_sync w (checkSingleWarranty s) st).2 = emit (EvIssue (CAxiosPost s)) st.
Proof.
  intros Hl. unfold checkSingleWarranty, checkSingleWarranty_try, tryApiMethod.
  cbn [bind eff run_sync call_of perform]. unfold cache_get. rewrite Hl.
  reflexivity.
Qed.

Lemma start_all_uncached (w : World) (chunk : list string) (st : State) :
  Forall (fun s => cache st !! cacheKey s = None) chunk ->
  (start_all w (map checkSingleWarranty chunk) st).2
  = {| cache := cache st;
       trace := trace st ++ map (fun s => EvIssue (CAxiosPost s)) chunk |}.
Proof.
  revert st. induction chunk as [|s chunk IH]; intros st Hall; cbn [map start_all].
  { simpl. rewrite app_nil_r. by destruct st. }
  apply Forall_cons in Hall as [Hs Hall].
  pose proof (run_sync_uncached_lookup w s st Hs) as Hsync.
  destruct (run_sync w (checkSingleWarranty s) st) as [p' st1]. cbn [snd] in Hsync.
  subst st1. specialize (IH (emit (EvIssue (CAxiosPost s)) st) Hall).
  destruct (start_all w (map checkSingleWarranty chunk) _) as [rest st2].
  cbn [snd] in *. rewrite IH. simpl. by rewrite <- app_assoc.
Qed.

(** [Promise.all(chunk.map(...))] starts every lookup of the chunk before it
    resumes any: for serials that have no cache entry, the structured source
    is asked once for every entry of the chunk, in order and duplicates
    included, before any answer is handled.  The cache does not spare the
    second request for a serial that occurs twice in a chunk. *)
Theorem chunk_requests_every_entry (w : World) (chunk : list string) (sched : list nat)
  (st : State) :
  Forall (fun s => cache st !! cacheKey s = None) chunk ->
  exists rest,
    trace (promise_all w (map checkSingleWarranty chunk) sched st).2
    = trace st ++ map (fun s => EvIssue (CAxiosPost s)) chunk ++ rest.
Proof.
  intros Hall. unfold promise_all.
  pose proof (start_all_uncached w chunk st Hall) as Hstart.
  destruct (start_all w (map checkSingleWarranty chunk) st) as [pool st1].
  cbn [snd] in Hstart. subst st1.
  set (st1 := {| cache := cache st; trace := _ |}).
  destruct (run_schedule_events w (CTimeout 0) sched pool st1) as (ev2 & Ht2 & _).
  destruct (run_schedule w sched pool st1) as [pool' st2]. cbn [snd] in Ht2.
  destruct (finish_all_events w (CTimeout 0) pool' st2) as (ev3 & Ht3 & _).
  exists (ev2 ++ ev3). rewrite Ht3, Ht2. subst st1. simpl. by rewrite <- !app_assoc.
Qed.

Lemma chunk_requests_every_entry_witness :
  Forall (fun s => cache initial_state !! cacheKey s = None) ["PF2ABCDE"; "PF0BROKEN"; "PF2ABCDE"] /\
  exists rest,
    trace (promise_all scraping_world
             (map checkSingleWarranty ["PF2ABCDE"; "PF0BROKEN"; "PF2ABCDE"]) [2; 0]
             initial_state).2
    = trace initial_state
      ++ map (fun s => EvIssue (CAxiosPost s)) ["PF2ABCDE"; "PF0BROKEN"; "PF2ABCDE"] ++ rest.
Proof.
  assert (Forall (fun s => cache initial_state !! cacheKey s = None)
            ["PF2ABCDE"; "PF0BROKEN"; "PF2ABCDE"]) as Hall.
  { repeat constructor. }
  split; [exact Hall|].
  exact (chunk_requests_every_entry scraping_world ["PF2ABCDE"; "PF0BROKEN"; "PF2ABCDE"]
           [2; 0] initial_state Hall).
Defined.

(** ** How often a batch waits *)

Lemma chunkArray_loop_count {T : Type} (fuel : nat) (array : list T) (size i : nat)
  (chunks : list (list T)) :
  0 < size ->
  length array <= i + fuel * size ->
  exists rest,
    chunkArray_loop fuel array size i chunks = Some (chunks ++ rest) /\
    length rest = (length array - i + (size - 1)) / size.
Proof.
  intros Hsize. revert i chunks.
  induction fuel as [|fuel IH]; intros i chunks Hfuel; simpl.
  - destruct (Nat.ltb_spec i (length array)); [lia|].
    exists []. rewrite app_nil_r. split; [done|].
    replace (length array - i) with 0 by lia. simpl.
    symmetry. apply Nat.div_small. lia.
  - destruct (Nat.ltb_spec i (length array)) as [Hlt|Hge].
    + destruct (IH (i + size) (chunks ++ [slice array i (i + size)]))
        as (rest & -> & Hlen); [lia|].
      exists (slice array i (i + size) :: rest). rewrite <- app_assoc.
      split; [done|]. simpl. rewrite Hlen.
      destruct (decide (length array <= i + size)) as [Hle|Hgt].
      * replace (length array - (i + size)) with 0 by lia. simpl.
        rewrite (Nat.div_small (size - 1) size) by lia.
        apply (Nat.div_unique _ _ 1 (length array - i - 1)); lia.
      * replace (length array - i + (size - 1))
          with (1 * size + (length array - (i + size) + (size - 1))) by lia.
        rewrite Nat.div_add_l by lia. lia.
    + exists []. rewrite app_nil_r. split; [done|].
      replace (length array - i) with 0 by lia. simpl.
      symmetry. apply Nat.div_small. lia.
Qed.

Lemma chunkArray_count {T : Type} (array : list T) (chunks : list (list T)) :
  chunkArray array 10 = Some chunks -> length chunks = (length array + 9) / 10.
Proof.
  unfold chunkArray. intros Hrun.
  destruct (chunkArray_loop_count (length array) array 10 0 []) as (rest & Hloop & Hlen);
    [lia | lia |].
  rewrite Hloop in Hrun. injection Hrun as <-. simpl.
  by rewrite Hlen, Nat.sub_0_r.
Qed.

Lemma lookup_events_hold_no_timer (chunk : list string) (seg : list event) (ms : Z) :
  Forall (lookup_event_of chunk) seg ->
  issued (CTimeout ms) seg = 0 /\ settled (CTimeout ms) seg = 0.
Proof.
  induction 1 as [|e seg (s & _ & He) _ [IHi IHs]]; [done|].
  change (e :: seg) with ([e] ++ seg).
  rewrite issued_app, settled_app, issued_singleton, settled_singleton, IHi, IHs.
  split; case_decide; subst; done.
Qed.

Lemma pacing_delay_timers (c : call) :
  issued c pacing_delay = (if decide (c = CTimeout 2000) then 1 else 0) /\
  settled c pacing_delay = (if decide (c = CTimeout 2000) then 1 else 0).
Proof.
  unfold pacing_delay.
  change [EvIssue (CTimeout 2000); EvSettle (CTimeout 2000)]
    with ([EvIssue (CTimeout 2000)] ++ [EvSettle (CTimeout 2000)]).
  rewrite issued_app, settled_app, !issued_singleton, !settled_singleton.
  split; repeat case_decide; simplify_eq; done.
Qed.

Lemma paced_timers (chunks : list (list string)) (segs : list (list event)) :
  Forall2 chunk_segment chunks segs ->
  issued (CTimeout 2000) (paced segs) = length segs /\
  settled (CTimeout 2000) (paced segs) = length segs /\
  forall ms, ms <> 2000%Z ->
             issued (CTimeout ms) (paced segs) = 0 /\ settled (CTimeout ms) (paced segs) = 0.
Proof.
  unfold paced.
  induction 1 as [|chunk seg chunks segs [Hseg _] _ (IHi & IHs & IHo)]; [done|].
  cbn [map concat length].
  destruct (lookup_events_hold_no_timer chunk seg 2000 Hseg) as [Hi Hs].
  split_and!.
  - destruct (pacing_delay_timers (CTimeout 2000)) as [Hpi _].
    rewrite !issued_app, Hi, IHi, Hpi. by rewrite decide_True.
  - destruct (pacing_delay_timers (CTimeout 2000)) as [_ Hps].
    rewrite !settled_app, Hs, IHs, Hps. by rewrite decide_True.
  - intros ms Hms. destruct (IHo ms Hms) as [IHi' IHs'].
    destruct (lookup_events_hold_no_timer chunk seg ms Hseg) as [Hi' Hs'].
    destruct (pacing_delay_timers (CTimeout ms)) as [Hpi Hps].
    rewrite !issued_app, !settled_app, Hi', Hs', IHi', IHs', Hpi, Hps.
    rewrite decide_False by congruence. done.
Qed.

(** A batch of [n] serials returns after [delay(2000)] was called and
    awaited once per chunk, the last chunk included: [ceil(n / 10)] times.
    An empty batch returns the empty list at once, without any effect.
    (The waits inside a scrape are not timers of the trace: they lie inside
    the browser call of the model, and the statement does not count them.) *)
Theorem batch_waits_once_per_chunk (w : World) (serialNumbers : list string)
  (scheds : list (list nat)) (st : State) :
  exists results st' evs,
    checkWarrantyBatch w serialNumbers scheds st = Some (Returned results, st') /\
    trace st' = trace st ++ evs /\
    issued (CTimeout 2000) evs = (length serialNumbers + 9) / 10 /\
    settled (CTimeout 2000) evs = (length serialNumbers + 9) / 10 /\
    (serialNumbers = [] -> results = [] /\ st' = st).
Proof.
  unfold checkWarrantyBatch.
  destruct (chunkArray_spec serialNumbers 10) as (chunks & Hchunks & _); [lia|].
  rewrite Hchunks.
  destruct (checkWarrantyBatch_loop_spec w (fun _ _ => True) (fun _ _ _ => I)
              chunks scheds [] st)
    as (results & st' & segs & Hloop & _ & _ & Hsegs & Htrace); [done|].
  destruct (paced_timers chunks segs Hsegs) as (Hissued & Hsettled & _).
  exists results, st', (paced segs). split_and!.
  - by rewrite Hloop.
  - done.
  - rewrite Hissued, <- (Forall2_length _ _ _ Hsegs). by apply chunkArray_count.
  - rewrite Hsettled, <- (Forall2_length _ _ _ Hsegs). by apply chunkArray_count.
  - intros ->. vm_compute in Hchunks. injection Hchunks as <-.
    simpl in Hloop. by injection Hloop as <- <-.
Qed.

(** * Properties of the routes and the parsers *)

(** ** Text *)

Lemma chars_text (l : list Ascii.ascii) : chars (text l) = l.
Proof. apply String.list_ascii_of_string_of_list_ascii. Qed.

Lemma text_chars (s : string) : text (chars s) = s.
Proof. apply String.string_of_list_ascii_of_string. Qed.

Lemma chars_inj (s s' : string) : chars s = chars s' -> s = s'.
Proof. intros H. by rewrite <- (text_chars s), H, text_chars. Qed.

Lemma chars_app (s s' : string) : chars (s +:+ s') = chars s ++ chars s'.
Proof. induction s as [|c s IH]; simpl; [done|]. by rewrite <- IH. Qed.

Lemma nonempty_chars (s : string) : nonempty s = true <-> chars s <> [].
Proof. by destruct s. Qed.

Lemma in_range_spec (lo hi : nat) (c : Ascii.ascii) :
  in_range lo hi c = true <-> lo <= Ascii.nat_of_ascii c <= hi.
Proof.
  unfold in_range. rewrite andb_true_iff, Nat.leb_le, Nat.leb_le. done.
Qed.

Lemma in_range_false (lo hi : nat) (c : Ascii.ascii) :
  in_range lo hi c = false <-> ~ (lo <= Ascii.nat_of_ascii c <= hi).
Proof. rewrite <- in_range_spec. by destruct (in_range lo hi c). Qed.

(** The letters and digits of a serial number are neither white space nor
    separators. *)
Lemma alnum_plain (c : Ascii.ascii) :
  is_digit c || is_upper c || is_lower c = true ->
  is_space c = false /\ is_line_break c = false /\ is_value_separator c = false.
Proof.
  unfold is_digit, is_upper, is_lower, is_space, is_line_break, is_value_separator.
  rewrite !orb_true_iff, !in_range_spec, !orb_false_iff, !in_range_false. lia.
Qed.

Lemma trim_start_Forall (P : Ascii.ascii -> Prop) (l : list Ascii.ascii) :
  Forall P l -> Forall P (trim_start l).
Proof.
  induction 1 as [|c l Hc Hl IH]; simpl; [done|].
  destruct (is_space c); [done|by constructor].
Qed.

Lemma trim_start_id (l : list Ascii.ascii) :
  head l = None \/ (exists c, head l = Some c /\ is_space c = false) -> trim_start l = l.
Proof.
  destruct l as [|c l]; simpl; [done|].
  intros [[=]|(c' & [= <-] & ->)]. done.
Qed.

Lemma trim_start_head (l : list Ascii.ascii) :
  head (trim_start l) = None \/
  exists c, head (trim_start l) = Some c /\ is_space c = false.
Proof.
  induction l as [|c l IH]; simpl; [by left|].
  destruct (is_space c) eqn:Hc; [done|]. right. by exists c.
Qed.

Lemma trim_start_idemp (l : list Ascii.ascii) : trim_start (trim_start l) = trim_start l.
Proof. apply trim_start_id, trim_start_head. Qed.

(** A prefix of a trimmed-at-the-start list that is not empty still starts
    with its first character. *)
Lemma head_rev_trim_start_rev (l : list Ascii.ascii) (c : Ascii.ascii) :
  head l = Some c -> is_space c = false ->
  rev (trim_start (rev l)) <> [] /\ head (rev (trim_start (rev l))) = Some c.
Proof.
  intros Hhead Hc. destruct l as [|c' l]; [done|]. injection Hhead as ->.
  simpl. induction (rev l) as [|d k IH]; simpl.
  - by rewrite Hc.
  - destruct (is_space d).
    + exact IH.
    + simpl. rewrite rev_app_distr. simpl. done.
Qed.

Lemma trim_chars_idemp (l : list Ascii.ascii) : trim_chars (trim_chars l) = trim_chars l.
Proof.
  unfold trim_chars.
  assert (trim_start (rev (trim_start (rev (trim_start l))))
          = rev (trim_start (rev (trim_start l)))) as ->.
  { destruct (trim_start_head l) as [Hnil|(c & Hhead & Hc)].
    - destruct (trim_start l); [done|discriminate Hnil].
    - apply trim_start_id. right. exists c.
      by destruct (head_rev_trim_start_rev _ c Hhead Hc) as [_ ->]. }
  by rewrite rev_involutive, trim_start_idemp.
Qed.

Lemma trim_idemp (s : string) : trim (trim s) = trim s.
Proof. unfold trim. by rewrite chars_text, trim_chars_idemp. Qed.

Lemma trim_chars_Forall (P : Ascii.ascii -> Prop) (l : list Ascii.ascii) :
  Forall P l -> Forall P (trim_chars l).
Proof.
  intros Hl. unfold trim_chars.
  by apply Forall_rev, trim_start_Forall, Forall_rev, trim_start_Forall.
Qed.

(** Text without white space is its own trim. *)
Lemma trim_chars_plain (l : list Ascii.ascii) :
  Forall (fun c => is_space c = false) l -> trim_chars l = l.
Proof.
  intros Hl. unfold trim_chars.
  assert (forall k, Forall (fun c => is_space c = false) k -> trim_start k = k) as Hid.
  { intros [|c k] Hk; [done|]. apply Forall_cons in Hk as [Hc _]. simpl. by rewrite Hc. }
  rewrite (Hid l Hl), (Hid (rev l)), rev_involutive; [done|]. by apply Forall_rev.
Qed.

(** ** Splitting *)

Lemma split_go_pieces (sep : Ascii.ascii -> bool) (P : Ascii.ascii -> Prop)
  (l cur : list Ascii.ascii) (after_sep : bool) :
  Forall (fun c => sep c = false /\ P c) cur ->
  Forall P l ->
  Forall (Forall (fun c => sep c = false /\ P c)) (split_go sep l cur after_sep).
Proof.
  intros Hcur Hl. revert cur after_sep Hcur.
  induction Hl as [|c l Hc Hl IH]; intros cur after_sep Hcur; simpl.
  - by constructor.
  - destruct (sep c) eqn:Hsep.
    + destruct after_sep; [by apply IH|]. constructor; [done|]. by apply IH.
    + apply IH, Forall_app. split; [done|]. by repeat constructor.
Qed.

Lemma split_pieces (sep : Ascii.ascii -> bool) (P : Ascii.ascii -> Prop) (s : string) :
  Forall P (chars s) ->
  Forall (fun piece => Forall (fun c => sep c = false /\ P c) (chars piece)) (split sep s).
Proof.
  intros Hs. unfold split. apply Forall_map.
  eapply Forall_impl; [by apply (split_go_pieces sep P _ [] false)|].
  intros piece Hpiece. simpl. by rewrite chars_text.
Qed.

(** Text without separators is not split, and joins what came before it. *)
Lemma split_go_plain (sep : Ascii.ascii -> bool) (t rest cur : list Ascii.ascii)
  (after_sep : bool) :
  Forall (fun c => sep c = false) t ->
  t <> [] \/ after_sep = false ->
  split_go sep (t ++ rest) cur after_sep = split_go sep rest (cur ++ t) false.
Proof.
  intros Ht. revert cur after_sep.
  induction Ht as [|c t Hc Ht IH]; intros cur after_sep Hne; simpl.
  - destruct Hne as [?| ->]; [done|]. by rewrite app_nil_r.
  - rewrite Hc, IH by (by right). by rewrite <- app_assoc.
Qed.

Lemma split_go_joined (sep : Ascii.ascii -> bool) (c : Ascii.ascii) (tokens : list string)
  (after_sep : bool) :
  sep c = true ->
  tokens <> [] ->
  Forall (fun t => t <> "" /\ Forall (fun c => sep c = false) (chars t)) tokens ->
  split_go sep (chars (String.concat (String c "") tokens)) [] after_sep
  = map chars tokens.
Proof.
  intros Hc Hne Hall. revert after_sep.
  induction Hall as [|t tokens [Ht Hsep] Hall IH]; intros after_sep; [done|].
  assert (chars t <> []) as Hchars by (by destruct t).
  destruct tokens as [|t' tokens].
  - pose proof (split_go_plain sep (chars t) [] [] after_sep Hsep (or_introl Hchars))
      as Hplain.
    rewrite app_nil_r in Hplain. simpl. by rewrite Hplain.
  - change (String.concat (String c "") (t :: t' :: tokens))
      with (t +:+ String c "" +:+ String.concat (String c "") (t' :: tokens)).
    rewrite !chars_app, split_go_plain by (done || by left).
    cbn [chars String.list_ascii_of_string app split_go]. rewrite Hc.
    rewrite IH by done. done.
Qed.

(** A line of text without separators is one piece. *)
Lemma split_plain (sep : Ascii.ascii -> bool) (t : string) :
  Forall (fun c => sep c = false) (chars t) -> split sep t = [t].
Proof.
  intros Ht. unfold split.
  pose proof (split_go_plain sep (chars t) [] [] false Ht (or_intror eq_refl)) as Hplain.
  rewrite app_nil_r in Hplain. rewrite Hplain. simpl. by rewrite text_chars.
Qed.

(** ** parseTXTFile *)

Lemma trimmed_values_clean (P : Ascii.ascii -> Prop) (values : list string) :
  Forall (fun v => Forall P (chars v)) values ->
  Forall (fun t => t <> "" /\ trim t = t /\ Forall P (chars t)) (trimmed_values values).
Proof.
  intros Hvalues. unfold trimmed_values.
  induction Hvalues as [|v values Hv _ IH]; simpl; [done|].
  destruct (nonempty (trim v)) eqn:Hne; [|done].
  constructor; [|done]. split_and!.
  - by destruct (trim v).
  - apply trim_idemp.
  - unfold trim. rewrite chars_text. by apply trim_chars_Forall.
Qed.

(** Every serial number [parseTXTFile] returns is a clean token: not empty,
    trimmed, and free of the line breaks and of the commas, semicolons and
    tabs that separate values.  The [errors] array is left as it was. *)
Theorem parseTXTFile_tokens (content : string) (errors : list string) :
  Forall clean_token (parseTXTFile content errors).1 /\
  (parseTXTFile content errors).2 = errors.
Proof.
  split; [|done]. unfold parseTXTFile. cbn [fst].
  assert (Forall (fun line => Forall (fun c => is_line_break c = false) (chars line))
            (split is_line_break content)) as Hlines.
  { eapply Forall_impl; [apply (split_pieces is_line_break (fun _ => True))|].
    - by apply Forall_forall.
    - intros line Hline. simpl in Hline. eapply Forall_impl; [exact Hline|]. by intros c [? _]. }
  induction Hlines as [|line lines Hline _ IH]; simpl; [done|].
  apply Forall_app. split; [|done].
  eapply Forall_impl;
    [apply (trimmed_values_clean
              (fun c => is_value_separator c = false /\ is_line_break c = false)),
       (split_pieces is_value_separator _ line Hline)|].
  intros t (Hne & Htrim & Hchars). split_and!; [done | done |].
  eapply Forall_impl; [exact Hchars|]. by intros c [? ?].
Qed.

Lemma parseTXTFile_joined (tokens errors : list string) :
  Forall clean_token tokens ->
  (parseTXTFile (String.concat LF tokens) errors).1 = tokens.
Proof.
  intros Hclean. unfold parseTXTFile. cbn [fst].
  destruct tokens as [|t tokens]; [done|].
  assert (split is_line_break (String.concat LF (t :: tokens)) = t :: tokens) as ->.
  { unfold split, LF. rewrite split_go_joined; [| done | done |].
    - rewrite map_map. erewrite map_ext; [apply map_id|]. intros ?. apply text_chars.
    - eapply Forall_impl; [exact Hclean|]. intros t' (Hne & _ & Hchars).
      split; [done|]. eapply Forall_impl; [exact Hchars|]. by intros c [? _]. }
  induction Hclean as [|t' tokens' (Hne & Htrim & Hchars) _ IH]; [done|].
  cbn [flat_map]. rewrite IH.
  rewrite split_plain by (eapply Forall_impl; [exact Hchars|]; by intros c [_ ?]).
  unfold trimmed_values. cbn [map List.filter]. rewrite Htrim.
  by destruct t'.
Qed.

(** ** Serial numbers as text *)

Lemma upper_char_not_lower (c : Ascii.ascii) : is_lower (upper_char c) = false.
Proof.
  unfold upper_char. destruct (is_lower c) eqn:Hc; [|done].
  unfold is_lower in *. apply in_range_spec in Hc. apply in_range_false.
  rewrite Ascii.nat_ascii_embedding by lia. lia.
Qed.

Lemma upper_char_idemp (c : Ascii.ascii) : upper_char (upper_char c) = upper_char c.
Proof. unfold upper_char at 1. by rewrite upper_char_not_lower. Qed.

Lemma toUpperCase_idemp (s : string) : toUpperCase (toUpperCase s) = toUpperCase s.
Proof.
  unfold toUpperCase. rewrite chars_text, map_map. f_equal.
  apply map_ext. intros c. apply upper_char_idemp.
Qed.

Lemma test_serial_chars (s : string) :
  test_serial s = true ->
  6 <= length (chars s) <= 15 /\
  Forall (fun c => is_digit c || is_upper c || is_lower c = true) (chars s).
Proof.
  unfold test_serial. rewrite !andb_true_iff, !Nat.leb_le, forallb_forall, Forall_forall.
  intros [[? ?] Hall]. split; [lia|]. intros c Hc. apply Hall. by apply list_elem_of_In.
Qed.

(** A string that passes the test has no white space to trim. *)
Lemma test_serial_trim (s : string) : test_serial s = true -> trim s = s.
Proof.
  intros Hs. apply test_serial_chars in Hs as [_ Hall].
  unfold trim. rewrite trim_chars_plain; [apply text_chars|].
  eapply Forall_impl; [exact Hall|]. intros c Hc. by apply alnum_plain in Hc as [? _].
Qed.

Lemma test_serial_nonempty (s : string) : test_serial s = true -> nonempty s = true.
Proof.
  intros Hs. apply test_serial_chars in Hs as [Hlen _].
  apply nonempty_chars. destruct (chars s); simpl in *; [lia|done].
Qed.

Lemma test_serial_clean (s : string) : test_serial s = true -> clean_token s.
Proof.
  intros Hs. split_and!.
  - apply test_serial_nonempty in Hs. by destruct s.
  - by apply test_serial_trim.
  - apply test_serial_chars in Hs as [_ Hall].
    eapply Forall_impl; [exact Hall|]. intros c Hc. by apply alnum_plain in Hc as (_ & ? & ?).
Qed.

(** [POST /check] keeps a string that passes the test, as it is. *)
Lemma test_serial_keeps (s : string) : test_serial s = true -> keeps (VStr s) = true.
Proof.
  intros Hs. unfold keeps. rewrite (test_serial_trim s Hs), Hs, andb_true_r.
  apply test_serial_chars in Hs as [Hlen _]. apply Nat.ltb_lt. lia.
Qed.

(** A normalized string that passes the test is its own normal form. *)
Lemma normalize_fixed (x : string) :
  test_serial (normalize x) = true -> normalize (normalize x) = normalize x.
Proof.
  intros Hs. unfold normalize at 1. rewrite (test_serial_trim _ Hs).
  unfold normalize. apply toUpperCase_idemp.
Qed.

(** ** Removing duplicates *)

Lemma unique_from_spec (seen xs : list string) :
  NoDup (unique_from seen xs) /\
  forall x, x ∈ unique_from seen xs <-> x ∈ xs /\ x ∉ seen.
Proof.
  revert seen. induction xs as [|y xs IH]; intros seen; simpl.
  { split; [constructor|]. intros x. rewrite elem_of_nil. tauto. }
  case_bool_decide as Hy.
  - destruct (IH seen) as [Hnd Hin]. split; [done|].
    intros x. rewrite Hin, elem_of_cons. split; [tauto|].
    intros [[->|?] ?]; tauto.
  - destruct (IH (y :: seen)) as [Hnd Hin]. split.
    + constructor; [|done]. rewrite Hin, elem_of_cons. tauto.
    + intros x. rewrite !elem_of_cons, Hin, elem_of_cons.
      destruct (decide (x = y)) as [->|Hne]; tauto.
Qed.

Lemma unique_NoDup (xs : list string) : NoDup (unique xs).
Proof. apply unique_from_spec. Qed.

Lemma elem_of_unique (xs : list string) (x : string) : x ∈ unique xs <-> x ∈ xs.
Proof.
  unfold unique. destruct (unique_from_spec [] xs) as [_ ->].
  rewrite elem_of_nil. tauto.
Qed.

Lemma unique_from_id (seen xs : list string) :
  NoDup xs -> (forall x, x ∈ xs -> x ∉ seen) -> unique_from seen xs = xs.
Proof.
  intros Hnd. revert seen. induction Hnd as [|y xs Hy Hnd IH]; intros seen Hseen; simpl.
  { done. }
  rewrite bool_decide_eq_false_2 by (apply Hseen; by left).
  f_equal. apply IH. intros x Hx. rewrite elem_of_cons. intros [->|?]; [done|].
  by apply (Hseen x); [right|].
Qed.

Lemma unique_id (xs : list string) : NoDup xs -> unique xs = xs.
Proof. intros Hnd. apply unique_from_id; [done|]. intros x _. apply not_elem_of_nil. Qed.

Lemma trimmed_values_id (tokens : list string) :
  Forall clean_token tokens -> trimmed_values tokens = tokens.
Proof.
  unfold trimmed_values. induction 1 as [|t tokens (Hne & Htrim & _) _ IH]; [done|].
  cbn [map List.filter]. rewrite Htrim. destruct t; [done|]. cbn. by rewrite IH.
Qed.

Lemma joined_Forall (P : Ascii.ascii -> Prop) (sep : string) (tokens : list string) :
  Forall P (chars sep) ->
  Forall (fun t => Forall P (chars t)) tokens ->
  Forall P (chars (String.concat sep tokens)).
Proof.
  intros Hsep. induction 1 as [|t tokens Ht Hall IH]; [constructor|].
  destruct tokens as [|t' tokens]; [done|].
  change (String.concat sep (t :: t' :: tokens))
    with (t +:+ sep +:+ String.concat sep (t' :: tokens)).
  rewrite !chars_app, !Forall_app. done.
Qed.

(** Round trip: clean tokens written one per line, or on one line with
    commas between them, are read back as they are, in order. *)
Theorem parseTXTFile_reads_back (tokens errors : list string) :
  Forall clean_token tokens ->
  (parseTXTFile (String.concat LF tokens) errors).1 = tokens /\
  (parseTXTFile (String.concat "," tokens) errors).1 = tokens.
Proof.
  intros Hclean. split; [by apply parseTXTFile_joined|].
  unfold parseTXTFile. cbn [fst].
  destruct tokens as [|t tokens]; [done|].
  rewrite split_plain.
  2:{ apply joined_Forall; [by repeat constructor|].
      eapply Forall_impl; [exact Hclean|]. intros t' (_ & _ & Hchars).
      eapply Forall_impl; [exact Hchars|]. by intros c [? _]. }
  cbn [flat_map]. rewrite app_nil_r.
  assert (split is_value_separator (String.concat "," (t :: tokens)) = t :: tokens) as ->.
  { unfold split.
    rewrite (split_go_joined is_value_separator (Ascii.ascii_of_nat 44)); [| done | done |].
    - rewrite map_map. erewrite map_ext; [apply map_id|]. intros ?. apply text_chars.
    - eapply Forall_impl; [exact Hclean|]. intros t' (Hne & _ & Hchars).
      split; [done|]. eapply Forall_impl; [exact Hchars|]. by intros c [_ ?]. }
  by apply trimmed_values_id.
Qed.

Lemma parseTXTFile_reads_back_witness :
  Forall clean_token ["PF2ABCDE"; "T14 Gen 2"; "bad!"] /\
  (parseTXTFile (String.concat LF ["PF2ABCDE"; "T14 Gen 2"; "bad!"]) ["kept"]).1
  = ["PF2ABCDE"; "T14 Gen 2"; "bad!"] /\
  (parseTXTFile (String.concat "," ["PF2ABCDE"; "T14 Gen 2"; "bad!"]) ["kept"]).1
  = ["PF2ABCDE"; "T14 Gen 2"; "bad!"].
Proof.
  assert (Forall clean_token ["PF2ABCDE"; "T14 Gen 2"; "bad!"]) as Hall.
  { repeat constructor; done. }
  split; [exact Hall|].
  exact (parseTXTFile_reads_back ["PF2ABCDE"; "T14 Gen 2"; "bad!"] ["kept"] Hall).
Defined.

Lemma ascii_text_check (s : string) :
  forallb (fun c => Ascii.nat_of_ascii c <? 128) (chars s) = true -> ascii_text s.
Proof.
  intros Hs. apply Forall_forall. intros c Hc.
  apply list_elem_of_In in Hc. rewrite forallb_forall in Hs.
  by apply Nat.ltb_lt, Hs.
Qed.

(** ** POST /parse *)

Lemma parse_route_eq (csv : string -> csv_stream) (file : upload_file) :
  parse_route csv (Some file) =
  match (if csv_named file then csv_error (csv (fileContent file)) else None) with
  | Some message => mkResponse 500 (Failure "File parsing error" message [])
  | None =>
      let serials := unique (valid_serials (file_tokens csv file)) in
      if length serials =? 0 then
        mkResponse 400
          (Failure "No valid serial numbers found"
             "The file must contain valid serial numbers (6-15 alphanumeric characters)"
             (format_errors (file_tokens csv file)))
      else
        mkResponse 200
          (FileUploadResponse serials (length serials)
             (take 10 (format_errors (file_tokens csv file))))
  end.
Proof.
  unfold parse_route, file_tokens, csv_named, valid_serials, format_errors.
  destruct (endsWith (toLowerCase (originalname file)) ".csv"); [|done].
  unfold parseCSVFile. by destruct (csv_error (csv (fileContent file))).
Qed.

Lemma elem_of_valid_serials (tokens : list string) (s : string) :
  s ∈ valid_serials tokens <->
  test_serial s = true /\ exists t, t ∈ tokens /\ normalize t = s.
Proof.
  unfold valid_serials. rewrite list_elem_of_In, filter_In, <- list_elem_of_In.
  rewrite list_elem_of_fmap, andb_true_iff. split.
  - intros [(t & -> & Ht) [_ Hs]]. split; [done|]. by exists t.
  - intros [Hs (t & Ht & <-)]. split; [by exists t|].
    split; [by apply test_serial_nonempty|done].
Qed.

(** What a successful [POST /parse] returns, for a file of ASCII text: at
    least one serial number and none twice, [totalFound] their number, at
    most 10 error messages; every serial passes the format test, is in
    normal form (trimmed, upper case), and is the normal form of a value of
    the file; and every value of the file whose normal form passes the test
    is among them. *)
Theorem parse_route_success (csv : string -> csv_stream) (file : upload_file)
  (serials errors : list string) (total : nat) :
  ascii_file csv file ->
  parse_route csv (Some file) = mkResponse 200 (FileUploadResponse serials total errors) ->
  NoDup serials /\
  serials <> [] /\
  total = length serials /\
  length errors <= 10 /\
  Forall (fun s => test_serial s = true /\ normalize s = s) serials /\
  forall s, s ∈ serials <->
            test_serial s = true /\ exists t, t ∈ file_tokens csv file /\ normalize t = s.
Proof.
  intros _. rewrite parse_route_eq.
  destruct (if csv_named file then _ else _); [done|]. cbn zeta.
  destruct (Nat.eqb_spec (length (unique (valid_serials (file_tokens csv file)))) 0)
    as [|Hlen]; [done|].
  intros [= <- <- <-].
  assert (forall s, s ∈ unique (valid_serials (file_tokens csv file)) <->
                    test_serial s = true /\
                    exists t, t ∈ file_tokens csv file /\ normalize t = s) as Hin.
  { intros s. by rewrite elem_of_unique, elem_of_valid_serials. }
  split_and!.
  - apply unique_NoDup.
  - intros Heq. by rewrite Heq in Hlen.
  - done.
  - rewrite length_take. lia.
  - apply Forall_forall. intros s Hs. apply Hin in Hs as [Hs (t & _ & <-)].
    split; [done|]. by apply normalize_fixed.
  - done.
Qed.

Lemma parse_route_success_witness :
  ascii_file sample_csv sample_upload /\
  parse_route sample_csv (Some sample_upload)
  = mkResponse 200
      (FileUploadResponse ["PF2ABCDE"; "PF2ABCDF"; "PF0BROKEN"] 3
         ["Invalid serial number format: BAD!"]) /\
  NoDup ["PF2ABCDE"; "PF2ABCDF"; "PF0BROKEN"] /\
  ["PF2ABCDE"; "PF2ABCDF"; "PF0BROKEN"] <> [] /\
  3 = length ["PF2ABCDE"; "PF2ABCDF"; "PF0BROKEN"] /\
  length ["Invalid serial number format: BAD!"] <= 10 /\
  Forall (fun s => test_serial s = true /\ normalize s = s)
    ["PF2ABCDE"; "PF2ABCDF"; "PF0BROKEN"] /\
  forall s, s ∈ ["PF2ABCDE"; "PF2ABCDF"; "PF0BROKEN"] <->
            test_serial s = true /\
            exists t, t ∈ file_tokens sample_csv sample_upload /\ normalize t = s.
Proof.
  assert (ascii_file sample_csv sample_upload) as Hascii.
  { split_and!; [by apply ascii_text_check | by apply ascii_text_check |].
    repeat constructor; by apply ascii_text_check. }
  split; [exact Hascii|]. split; [reflexivity|].
  exact (parse_route_success sample_csv sample_upload
           ["PF2ABCDE"; "PF2ABCDF"; "PF0BROKEN"] ["Invalid serial number format: BAD!"] 3
           Hascii eq_refl).
Defined.

(** What the handler of [POST /parse] answers: 400 without a file; 500
    exactly when a file
    named [*.csv] makes the CSV parser fail, with the parser's message; and
    otherwise 400 exactly when no value of the file has a normal form that
    passes the format test, with one error message per non-empty value,
    untruncated. *)
Lemma parse_route_cases (csv : string -> csv_stream) (file : upload_file) :
  ascii_file csv file ->
  http_status (parse_route csv None) = 400 /\
  match (if csv_named file then csv_error (csv (fileContent file)) else None) with
  | Some message =>
      parse_route csv (Some file)
      = mkResponse 500 (Failure "File parsing error" message [])
  | None =>
      if forallb (fun t => negb (test_serial (normalize t))) (file_tokens csv file) then
        parse_route csv (Some file)
        = mkResponse 400
            (Failure "No valid serial numbers found"
               "The file must contain valid serial numbers (6-15 alphanumeric characters)"
               (format_errors (file_tokens csv file)))
      else http_status (parse_route csv (Some file)) = 200
  end.
Proof.
  intros _. split; [done|]. rewrite parse_route_eq.
  destruct (if csv_named file then _ else _); [done|]. cbn zeta.
  destruct (forallb _ (file_tokens csv file)) eqn:Hnone.
  - assert (unique (valid_serials (file_tokens csv file)) = []) as ->; [|done].
    apply elem_of_nil_inv. intros s. rewrite elem_of_unique, elem_of_valid_serials.
    intros [Hs (t & Ht & <-)].
    rewrite forallb_forall in Hnone. apply list_elem_of_In, Hnone in Ht.
    by rewrite Hs in Ht.
  - destruct (Nat.eqb_spec (length (unique (valid_serials (file_tokens csv file)))) 0)
      as [Hlen|]; [|done].
    exfalso. apply length_zero_iff_nil in Hlen.
    apply not_true_iff_false in Hnone. apply Hnone, forallb_forall.
    intros t Ht. apply negb_true_iff, not_true_iff_false. intros Hs.
    assert (normalize t ∈ unique (valid_serials (file_tokens csv file))) as Hin.
    { rewrite elem_of_unique, elem_of_valid_serials. split; [done|].
      exists t. split; [by apply list_elem_of_In|done]. }
    rewrite Hlen in Hin. by apply elem_of_nil in Hin.
Qed.

(** The handler on a file that is not named [*.csv] and holds serial numbers
    in normal form, one per line: it returns them as they are, in order and
    without an error message. *)
Lemma parse_route_joined (csv : string -> csv_stream) (name : string)
  (serials : list string) :
  endsWith (toLowerCase name) ".csv" = false ->
  serials <> [] ->
  NoDup serials ->
  Forall (fun s => test_serial s = true /\ normalize s = s) serials ->
  parse_route csv (Some (mkUpload name (String.concat LF serials)))
  = mkResponse 200 (FileUploadResponse serials (length serials) []).
Proof.
  intros Hname Hne Hnd Hall. rewrite parse_route_eq.
  unfold file_tokens, csv_named. cbn [originalname fileContent]. rewrite Hname.
  rewrite parseTXTFile_joined.
  2:{ eapply Forall_impl; [exact Hall|]. intros s [Hs _]. by apply test_serial_clean. }
  assert (valid_serials serials = serials) as ->.
  { unfold valid_serials. clear Hne Hnd.
    induction Hall as [|s serials [Hs Hfix] _ IH]; [done|].
    cbn [map List.filter]. rewrite Hfix, Hs, (test_serial_nonempty s Hs). cbn [andb].
    by rewrite IH. }
  assert (format_errors serials = []) as ->.
  { unfold format_errors. clear Hne Hnd.
    induction Hall as [|s serials [Hs Hfix] _ IH]; [done|].
    cbn [map List.filter]. rewrite Hfix, Hs, andb_false_r. exact IH. }
  cbn zeta. rewrite (unique_id serials Hnd).
  destruct serials; [done|]. done.
Qed.

(** ** The routes of the warranty service *)

(** A lookup returns, from any state of the service; from a state that keeps
    the cache invariant it answers for its serial and keeps the invariant. *)
Lemma checkSingleWarranty_returns (w : World) (s : string) (st : State) :
  exists r st',
    run w (checkSingleWarranty s) st = (Returned r, st') /\
    (cache_ok st -> serialNumber r = s /\ cache_ok st').
Proof.
  rewrite checkSingleWarranty_run.
  destruct (cache_get w (cacheKey s) st) as [cached|] eqn:Hget.
  - exists cached, st. split; [done|]. intros Hok. split; [|done].
    apply cache_get_Some in Hget as (expires & Hl & _). by apply Hok in Hl.
  - destruct (checkSingleWarranty_try_cases w s st)
      as [(r & _ & Hs & ->)|(o & closing & _ & _ & _ & Hs & ->)].
    + eexists _, _. split; [done|]. intros Hok. split; [done|].
      apply cache_ok_set; [done|]. by eapply cache_ok_same_cache.
    + destruct o as [r|e]; eexists _, _; (split; [done|]); intros Hok.
      * split; [by apply Hs|].
        apply cache_ok_set; [by apply Hs|]. by eapply cache_ok_same_cache.
      * split; [done|]. by eapply cache_ok_same_cache.
Qed.

(** A batch returns one record per serial, from any state of the service;
    from a state that keeps the cache invariant the records are those of the
    serials, in order. *)
Lemma checkWarrantyBatch_returns (w : World) (serialNumbers : list string)
  (scheds : list (list nat)) (st : State) :
  exists results st',
    checkWarrantyBatch w serialNumbers scheds st = Some (Returned results, st') /\
    length results = length serialNumbers /\
    (cache_ok st -> map serialNumber results = serialNumbers /\ cache_ok st').
Proof.
  unfold checkWarrantyBatch.
  destruct (chunkArray_spec serialNumbers 10) as (chunks & -> & Hcat & _); [lia|].
  destruct (checkWarrantyBatch_loop_spec w (fun _ _ => True) (fun _ _ _ => I)
              chunks scheds [] st)
    as (results & st' & segs & Hloop & Hentries & _); [done|].
  rewrite Hcat in Hentries. exists results, st'. rewrite Hloop.
  split_and!; [done | symmetry; by eapply Forall2_length |].
  intros Hok.
  set (J := fun (key : string) (v : WarrantyInfo) =>
              forall s, key = cacheKey s -> serialNumber v = s).
  assert (forall s r, resolved_normally w s r -> J (cacheKey s) r) as HJ.
  { intros s r Hr s' Hkey. apply cacheKey_inj in Hkey as <-.
    by apply resolved_normally_serial in Hr. }
  destruct (checkWarrantyBatch_loop_spec w J HJ chunks scheds [] st)
    as (results' & st'' & segs' & Hloop' & Hentries' & Hcache & _).
  { intros key v expires Hl s ->. by apply Hok in Hl. }
  rewrite Hloop in Hloop'. injection Hloop' as <- <-. rewrite Hcat in Hentries'.
  split; [|intros s r expires Hl; by eapply Hcache].
  clear -Hentries'. induction Hentries' as [|s r ss rs [Hs|Hs] _ IH]; [done|..];
    simpl; f_equal; try done.
  - by apply Hs.
  - by apply resolved_as_error_serial in Hs.
Qed.

(** [GET /check/:serialNumber] never answers 500.  It answers 400, without
    touching the service, exactly when the parameter fails the format test;
    otherwise 200 with the record of a lookup of the parameter as it was
    given, in its own case. *)
Theorem check_single_route_answers (w : World) (s : string) (st : State) :
  cache_ok st ->
  if test_serial s then
    exists r st',
      check_single_route w s st = (mkResponse 200 (SingleResult r), st') /\
      run w (checkSingleWarranty s) st = (Returned r, st') /\
      serialNumber r = s /\ cache_ok st'
  else
    http_status (check_single_route w s st).1 = 400 /\
    (check_single_route w s st).2 = st.
Proof.
  intros Hok. unfold check_single_route.
  destruct (test_serial s) eqn:Hs.
  - rewrite (test_serial_nonempty s Hs). cbn [negb orb].
    destruct (checkSingleWarranty_returns w s st) as (r & st' & -> & Hr).
    exists r, st'. by destruct (Hr Hok).
  - by rewrite orb_true_r.
Qed.

Lemma check_single_route_answers_witness :
  cache_ok initial_state /\
  (exists r st',
     check_single_route scraping_world "pf2abcde" initial_state
     = (mkResponse 200 (SingleResult r), st') /\
     run scraping_world (checkSingleWarranty "pf2abcde") initial_state = (Returned r, st') /\
     serialNumber r = "pf2abcde" /\ cache_ok st') /\
  http_status (check_single_route scraping_world "PF 2ABCDE" initial_state).1 = 400 /\
  (check_single_route scraping_world "PF 2ABCDE" initial_state).2 = initial_state.
Proof.
  split; [apply cache_ok_initial|]. split.
  - exact (check_single_route_answers scraping_world "pf2abcde" initial_state
             (cache_ok_initial [])).
  - exact (check_single_route_answers scraping_world "PF 2ABCDE" initial_state
             (cache_ok_initial [])).
Defined.

Lemma check_route_eq (w : World) (uuid : string) (body : jsval)
  (scheds : list (list nat)) (st : State) (items : list jsval) :
  body <> VUndefined -> body <> VNull ->
  member body "serialNumbers" = VArr items ->
  1 <= length items <= 50 ->
  List.filter keeps items <> [] ->
  exists results st',
    checkWarrantyBatch w (map string_of (List.filter keeps items)) scheds st
    = Some (Returned results, st') /\
    check_route w uuid body scheds st
    = Some (mkResponse 200
              (WarrantyResponse results (length (List.filter keeps items))
                 (length (List.filter is_error results))
                 (if truthy (member body "batchId") then member body "batchId"
                  else VStr uuid)
                 (Date_now w (trace st') - Date_now w (trace st))), st').
Proof.
  intros Hu Hn Hitems Hlen Hvalid.
  destruct (checkWarrantyBatch_returns w (map string_of (List.filter keeps items)) scheds st)
    as (results & st' & Hbatch & _).
  exists results, st'. split; [done|].
  unfold check_route. rewrite Hitems.
  destruct (Nat.eqb_spec (length items) 0); [lia|].
  destruct (Nat.ltb_spec 50 (length items)); [lia|].
  destruct (Nat.eqb_spec (length (List.filter keeps items)) 0) as [Hz|_].
  { by apply length_zero_iff_nil in Hz. }
  rewrite Hbatch. by destruct body.
Qed.

(** The status of [POST /check].  It is 500 exactly when the request has no
    body to destructure; no failure of a lookup makes it 500.  It is 200
    exactly when [serialNumbers] is an array of 1 to 50 entries of which at
    least one is a string whose trimmed form passes the format test: more
    than 50 entries are refused even when few of them are valid.  Every
    other request is answered 400, and a request that is not answered 200
    leaves the service as it was. *)
Theorem check_route_status (w : World) (uuid : string) (body : jsval)
  (scheds : list (list nat)) (st : State) :
  exists response st',
    check_route w uuid body scheds st = Some (response, st') /\
    (http_status response = 500 <-> body = VUndefined \/ body = VNull) /\
    (http_status response = 200 <->
     body <> VUndefined /\ body <> VNull /\
     exists items,
       member body "serialNumbers" = VArr items /\
       1 <= length items <= 50 /\ List.filter keeps items <> []) /\
    (http_status response = 200 \/ http_status response = 400 \/
     http_status response = 500) /\
    (http_status response <> 200 -> st' = st).
Proof.
  assert (forall response,
            check_route w uuid body scheds st = Some (response, st) ->
            http_status response = 400 ->
            body <> VUndefined -> body <> VNull ->
            (forall items,
               member body "serialNumbers" = VArr items ->
               1 <= length items <= 50 -> List.filter keeps items <> [] -> False) ->
            exists response st',
              check_route w uuid body scheds st = Some (response, st') /\
              (http_status response = 500 <-> body = VUndefined \/ body = VNull) /\
              (http_status response = 200 <->
               body <> VUndefined /\ body <> VNull /\
               exists items,
                 member body "serialNumbers" = VArr items /\
                 1 <= length items <= 50 /\ List.filter keeps items <> []) /\
              (http_status response = 200 \/ http_status response = 400 \/
               http_status response = 500) /\
              (http_status response <> 200 -> st' = st)) as refused.
  { intros response Hroute Hstatus Hu Hn Hbad. exists response, st.
    split; [done|]. rewrite Hstatus.
    split_and!; [split; [done|tauto] | | auto | done].
    split; [done|]. intros (_ & _ & items & Hitems & Hlen & Hvalid).
    exfalso. by eapply Hbad. }
  assert (body = VUndefined \/ body = VNull \/ (body <> VUndefined /\ body <> VNull))
    as [->|[->|[Hu Hn]]] by (destruct body; auto).
  { eexists _, _. split; [reflexivity|]. simpl. split_and!; try tauto; auto.
    split; [done|]. by intros (? & _). }
  { eexists _, _. split; [reflexivity|]. simpl. split_and!; try tauto; auto.
    split; [done|]. by intros (_ & ? & _). }
  destruct (member body "serialNumbers") as [| | | | |items|] eqn:Hitems;
    try (eapply refused; [| | done | done | by intros items' [=]];
         [unfold check_route; rewrite ?Hitems;
          destruct body; try (exfalso; congruence); reflexivity | done]).
  destruct (decide (1 <= length items <= 50 /\ List.filter keeps items <> []))
    as [[Hlen Hvalid]|Hbad].
  - destruct (check_route_eq w uuid body scheds st items Hu Hn Hitems Hlen Hvalid)
      as (results & st' & _ & ->).
    eexists _, _. split; [reflexivity|]. simpl. split_and!; [ | | auto | done].
    + split; [done|tauto].
    + split; [|done]. intros _. split_and!; [done | done |]. by exists items.
  - assert (exists response,
              check_route w uuid body scheds st = Some (response, st) /\
              http_status response = 400) as (response & Hroute & Hstatus).
    { unfold check_route. rewrite Hitems.
      destruct body as [| | | | | |props]; try discriminate Hitems.
      destruct (Nat.eqb_spec (length items) 0); [by eexists|].
      destruct (Nat.ltb_spec 50 (length items)); [by eexists|].
      destruct (Nat.eqb_spec (length (List.filter keeps items)) 0) as [Hz|Hnz];
        [by eexists|].
      exfalso. apply Hbad. split; [lia|]. intros Heq. by rewrite Heq in Hnz. }
    eapply refused; [done..|]. intros items' [= <-] Hlen Hvalid. by apply Hbad.
Qed.

(** What a successful [POST /check] returns, for a service that keeps the
    cache invariant: one record for each entry of [serialNumbers] that the
    filter keeps, in the order of the request, each under the entry as it
    was sent (not trimmed, not upper-cased); [totalProcessed] is their
    number, between 1 and the length of the request; [errors] counts the
    'Error' records among them; [batchId] is the request's when that is
    truthy, a fresh one otherwise; [processingTime] is the time the clock
    advanced.  Entries the filter drops are not reported. *)
Theorem check_route_success (w : World) (uuid : string) (body : jsval)
  (scheds : list (list nat)) (st st' : State) (results : list WarrantyInfo)
  (totalProcessed errors : nat) (batchId : jsval) (processingTime : Z) :
  cache_ok st ->
  check_route w uuid body scheds st
  = Some (mkResponse 200
            (WarrantyResponse results totalProcessed errors batchId processingTime), st') ->
  exists items,
    member body "serialNumbers" = VArr items /\
    map serialNumber results = map string_of (List.filter keeps items) /\
    totalProcessed = length results /\
    1 <= totalProcessed <= length items /\
    length items <= 50 /\
    errors = length (List.filter is_error results) /\
    errors <= totalProcessed /\
    batchId = (if truthy (member body "batchId") then member body "batchId"
               else VStr uuid) /\
    processingTime = (Date_now w (trace st') - Date_now w (trace st))%Z /\
    cache_ok st'.
Proof.
  intros Hok Hroute.
  destruct body as [| | | | | |props]; try discriminate Hroute.
  unfold check_route in Hroute.
  destruct (member (VObj props) "serialNumbers") as [| | | | |items|] eqn:Hitems;
    try discriminate Hroute.
  destruct (Nat.eqb_spec (length items) 0); [discriminate Hroute|].
  destruct (Nat.ltb_spec 50 (length items)); [discriminate Hroute|].
  destruct (Nat.eqb_spec (length (List.filter keeps items)) 0); [discriminate Hroute|].
  destruct (checkWarrantyBatch_returns w (map string_of (List.filter keeps items)) scheds st)
    as (results' & st'' & Hbatch & Hlen & Hrecords).
  destruct (Hrecords Hok) as [Hserials Hok'].
  rewrite Hbatch in Hroute. injection Hroute as <- <- <- <- <- <-.
  rewrite length_map in Hlen.
  exists items. split_and!; try done.
  - lia.
  - apply List.filter_length_le.
  - rewrite <- Hlen. apply List.filter_length_le.
Qed.

Lemma check_route_success_witness :
  cache_ok initial_state /\
  exists results st',
    check_route scraping_world "4b1f" sample_request sample_schedule initial_state
    = Some (mkResponse 200
              (WarrantyResponse results 3 1 (VStr "inventory-2023-11") 21000), st') /\
    map serialNumber results = ["PF2ABCDE"; " pf2abcdf "; "PF0BROKEN"] /\
    cache_ok st'.
Proof.
  split; [apply cache_ok_initial|].
  eexists _, _. split; [reflexivity|].
  edestruct (check_route_success scraping_world "4b1f" sample_request sample_schedule
               initial_state _ _ 3 1 (VStr "inventory-2023-11") 21000
               (cache_ok_initial []) eq_refl)
    as (items & Hitems & Hserials & _ & _ & _ & _ & _ & _ & _ & Hok).
  injection Hitems as <-. split; [exact Hserials|exact Hok].
Defined.

Lemma normal_serials_kept (serials : list string) :
  Forall (fun s => test_serial s = true) serials ->
  List.filter keeps (map VStr serials) = map VStr serials.
Proof.
  induction 1 as [|s serials Hs _ IH]; [done|].
  cbn [map List.filter]. by rewrite (test_serial_keeps s Hs), IH.
Qed.

(** [POST /parse] composed with [POST /check]: the serial numbers a
    successful upload returns are all kept by the filter of [POST /check],
    so up to 50 of them are looked up, each under the same string and in the
    same order, by a service that keeps the cache invariant.  The upload
    itself has no limit: a list of more than 50 is refused whole, with 400
    and without any lookup. *)
Theorem uploaded_serials_are_checked (csv : string -> csv_stream) (file : upload_file)
  (serials errors : list string) (totalFound : nat)
  (w : World) (uuid : string) (scheds : list (list nat)) (st : State) :
  ascii_file csv file ->
  cache_ok st ->
  parse_route csv (Some file)
  = mkResponse 200 (FileUploadResponse serials totalFound errors) ->
  exists response st',
    check_route w uuid (VObj [("serialNumbers", VArr (map VStr serials))]) scheds st
    = Some (response, st') /\
    if totalFound <=? 50 then
      exists results failed time,
        response = mkResponse 200 (WarrantyResponse results totalFound failed (VStr uuid) time) /\
        map serialNumber results = serials
    else
      http_status response = 400 /\ st' = st.
Proof.
  intros _ Hok. rewrite parse_route_eq.
  destruct (if csv_named file then _ else _); [done|]. cbn zeta.
  destruct (Nat.eqb_spec (length (unique (valid_serials (file_tokens csv file)))) 0)
    as [|Hlen]; [done|].
  intros [= <- <- <-].
  set (serials := unique (valid_serials (file_tokens csv file))) in *.
  assert (List.filter keeps (map VStr serials) = map VStr serials) as Hkept.
  { apply normal_serials_kept, Forall_forall. intros s Hs.
    apply elem_of_unique, elem_of_valid_serials in Hs. tauto. }
  destruct (Nat.leb_spec (length serials) 50) as [Hle|Hgt].
  - destruct (check_route_eq w uuid (VObj [("serialNumbers", VArr (map VStr serials))])
                scheds st (map VStr serials))
      as (results & st' & Hbatch & ->); try done.
    + rewrite length_map. lia.
    + rewrite Hkept. by destruct serials.
    + destruct (checkWarrantyBatch_returns w
                  (map string_of (List.filter keeps (map VStr serials))) scheds st)
        as (results' & st'' & Hbatch' & _ & Hrecords).
      rewrite Hbatch in Hbatch'. injection Hbatch' as <- <-.
      destruct (Hrecords Hok) as [Hserials _].
      eexists _, _. split; [reflexivity|]. eexists _, _, _.
      rewrite Hkept, length_map in *. split; [reflexivity|].
      rewrite Hserials, <- list_fmap_compose. apply list_fmap_id.
  - eexists _, st. unfold check_route.
    change (member (VObj [("serialNumbers", VArr (map VStr serials))]) "serialNumbers")
      with (VArr (map VStr serials)).
    cbv beta iota. rewrite length_map.
    destruct (Nat.eqb_spec (length serials) 0); [lia|].
    destruct (Nat.ltb_spec 50 (length serials)); [|lia].
    done.
Qed.

Lemma uploaded_serials_are_checked_witness :
  ascii_file sample_csv sample_sheet /\
  cache_ok initial_state /\
  parse_route sample_csv (Some sample_sheet)
  = mkResponse 200
      (FileUploadResponse ["PF2ABCDE"; "PF0BROKEN"] 2
         ["Invalid serial number format: T14"]) /\
  exists response st',
    check_route scraping_world "4b1f"
      (VObj [("serialNumbers", VArr (map VStr ["PF2ABCDE"; "PF0BROKEN"]))])
      sample_schedule initial_state
    = Some (response, st') /\
    exists results failed time,
      response = mkResponse 200 (WarrantyResponse results 2 failed (VStr "4b1f") time) /\
      map serialNumber results = ["PF2ABCDE"; "PF0BROKEN"].
Proof.
  assert (ascii_file sample_csv sample_sheet) as Hascii.
  { split_and!; [by apply ascii_text_check | by apply ascii_text_check |].
    repeat constructor; by apply ascii_text_check. }
  split; [exact Hascii|]. split; [apply cache_ok_initial|]. split; [reflexivity|].
  exact (uploaded_serials_are_checked sample_csv sample_sheet
           ["PF2ABCDE"; "PF0BROKEN"] ["Invalid serial number format: T14"] 2
           scraping_world "4b1f" sample_schedule initial_state
           Hascii (cache_ok_initial []) eq_refl).
Defined.

(** ** The page *)

(** *** Removing duplicates by [indexOf] *)

Lemma indexOf_app_l (pre l : list string) (x : string) :
  x ∈ pre -> exists i, indexOf (pre ++ l) x = Some i /\ i < length pre.
Proof.
  induction pre as [|y pre IH]; [by intros ?%elem_of_nil|].
  intros Hx. simpl. destruct (String.eqb_spec y x) as [->|Hne].
  - exists 0. split; [done|lia].
  - apply elem_of_cons in Hx as [->|Hx]; [done|].
    destruct (IH Hx) as (i & -> & Hi). exists (S i). split; [done|lia].
Qed.

Lemma indexOf_app_r (pre l : list string) (x : string) :
  x ∉ pre -> indexOf (pre ++ x :: l) x = Some (length pre).
Proof.
  induction pre as [|y pre IH]; intros Hx; simpl.
  - by rewrite String.eqb_refl.
  - apply not_elem_of_cons in Hx as [Hne Hx].
    destruct (String.eqb_spec y x) as [->|_]; [done|]. by rewrite (IH Hx).
Qed.

Lemma filter_indexed_unique_from (xs pre seen : list string) :
  (forall x, x ∈ seen <-> x ∈ pre) ->
  filter_indexed (fun serial index => bool_decide (indexOf (pre ++ xs) serial = Some index))
    (length pre) xs
  = unique_from seen xs.
Proof.
  revert pre seen. induction xs as [|x xs IH]; intros pre seen Hseen; [done|].
  assert ((pre ++ [x]) ++ xs = pre ++ x :: xs) as Hmid by (by rewrite <- app_assoc).
  assert (length (pre ++ [x]) = S (length pre)) as Hlen by (rewrite length_app; simpl; lia).
  cbn [filter_indexed unique_from]. destruct (decide (x ∈ seen)) as [Hx|Hx].
  - rewrite (bool_decide_eq_true_2 (x ∈ seen)) by done.
    apply Hseen in Hx. destruct (indexOf_app_l pre (x :: xs) x Hx) as (i & -> & Hi).
    rewrite bool_decide_eq_false_2 by (intros [= ->]; lia).
    specialize (IH (pre ++ [x]) seen). rewrite Hmid, Hlen in IH. apply IH.
    intros y. rewrite elem_of_app, list_elem_of_singleton, Hseen.
    split; [tauto|]. intros [?| ->]; done.
  - rewrite (bool_decide_eq_false_2 (x ∈ seen)) by done.
    rewrite Hseen in Hx. rewrite (indexOf_app_r pre xs x Hx).
    rewrite bool_decide_eq_true_2 by done. f_equal.
    specialize (IH (pre ++ [x]) (x :: seen)). rewrite Hmid, Hlen in IH. apply IH.
    intros y. rewrite elem_of_cons, elem_of_app, list_elem_of_singleton, Hseen. tauto.
Qed.

(** [filter((x, i, arr) => arr.indexOf(x) === i)] and [[...new Set(arr)]]
    give the same list. *)
Lemma filter_indexOf_unique (arr : list string) :
  filter_indexed (fun serial index => bool_decide (indexOf arr serial = Some index)) 0 arr
  = unique arr.
Proof. by apply (filter_indexed_unique_from arr [] []). Qed.

Lemma parseSerialNumbers_eq (text : string) :
  parseSerialNumbers text = unique (valid_serials (split is_entry_separator text)).
Proof. unfold parseSerialNumbers. cbn zeta. apply filter_indexOf_unique. Qed.

(** *** One split or two *)

Lemma trimmed_values_app (xs ys : list string) :
  trimmed_values (xs ++ ys) = trimmed_values xs ++ trimmed_values ys.
Proof. unfold trimmed_values. by rewrite map_app, List.filter_app. Qed.

Lemma trimmed_values_cons (x : string) (xs : list string) :
  trimmed_values (x :: xs) = trimmed_values [x] ++ trimmed_values xs.
Proof. apply (trimmed_values_app [x] xs). Qed.

(** Whether a separator came before does not show in the values. *)
Lemma split_go_flag (sep : Ascii.ascii -> bool) (l : list Ascii.ascii) :
  trimmed_values (map text (split_go sep l [] true))
  = trimmed_values (map text (split_go sep l [] false)).
Proof. destruct l as [|c l]; simpl; [done|]. by destruct (sep c). Qed.

(** The values of a text are those before a separator and those after it. *)
Lemma split_go_at (sep : Ascii.ascii -> bool) (c : Ascii.ascii) (l1 l2 cur : list Ascii.ascii)
  (after_sep : bool) :
  sep c = true ->
  (after_sep = true -> cur = []) ->
  trimmed_values (map text (split_go sep (l1 ++ c :: l2) cur after_sep))
  = trimmed_values (map text (split_go sep l1 cur after_sep))
    ++ trimmed_values (map text (split_go sep l2 [] false)).
Proof.
  intros Hc. revert cur after_sep.
  induction l1 as [|d l1 IH]; intros cur after_sep Hcur; simpl.
  - rewrite Hc. destruct after_sep.
    + rewrite (Hcur eq_refl). apply split_go_flag.
    + cbn [map]. by rewrite trimmed_values_cons, split_go_flag.
  - destruct (sep d).
    + destruct after_sep; [by apply IH|].
      cbn [map].
      rewrite (trimmed_values_cons _ (map text (split_go sep (l1 ++ c :: l2) [] true))).
      rewrite (trimmed_values_cons _ (map text (split_go sep l1 [] true))).
      rewrite <- app_assoc. f_equal. by apply IH.
    + by apply IH.
Qed.

Lemma split_go_ext (sep sep' : Ascii.ascii -> bool) (l cur : list Ascii.ascii)
  (after_sep : bool) :
  Forall (fun c => sep c = sep' c) l ->
  split_go sep l cur after_sep = split_go sep' l cur after_sep.
Proof.
  intros Hl. revert cur after_sep.
  induction Hl as [|c l Hc _ IH]; intros cur after_sep; simpl; [done|].
  rewrite Hc. destruct (sep' c); [destruct after_sep|]; by rewrite IH.
Qed.

Lemma first_separator (sep : Ascii.ascii -> bool) (l : list Ascii.ascii) :
  Forall (fun c => sep c = false) l \/
  exists t c rest, l = t ++ c :: rest /\ Forall (fun c => sep c = false) t /\ sep c = true.
Proof.
  induction l as [|d l IH]; [by left|].
  destruct (sep d) eqn:Hd.
  - right. exists [], d, l. by split_and!.
  - destruct IH as [Hl|(t & c & rest & -> & Ht & Hc)].
    + left. by constructor.
    + right. exists (d :: t), c, rest. split_and!; [done| by constructor | done].
Qed.

(** Within a line of typed text the separators of the page are the value
    separators of [parseTXTFile]. *)
Lemma entry_separator_in_line (c : Ascii.ascii) :
  is_line_break c = false -> in_range 9 9 c = false ->
  is_entry_separator c = is_value_separator c.
Proof.
  unfold is_line_break, is_entry_separator, is_value_separator.
  intros [H10 _]%orb_false_elim ->. rewrite H10. by rewrite orb_false_r.
Qed.

Lemma line_break_entry_separator (c : Ascii.ascii) :
  is_line_break c = true -> in_range 13 13 c = false -> is_entry_separator c = true.
Proof.
  unfold is_line_break, is_entry_separator. intros Hc H13. rewrite H13, orb_false_r in Hc.
  by rewrite Hc.
Qed.

Lemma lines_flag (f : string -> list string) (l : list Ascii.ascii) :
  f "" = [] ->
  flat_map f (map text (split_go is_line_break l [] true))
  = flat_map f (map text (split_go is_line_break l [] false)).
Proof.
  intros Hf. destruct l as [|c l]; simpl; [done|].
  destruct (is_line_break c); [|done]. simpl. by rewrite Hf.
Qed.

(** Splitting typed text at line breaks, commas and semicolons at once gives
    the values [parseTXTFile] finds line by line. *)
Lemma split_once_or_twice (n : nat) (l : list Ascii.ascii) :
  length l <= n ->
  Forall (fun c => in_range 13 13 c = false /\ in_range 9 9 c = false) l ->
  trimmed_values (map text (split_go is_entry_separator l [] false))
  = flat_map (fun line => trimmed_values (split is_value_separator line))
      (map text (split_go is_line_break l [] false)).
Proof.
  revert l. induction n as [|n IH]; intros l Hlen Htyped.
  { destruct l; [done|simpl in Hlen; lia]. }
  assert (forall t, Forall (fun c => is_line_break c = false) t ->
                    Forall (fun c => in_range 13 13 c = false /\ in_range 9 9 c = false) t ->
                    trimmed_values (map text (split_go is_entry_separator t [] false))
                    = trimmed_values (split is_value_separator (text t))) as Hline.
  { intros t Hbreak Ht. unfold split. rewrite chars_text. do 2 f_equal.
    apply split_go_ext. apply Forall_forall. intros c Hc.
    rewrite Forall_forall in Hbreak, Ht.
    apply entry_separator_in_line; [by apply Hbreak|by apply Ht]. }
  destruct (first_separator is_line_break l)
    as [Hplain|(t & c & rest & -> & Ht & Hc)].
  - pose proof (split_go_plain is_line_break l [] [] false Hplain (or_intror eq_refl))
      as Hone.
    rewrite app_nil_r in Hone. rewrite Hone. cbn [split_go map flat_map app].
    rewrite app_nil_r. by apply Hline.
  - apply Forall_app in Htyped as [Htyped_t Htyped_rest].
    apply Forall_cons in Htyped_rest as [[Hc13 _] Htyped_rest].
    rewrite split_go_at by (by apply line_break_entry_separator || done).
    rewrite (split_go_plain is_line_break t (c :: rest) [] false Ht (or_intror eq_refl)).
    cbn [split_go app]. rewrite Hc. cbn [map flat_map].
    rewrite (lines_flag _ rest) by done.
    rewrite <- IH; [by rewrite Hline | | done].
    rewrite length_app in Hlen. simpl in Hlen. lia.
Qed.

(** The serial numbers of a list of values are those of its trimmed,
    non-empty values. *)
Lemma valid_serials_trimmed (tokens : list string) :
  valid_serials (trimmed_values tokens) = valid_serials tokens.
Proof.
  unfold valid_serials, trimmed_values.
  induction tokens as [|t tokens IH]; [done|].
  cbn [map List.filter]. destruct (nonempty (trim t)) eqn:Hne.
  - cbn [map List.filter].
    assert (normalize (trim t) = normalize t) as ->.
    { unfold normalize. by rewrite trim_idemp. }
    by rewrite IH.
  - assert (normalize t = "") as ->.
    { apply negb_false_iff in Hne. apply String.eqb_eq in Hne.
      unfold normalize. by rewrite Hne. }
    exact IH.
Qed.

Lemma parseSerialNumbers_parseTXTFile (text : string) :
  typed_text text ->
  parseSerialNumbers text = unique (valid_serials (parseTXTFile text []).1).
Proof.
  intros Htyped. rewrite parseSerialNumbers_eq. f_equal.
  rewrite <- valid_serials_trimmed. unfold parseTXTFile. cbn [fst]. f_equal.
  by apply (split_once_or_twice (length (chars text))).
Qed.

(** *** Text that is trimmed already *)

Lemma head_rev_last (l : list Ascii.ascii) : head (rev l) = last l.
Proof.
  induction l as [|c l _] using rev_ind; [done|].
  by rewrite rev_unit, last_snoc.
Qed.

Lemma trim_chars_ends (l : list Ascii.ascii) :
  (forall c, head l = Some c -> is_space c = false) ->
  (forall c, last l = Some c -> is_space c = false) ->
  trim_chars l = l.
Proof.
  intros Hhead Hlast. unfold trim_chars.
  rewrite (trim_start_id l).
  2:{ destruct (head l) as [c|] eqn:Hc; [right; exists c; by auto|by left]. }
  rewrite (trim_start_id (rev l)); [apply rev_involutive|].
  rewrite head_rev_last.
  destruct (last l) as [c|] eqn:Hc; [right; exists c; by auto|by left].
Qed.

(** Tokens joined by line feeds begin and end as tokens do. *)
Lemma joined_ends (P : Ascii.ascii -> Prop) (tokens : list string) :
  tokens <> [] ->
  Forall (fun t => t <> "" /\ Forall P (chars t)) tokens ->
  chars (String.concat LF tokens) <> [] /\
  (forall c, head (chars (String.concat LF tokens)) = Some c -> P c) /\
  (forall c, last (chars (String.concat LF tokens)) = Some c -> P c).
Proof.
  intros Hne Hall. induction Hall as [|t tokens [Ht HP] Hall IH]; [done|].
  assert (chars t <> []) as Hchars by (by destruct t).
  rewrite Forall_forall in HP.
  destruct tokens as [|t' tokens].
  - cbn [String.concat]. split_and!; [done|..]; intros c Hc; apply HP.
    + destruct (chars t); [done|]. injection Hc as ->. by left.
    + by apply last_Some_elem_of.
  - destruct IH as (Hrest & _ & Hlast); [done|].
    change (String.concat LF (t :: t' :: tokens))
      with (t +:+ LF +:+ String.concat LF (t' :: tokens)).
    rewrite !chars_app. split_and!.
    + by destruct (chars t).
    + intros c Hc. apply HP. destruct (chars t); [done|]. injection Hc as ->. by left.
    + intros c. rewrite app_assoc, last_app.
      destruct (last (chars (String.concat LF (t' :: tokens)))) as [d|] eqn:Hd.
      * intros [= <-]. by apply Hlast.
      * by apply last_None in Hd.
Qed.

Lemma alnum_entry (c : Ascii.ascii) :
  is_digit c || is_upper c || is_lower c = true -> is_entry_separator c = false.
Proof.
  intros (_ & Hbreak & Hvalue)%alnum_plain.
  unfold is_line_break, is_value_separator, is_entry_separator in *.
  apply orb_false_elim in Hbreak as [-> _].
  apply orb_false_elim in Hvalue as [[-> ->]%orb_false_elim _]. done.
Qed.

Lemma valid_serials_id (serials : list string) :
  Forall (fun s => test_serial s = true /\ normalize s = s) serials ->
  valid_serials serials = serials.
Proof.
  unfold valid_serials. induction 1 as [|s serials [Hs Hfix] _ IH]; [done|].
  cbn [map List.filter]. rewrite Hfix, Hs, (test_serial_nonempty s Hs). cbn [andb].
  by rewrite IH.
Qed.

(** The serial numbers of a successful upload, joined by line feeds, are
    text that [checkManualWarranty] does not change by trimming and that
    [parseSerialNumbers] reads back as they are. *)
Lemma parseSerialNumbers_joined (serials : list string) :
  serials <> [] ->
  NoDup serials ->
  Forall (fun s => test_serial s = true /\ normalize s = s) serials ->
  trim (uploaded_text serials) = uploaded_text serials /\
  nonempty (uploaded_text serials) = true /\
  parseSerialNumbers (uploaded_text serials) = serials.
Proof.
  intros Hne Hnd Hall. unfold uploaded_text.
  assert (Forall (fun t => t <> "" /\
                           Forall (fun c => is_digit c || is_upper c || is_lower c = true)
                             (chars t)) serials) as Halnum.
  { eapply Forall_impl; [exact Hall|]. intros s [Hs _]. split.
    - apply test_serial_nonempty in Hs. by destruct s.
    - by apply test_serial_chars in Hs as [_ ?]. }
  destruct (joined_ends _ serials Hne Halnum) as (Hchars & Hhead & Hlast).
  split_and!.
  - unfold trim. rewrite trim_chars_ends; [apply text_chars| |].
    + intros c Hc. by apply Hhead, alnum_plain in Hc as [? _].
    + intros c Hc. by apply Hlast, alnum_plain in Hc as [? _].
  - by apply nonempty_chars.
  - rewrite parseSerialNumbers_eq.
    assert (split is_entry_separator (String.concat LF serials) = serials) as ->.
    { unfold split, LF. rewrite split_go_joined; [| done | done |].
      - rewrite map_map. erewrite map_ext; [apply map_id|]. intros ?. apply text_chars.
      - eapply Forall_impl; [exact Halnum|]. intros s [? Hs]. split; [done|].
        eapply Forall_impl; [exact Hs|]. intros c. apply alnum_entry. }
    rewrite (valid_serials_id serials Hall). by apply unique_id.
Qed.

(** A list of strings that pass the format test, of 1 to 50 entries, is
    accepted whole by [POST /check]. *)
Lemma check_route_valid_list (w : World) (uuid : string) (scheds : list (list nat))
  (st : State) (serials : list string) :
  Forall (fun s => test_serial s = true) serials ->
  1 <= length serials <= 50 ->
  exists results st',
    check_route w uuid (check_request serials) scheds st
    = Some (mkResponse 200
              (WarrantyResponse results (length serials)
                 (length (List.filter is_error results)) (VStr uuid)
                 (Date_now w (trace st') - Date_now w (trace st))), st') /\
    (cache_ok st -> map serialNumber results = serials).
Proof.
  intros Hall Hlen.
  pose proof (normal_serials_kept serials Hall) as Hkept.
  destruct (check_route_eq w uuid (check_request serials) scheds st (map VStr serials))
    as (results & st' & Hbatch & Hroute); try done.
  { by rewrite length_map. }
  { rewrite Hkept. destruct serials; [simpl in Hlen; lia|done]. }
  destruct (checkWarrantyBatch_returns w
              (map string_of (List.filter keeps (map VStr serials))) scheds st)
    as (results' & st'' & Hbatch' & _ & Hrecords).
  rewrite Hbatch in Hbatch'. injection Hbatch' as <- <-.
  exists results, st'. rewrite Hroute, Hkept, length_map. split; [done|].
  intros Hok. destruct (Hrecords Hok) as [Hserials _].
  rewrite Hserials, Hkept, <- list_fmap_compose. apply list_fmap_id.
Qed.

(** What [checkManualWarranty] hands to [performWarrantyCheck], for ASCII
    text: 1 to 50 serial numbers, none twice, each in normal form and
    passing the format test.  [POST /check] accepts the list whole: it
    answers 200 with [totalProcessed] the length of the list and, from a
    service that keeps the cache invariant, one record for every entry, in
    order.  The page never sends what the server would refuse or drop. *)
Theorem manual_check_is_accepted (w : World) (uuid : string) (scheds : list (list nat))
  (st : State) (value : string) (serials : list string) :
  ascii_text value ->
  checkManualWarranty value = Some serials ->
  NoDup serials /\
  1 <= length serials <= 50 /\
  Forall (fun s => test_serial s = true /\ normalize s = s) serials /\
  exists results st' failed time,
    check_route w uuid (check_request serials) scheds st
    = Some (mkResponse 200
              (WarrantyResponse results (length serials) failed (VStr uuid) time), st') /\
    (cache_ok st -> map serialNumber results = serials).
Proof.
  intros _. unfold checkManualWarranty. cbn zeta.
  destruct (negb (nonempty (trim value))); [done|].
  destruct (Nat.eqb_spec (length (parseSerialNumbers (trim value))) 0); [done|].
  destruct (Nat.ltb_spec 50 (length (parseSerialNumbers (trim value)))); [done|].
  intros [= <-]. rewrite parseSerialNumbers_eq in *.
  set (tokens := split is_entry_separator (trim value)) in *.
  assert (Forall (fun s => test_serial s = true /\ normalize s = s)
            (unique (valid_serials tokens))) as Hall.
  { apply Forall_forall. intros s Hs.
    apply elem_of_unique, elem_of_valid_serials in Hs as [Hs (t & _ & <-)].
    split; [done|]. by apply normalize_fixed. }
  split_and!; [apply unique_NoDup | lia | lia | done |].
  destruct (check_route_valid_list w uuid scheds st (unique (valid_serials tokens)))
    as (results & st' & Hroute & Hserials).
  { eapply Forall_impl; [exact Hall|]. by intros s [? _]. }
  { lia. }
  by eexists _, _, _, _.
Qed.

Lemma manual_check_is_accepted_witness :
  ascii_text sample_text /\
  checkManualWarranty sample_text = Some ["PF2ABCDE"; "PF2ABCDF"; "PF0BROKEN"] /\
  NoDup ["PF2ABCDE"; "PF2ABCDF"; "PF0BROKEN"] /\
  1 <= length ["PF2ABCDE"; "PF2ABCDF"; "PF0BROKEN"] <= 50 /\
  Forall (fun s => test_serial s = true /\ normalize s = s)
    ["PF2ABCDE"; "PF2ABCDF"; "PF0BROKEN"] /\
  exists results st' failed time,
    check_route scraping_world "4b1f" (check_request ["PF2ABCDE"; "PF2ABCDF"; "PF0BROKEN"])
      sample_schedule initial_state
    = Some (mkResponse 200
              (WarrantyResponse results (length ["PF2ABCDE"; "PF2ABCDF"; "PF0BROKEN"])
                 failed (VStr "4b1f") time), st') /\
    (cache_ok initial_state ->
     map serialNumber results = ["PF2ABCDE"; "PF2ABCDF"; "PF0BROKEN"]).
Proof.
  assert (ascii_text sample_text) as Hascii by (by apply ascii_text_check).
  split; [exact Hascii|]. split; [reflexivity|].
  exact (manual_check_is_accepted scraping_world "4b1f" sample_schedule initial_state
           sample_text ["PF2ABCDE"; "PF2ABCDF"; "PF0BROKEN"] Hascii eq_refl).
Defined.

(** The handler on typed text in a file that is not named [*.csv]: it finds
    the serial numbers [parseSerialNumbers] finds in the text, in the same
    order, and answers 400 exactly when there are none. *)
Lemma parse_route_typed (csv : string -> csv_stream)
  (name content : string) :
  ascii_text content ->
  typed_text content ->
  endsWith (toLowerCase name) ".csv" = false ->
  if length (parseSerialNumbers content) =? 0 then
    http_status (parse_route csv (Some (mkUpload name content))) = 400
  else
    exists errors,
      parse_route csv (Some (mkUpload name content))
      = mkResponse 200
          (FileUploadResponse (parseSerialNumbers content)
             (length (parseSerialNumbers content)) errors).
Proof.
  intros _ Htyped Hname. rewrite parse_route_eq.
  unfold file_tokens, csv_named. cbn [originalname fileContent]. rewrite Hname.
  cbn zeta. rewrite <- (parseSerialNumbers_parseTXTFile content Htyped).
  destruct (length (parseSerialNumbers content) =? 0); [done|]. by eexists.
Qed.

(** [POST /parse] composed with the page: the text area filled with the
    serial numbers of a successful upload makes [checkManualWarranty] send
    exactly these serial numbers, in order, when they are at most 50; when
    they are more it sends nothing. *)
Theorem upload_fills_the_form (csv : string -> csv_stream) (file : upload_file)
  (serials errors : list string) (totalFound : nat) :
  ascii_file csv file ->
  parse_route csv (Some file)
  = mkResponse 200 (FileUploadResponse serials totalFound errors) ->
  checkManualWarranty (uploaded_text serials)
  = if totalFound <=? 50 then Some serials else None.
Proof.
  intros _. rewrite parse_route_eq.
  destruct (if csv_named file then _ else _); [done|]. cbn zeta.
  destruct (Nat.eqb_spec (length (unique (valid_serials (file_tokens csv file)))) 0)
    as [|Hlen]; [done|].
  intros [= <- <- <-].
  set (serials := unique (valid_serials (file_tokens csv file))) in *.
  destruct (parseSerialNumbers_joined serials) as (Htrim & Hne & Hparsed).
  { by destruct serials. }
  { apply unique_NoDup. }
  { apply Forall_forall. intros s Hs.
    apply elem_of_unique, elem_of_valid_serials in Hs as [Hs (t & _ & <-)].
    split; [done|]. by apply normalize_fixed. }
  unfold checkManualWarranty. cbn zeta. rewrite Htrim, Hne, Hparsed. cbn [negb].
  destruct (Nat.eqb_spec (length serials) 0); [done|].
  destruct (Nat.ltb_spec 50 (length serials)), (Nat.leb_spec (length serials) 50);
    done || lia.
Qed.

Lemma upload_fills_the_form_witness :
  ascii_file sample_csv sample_sheet /\
  parse_route sample_csv (Some sample_sheet)
  = mkResponse 200
      (FileUploadResponse ["PF2ABCDE"; "PF0BROKEN"] 2
         ["Invalid serial number format: T14"]) /\
  checkManualWarranty (uploaded_text ["PF2ABCDE"; "PF0BROKEN"])
  = Some ["PF2ABCDE"; "PF0BROKEN"].
Proof.
  assert (ascii_file sample_csv sample_sheet) as Hascii.
  { split_and!; [by apply ascii_text_check | by apply ascii_text_check |].
    repeat constructor; by apply ascii_text_check. }
  split; [exact Hascii|]. split; [reflexivity|].
  exact (upload_fills_the_form sample_csv sample_sheet
           ["PF2ABCDE"; "PF0BROKEN"] ["Invalid serial number format: T14"] 2
           Hascii eq_refl).
Defined.

(** The four cards of the summary add up to the number of devices
    processed, and the error card shows the [errors] of the response plus
    the records with status 'Not Found', which the response does not count. *)
Theorem summary_cards_add_up (currentResults : list WarrantyInfo) :
  let cards := updateSummaryCards currentResults in
  activeCount cards + expiringCount cards + expiredCount cards + errorCount cards
  = resultsCount cards /\
  resultsCount cards = length currentResults /\
  errorCount cards
  = length (List.filter is_error currentResults)
    + length (List.filter (fun r => match warrantyStatus r with
                                     | NotFound => true
                                     | _ => false
                                     end) currentResults).
Proof.
  cbn zeta. unfold updateSummaryCards. cbn [activeCount expiringCount expiredCount
    errorCount resultsCount]. split_and!; [|done|].
  - induction currentResults as [|r results IH]; [done|].
    cbn [List.filter length]. destruct (warrantyStatus r); cbn [length]; lia.
  - induction currentResults as [|r results IH]; [done|].
    cbn [List.filter length]. unfold is_error at 1.
    destruct (warrantyStatus r); cbn [length]; lia.
Qed.

(** ** POST /parse with its middleware *)

Lemma fileFilter_error (type name : string) (e : thrown) :
  fileFilter type name = Some e -> e = JsError "Only CSV and TXT files are allowed".
Proof. unfold fileFilter. cbn zeta. destruct (_ || _); [done|]. by intros [= <-]. Qed.

(** Every request has an outcome. *)
Lemma upload_route_total (csv : string -> csv_stream) (part : option file_part) :
  exists outcome, upload_route csv part outcome.
Proof.
  destruct part as [p|]; [|eexists; apply route_responds, single_no_file].
  destruct (decide (originalname (part_file p) = "")) as [Hname|Hname].
  { eexists. by apply route_responds, single_unnamed. }
  destruct (fileFilter (mimetype p) (originalname (part_file p))) as [e|] eqn:Hfilter.
  - eexists. by apply route_passes_on, single_refused.
  - destruct (Z.le_ge_cases (byteLength p) limits_fileSize).
    + eexists. by apply route_responds, single_stored.
    + eexists. by apply route_passes_on, single_too_large.
Qed.

(** A named file that the filter accepts and that is smaller than the limit
    reaches the handler, and nothing else happens to it. *)
Lemma upload_route_accepted (csv : string -> csv_stream) (p : file_part)
  (outcome : route_outcome) :
  originalname (part_file p) <> "" ->
  fileFilter (mimetype p) (originalname (part_file p)) = None ->
  (byteLength p < limits_fileSize)%Z ->
  upload_route csv (Some p) outcome <->
  outcome = Responded (parse_route csv (Some (part_file p))).
Proof.
  intros Hname Hfilter Hsize. split.
  - intros Hroute. inversion Hroute as [part e Hsingle|part file Hsingle]; subst.
    + inversion Hsingle; subst; [congruence|lia].
    + by inversion Hsingle; subst.
  - intros ->. apply route_responds, single_stored; [done|done|lia].
Qed.

(** The status of [POST /parse], middleware included, for a request with at
    most one file part and a file of ASCII text.  Without a file, or with a
    part that has no file name, the handler answers 400.  A file that
    [fileFilter] refuses never reaches the handler: the error 'Only CSV and
    TXT files are allowed' is passed on.  A file it accepts is passed on as
    too large only when it has at least [limits.fileSize] bytes, and reaches
    the handler only when it has at most as many; the handler then answers
    500 exactly when the file is named [*.csv] and the CSV parser fails,
    otherwise 400 exactly when no value of the file has a normal form that
    passes the format test, and 200 in every other case. *)
Theorem upload_route_status (csv : string -> csv_stream) (p : file_part) :
  ascii_file csv (part_file p) ->
  (forall outcome,
     upload_route csv None outcome ->
     exists response, outcome = Responded response /\ http_status response = 400) /\
  (exists outcome, upload_route csv (Some p) outcome) /\
  forall outcome,
    upload_route csv (Some p) outcome ->
    if nonempty (originalname (part_file p)) then
      match fileFilter (mimetype p) (originalname (part_file p)) with
      | Some e =>
          e = JsError "Only CSV and TXT files are allowed" /\
          outcome = PassedOn (FilterError e)
      | None =>
          (outcome = PassedOn LimitFileSize /\ (limits_fileSize <= byteLength p)%Z) \/
          ((byteLength p <= limits_fileSize)%Z /\
           exists response,
             outcome = Responded response /\
             match (if csv_named (part_file p)
                    then csv_error (csv (fileContent (part_file p))) else None) with
             | Some message =>
                 response = mkResponse 500 (Failure "File parsing error" message [])
             | None =>
                 if forallb (fun t => negb (test_serial (normalize t)))
                      (file_tokens csv (part_file p))
                 then
                   response
                   = mkResponse 400
                       (Failure "No valid serial numbers found"
                          "The file must contain valid serial numbers (6-15 alphanumeric characters)"
                          (format_errors (file_tokens csv (part_file p))))
                 else http_status response = 200
             end)
      end
    else
      exists response, outcome = Responded response /\ http_status response = 400.
Proof.
  intros Hascii. split_and!.
  - intros outcome Hroute.
    inversion Hroute as [part e Hsingle|part file Hsingle]; subst.
    + inversion Hsingle.
    + inversion Hsingle; subst. by eexists.
  - apply upload_route_total.
  - intros outcome Hroute.
    assert (forall name, name <> "" -> nonempty name = true) as Hnamed.
    { intros name Hname. by destruct name. }
    inversion Hroute as [part e Hsingle|part file Hsingle]; subst.
    + inversion Hsingle as [| |p' e' Hname Hfilter|p' Hname Hfilter Hsize|]; subst;
        rewrite (Hnamed _ Hname), Hfilter.
      * split; [by eapply fileFilter_error|done].
      * by left.
    + inversion Hsingle as [|p' Hname| | |p' Hname Hfilter Hsize]; subst.
      * rewrite Hname. by eexists.
      * rewrite (Hnamed _ Hname), Hfilter.
        right. split; [done|]. eexists. split; [reflexivity|].
        by destruct (parse_route_cases csv (part_file p) Hascii) as [_ ?].
Qed.

Lemma upload_route_status_witness :
  ascii_file failing_csv (part_file refused_part) /\
  ascii_file failing_csv (part_file sample_part) /\
  upload_route failing_csv (Some refused_part)
    (PassedOn (FilterError (JsError "Only CSV and TXT files are allowed"))) /\
  (forall outcome,
     upload_route failing_csv (Some refused_part) outcome ->
     outcome = PassedOn (FilterError (JsError "Only CSV and TXT files are allowed"))) /\
  forall outcome,
    upload_route failing_csv (Some sample_part) outcome ->
    exists response, outcome = Responded response /\ http_status response = 200.
Proof.
  assert (ascii_file failing_csv (part_file refused_part)) as Hrefused.
  { split_and!; [by apply ascii_text_check | by apply ascii_text_check |]. constructor. }
  assert (ascii_file failing_csv (part_file sample_part)) as Hsample.
  { split_and!; [by apply ascii_text_check | by apply ascii_text_check |]. constructor. }
  split; [exact Hrefused|]. split; [exact Hsample|]. split.
  { by apply route_passes_on, single_refused. }
  split.
  - intros outcome Hroute.
    destruct (upload_route_status failing_csv refused_part Hrefused) as (_ & _ & Hstatus).
    by destruct (Hstatus outcome Hroute) as [_ ->].
  - intros outcome Hroute.
    destruct (upload_route_status failing_csv sample_part Hsample) as (_ & _ & Hstatus).
    destruct (Hstatus outcome Hroute) as [[_ Hsize]|[_ (response & -> & Hresponse)]].
    + by vm_compute in Hsize.
    + by exists response.
Defined.

(** Round trip of [POST /parse]: serial numbers in normal form, none twice,
    written one per line into a file that is not named [*.csv], that the
    filter accepts (by its MIME type or by the ending [.txt]) and that is
    smaller than the limit, are returned as they are, in order and without
    an error message; the request has no other outcome. *)
Theorem upload_route_reads_back (csv : string -> csv_stream) (type name : string)
  (bytes : Z) (serials : list string) :
  ascii_text name ->
  name <> "" ->
  fileFilter type name = None ->
  (bytes < limits_fileSize)%Z ->
  endsWith (toLowerCase name) ".csv" = false ->
  serials <> [] ->
  NoDup serials ->
  Forall (fun s => test_serial s = true /\ normalize s = s) serials ->
  forall outcome,
    upload_route csv
      (Some (mkPart type bytes (mkUpload name (String.concat LF serials)))) outcome <->
    outcome = Responded (mkResponse 200 (FileUploadResponse serials (length serials) [])).
Proof.
  intros _ Hnamed Hfilter Hsize Hname Hne Hnd Hall outcome.
  rewrite upload_route_accepted by done. cbn [part_file].
  by rewrite (parse_route_joined csv name serials Hname Hne Hnd Hall).
Qed.

Lemma upload_route_reads_back_witness :
  ascii_text "again.txt" /\
  "again.txt" <> "" /\
  fileFilter "application/octet-stream" "again.txt" = None /\
  (27 < limits_fileSize)%Z /\
  endsWith (toLowerCase "again.txt") ".csv" = false /\
  ["PF2ABCDE"; "PF2ABCDF"; "PF0BROKEN"] <> [] /\
  NoDup ["PF2ABCDE"; "PF2ABCDF"; "PF0BROKEN"] /\
  Forall (fun s => test_serial s = true /\ normalize s = s)
    ["PF2ABCDE"; "PF2ABCDF"; "PF0BROKEN"] /\
  upload_route failing_csv
    (Some (mkPart "application/octet-stream" 27
             (mkUpload "again.txt"
                (String.concat LF ["PF2ABCDE"; "PF2ABCDF"; "PF0BROKEN"]))))
    (Responded (mkResponse 200
                  (FileUploadResponse ["PF2ABCDE"; "PF2ABCDF"; "PF0BROKEN"] 3 []))).
Proof.
  assert (ascii_text "again.txt") as Hascii by (by apply ascii_text_check).
  assert (NoDup ["PF2ABCDE"; "PF2ABCDF"; "PF0BROKEN"]) as Hnd.
  { by apply (bool_decide_unpack _). }
  assert (Forall (fun s => test_serial s = true /\ normalize s = s)
            ["PF2ABCDE"; "PF2ABCDF"; "PF0BROKEN"]) as Hall.
  { repeat constructor. }
  split; [exact Hascii|]. split; [done|]. split; [reflexivity|]. split; [reflexivity|].
  split; [reflexivity|]. split; [done|]. split; [exact Hnd|]. split; [exact Hall|].
  apply (upload_route_reads_back failing_csv "application/octet-stream" "again.txt" 27
           ["PF2ABCDE"; "PF2ABCDF"; "PF0BROKEN"]
           Hascii ltac:(done) eq_refl eq_refl eq_refl ltac:(done) Hnd Hall).
  reflexivity.
Defined.

(** Typed text and a text file agree: for ASCII text without carriage return
    and tabulator, in a file that is not named [*.csv], that the filter
    accepts and that is smaller than the limit, [POST /parse] answers, and
    finds the serial numbers [parseSerialNumbers] finds in the text, in the
    same order; it answers 400 exactly when there are none. *)
Theorem typed_list_agrees_with_text_upload (csv : string -> csv_stream)
  (type name content : string) (bytes : Z) :
  ascii_text name ->
  ascii_text content ->
  typed_text content ->
  name <> "" ->
  fileFilter type name = None ->
  (bytes < limits_fileSize)%Z ->
  endsWith (toLowerCase name) ".csv" = false ->
  exists response,
    (forall outcome,
       upload_route csv (Some (mkPart type bytes (mkUpload name content))) outcome <->
       outcome = Responded response) /\
    if length (parseSerialNumbers content) =? 0 then http_status response = 400
    else
      exists errors,
        response
        = mkResponse 200
            (FileUploadResponse (parseSerialNumbers content)
               (length (parseSerialNumbers content)) errors).
Proof.
  intros _ Hascii Htyped Hnamed Hfilter Hsize Hname.
  exists (parse_route csv (Some (mkUpload name content))). split.
  - intros outcome. by rewrite upload_route_accepted.
  - by apply parse_route_typed.
Qed.

Lemma typed_list_agrees_with_text_upload_witness :
  ascii_text "typed.txt" /\
  ascii_text sample_text /\
  typed_text sample_text /\
  "typed.txt" <> "" /\
  fileFilter "application/octet-stream" "typed.txt" = None /\
  (47 < limits_fileSize)%Z /\
  endsWith (toLowerCase "typed.txt") ".csv" = false /\
  exists response,
    (forall outcome,
       upload_route failing_csv (Some sample_part) outcome <->
       outcome = Responded response) /\
    exists errors,
      response
      = mkResponse 200
          (FileUploadResponse (parseSerialNumbers sample_text)
             (length (parseSerialNumbers sample_text)) errors).
Proof.
  assert (ascii_text "typed.txt") as Hname by (by apply ascii_text_check).
  assert (ascii_text sample_text) as Hascii by (by apply ascii_text_check).
  assert (typed_text sample_text) as Htyped by (repeat constructor).
  split; [exact Hname|]. split; [exact Hascii|]. split; [exact Htyped|]. split; [done|].
  split; [reflexivity|]. split; [reflexivity|]. split; [reflexivity|].
  exact (typed_list_agrees_with_text_upload failing_csv "application/octet-stream"
           "typed.txt" sample_text 47 Hname Hascii Htyped ltac:(done) eq_refl eq_refl
           eq_refl).
Defined.
